(** * SceneZoneSpaceManager: zone ID allocation, membership and rezoning

    A shallow embedding of
    [Engine/source/scene/zones/sceneZoneSpaceManager.cpp].

    Pointers are identifiers into two stores kept in the manager state: the
    scene objects ([SceneObject*], [SceneZoneSpace*]) and the pooled
    [ZoneObjectList]s.  Two vector slots holding the same list identifier
    alias the same list, as two equal pointers do in the source.

    [U32] values are integers with the wrap-around written out ([u32]).

    [AssertFatal] is compiled out of release builds; every function below is
    the release body, and an asserted condition shows up as a hypothesis of
    the theorems that rely on it.

    Geometry (boxes, points, overlap tests), the scene container and the
    notifications a zone space receives live outside this translation unit;
    they are variables of the section. *)

From stdpp Require Import gmap list fin_maps.
From Stdlib Require Import ZArith Lia.

Open Scope Z_scope.

(** ** Machine integers *)

Definition U32_modulus : Z := 2 ^ 32.

Definition u32 (z : Z) : Z := z mod U32_modulus.

Definition u32_add (a b : Z) : Z := u32 (a + b).
Definition u32_sub (a b : Z) : Z := u32 (a - b).

Definition RootZoneId : Z := 0.

(** Modelled from the spec: the header that declares [InvalidZoneId] is not
    part of the sources; the spec calls it a sentinel distinct from every
    allocated ID, taken here as the all-ones [U32]. *)
Definition InvalidZoneId : Z := 4294967295.

(** ** Pointers *)

Definition ObjId := nat.
Definition ListId := nat.

(** ** The object-to-zones table ([mObjectZoneLists])

    Modelled from the spec: the handle-addressed multi-map is declared in a
    header outside the sources.  A handle is a non-zero [U32]; zero means
    "no list".  Each live handle holds the zone IDs of one object. *)

Module ZoneTable.

Abbreviation t := (gmap positive (list Z)).

Definition empty : t := ∅.

Definition lookup (h : Z) (tb : t) : option (list Z) :=
  match h with
  | Z.pos p => tb !! p
  | _ => None
  end.

(** [getValues(handle, numZones)] *)
Definition getValues (h : Z) (tb : t) : list Z :=
  default [] (lookup h tb).

(** [allocList(numZones, zoneList)] *)
Definition allocList (vals : list Z) (tb : t) : Z * t :=
  let p := fresh (dom tb) in
  (Z.pos p, <[p := vals]> tb).

(** [freeList(handle)] *)
Definition freeList (h : Z) (tb : t) : t :=
  match h with
  | Z.pos p => delete p tb
  | _ => tb
  end.

(** [reallocList(handle, numZones, zoneList)] *)
Definition reallocList (h : Z) (vals : list Z) (tb : t) : t :=
  match h with
  | Z.pos p => <[p := vals]> tb
  | _ => tb
  end.

Definition replaceBin (oldId newId : Z) (vals : list Z) : list Z :=
  (λ z, if bool_decide (z = oldId) then newId else z) <$> vals.

(** [replaceListBin(handle, oldValue, newValue)] *)
Definition replaceListBin (h oldId newId : Z) (tb : t) : t :=
  match h with
  | Z.pos p => alter (replaceBin oldId newId) p tb
  | _ => tb
  end.

(** [containsBinItem(handle, value)] *)
Definition containsBinItem (h z : Z) (tb : t) : bool :=
  bool_decide (z ∈ getValues h tb).

End ZoneTable.

Section Manager.

(** ** Geometry, left abstract *)

Context {Box3F : Type} `{!EqDecision Box3F}.
Context {Point3F : Type}.

(** [Box3F::Invalid] and [Box3F::intersect]. *)
Variable Box3F_Invalid : Box3F.
Variable Box3F_intersect : Box3F → Box3F → Box3F.

(** ** Constants of headers outside the sources *)

Variable MaxObjectZones : Z.
Variable ZoneObjectType : Z.
Variable OUTDOOR_OBJECT_TYPEMASK : Z.

(** ** Scene objects

    One record for [SceneObject] and its subclass [SceneZoneSpace]:
    [isZoneSpace] says whether [dynamic_cast<SceneZoneSpace*>] succeeds,
    and the last two fields are those of the subclass. *)

Record SceneObject := mkSceneObject {
  mZoneListHandle : Z;
  mNumCurrZones : Z;
  mZoneRefDirty : bool;
  mTypeMask : Z;
  mGlobalBounds : bool;
  mWorldBox : Box3F;
  isZoneSpace : bool;
  mZoneRangeStart : Z;
  mNumZones : Z
}.

Definition set_mZoneListHandle (v : Z) (o : SceneObject) : SceneObject :=
  mkSceneObject v (mNumCurrZones o) (mZoneRefDirty o) (mTypeMask o)
    (mGlobalBounds o) (mWorldBox o) (isZoneSpace o) (mZoneRangeStart o)
    (mNumZones o).

Definition set_mNumCurrZones (v : Z) (o : SceneObject) : SceneObject :=
  mkSceneObject (mZoneListHandle o) v (mZoneRefDirty o) (mTypeMask o)
    (mGlobalBounds o) (mWorldBox o) (isZoneSpace o) (mZoneRangeStart o)
    (mNumZones o).

Definition set_mZoneRefDirty (v : bool) (o : SceneObject) : SceneObject :=
  mkSceneObject (mZoneListHandle o) (mNumCurrZones o) v (mTypeMask o)
    (mGlobalBounds o) (mWorldBox o) (isZoneSpace o) (mZoneRangeStart o)
    (mNumZones o).

Definition set_mTypeMask (v : Z) (o : SceneObject) : SceneObject :=
  mkSceneObject (mZoneListHandle o) (mNumCurrZones o) (mZoneRefDirty o) v
    (mGlobalBounds o) (mWorldBox o) (isZoneSpace o) (mZoneRangeStart o)
    (mNumZones o).

Definition set_mZoneRangeStart (v : Z) (o : SceneObject) : SceneObject :=
  mkSceneObject (mZoneListHandle o) (mNumCurrZones o) (mZoneRefDirty o)
    (mTypeMask o) (mGlobalBounds o) (mWorldBox o) (isZoneSpace o) v
    (mNumZones o).

Definition set_mNumZones (v : Z) (o : SceneObject) : SceneObject :=
  mkSceneObject (mZoneListHandle o) (mNumCurrZones o) (mZoneRefDirty o)
    (mTypeMask o) (mGlobalBounds o) (mWorldBox o) (isZoneSpace o)
    (mZoneRangeStart o) v.

(** What a pointer that was never written through refers to: an object as
    its constructor leaves it. *)
Definition newSceneObject : SceneObject :=
  mkSceneObject 0 0 false 0 false Box3F_Invalid false InvalidZoneId 0.

(** ** Zone object lists *)

Record ZoneObjectList := mkZoneObjectList {
  mManager : option ObjId;
  mObjects : list ObjId
}.

(** ** The manager *)

Record Manager := mkManager {
  mRootZone : ObjId;
  mZoneSpaces : list ObjId;
  mNumTotalAllocatedZones : Z;
  mNumActiveZones : Z;
  mZoneLists : list (option ListId);
  mZoneListPool : list ListId;
  mZoneSpacesQueryList : list ObjId;
  mObjectZoneLists : ZoneTable.t;
  mDirtyObjects : list ObjId;
  mDirtyZoneSpaces : list ObjId;
  mDirtyArea : Box3F;
  objects : gmap ObjId SceneObject;
  zoneListHeap : gmap ListId ZoneObjectList
}.

Definition set_mZoneSpaces (v : list ObjId) (s : Manager) : Manager :=
  mkManager (mRootZone s) v (mNumTotalAllocatedZones s) (mNumActiveZones s)
    (mZoneLists s) (mZoneListPool s) (mZoneSpacesQueryList s)
    (mObjectZoneLists s) (mDirtyObjects s) (mDirtyZoneSpaces s)
    (mDirtyArea s) (objects s) (zoneListHeap s).

Definition set_mNumTotalAllocatedZones (v : Z) (s : Manager) : Manager :=
  mkManager (mRootZone s) (mZoneSpaces s) v (mNumActiveZones s)
    (mZoneLists s) (mZoneListPool s) (mZoneSpacesQueryList s)
    (mObjectZoneLists s) (mDirtyObjects s) (mDirtyZoneSpaces s)
    (mDirtyArea s) (objects s) (zoneListHeap s).

Definition set_mNumActiveZones (v : Z) (s : Manager) : Manager :=
  mkManager (mRootZone s) (mZoneSpaces s) (mNumTotalAllocatedZones s) v
    (mZoneLists s) (mZoneListPool s) (mZoneSpacesQueryList s)
    (mObjectZoneLists s) (mDirtyObjects s) (mDirtyZoneSpaces s)
    (mDirtyArea s) (objects s) (zoneListHeap s).

Definition set_mZoneLists (v : list (option ListId)) (s : Manager)
  : Manager :=
  mkManager (mRootZone s) (mZoneSpaces s) (mNumTotalAllocatedZones s)
    (mNumActiveZones s) v (mZoneListPool s) (mZoneSpacesQueryList s)
    (mObjectZoneLists s) (mDirtyObjects s) (mDirtyZoneSpaces s)
    (mDirtyArea s) (objects s) (zoneListHeap s).

Definition set_mZoneListPool (v : list ListId) (s : Manager) : Manager :=
  mkManager (mRootZone s) (mZoneSpaces s) (mNumTotalAllocatedZones s)
    (mNumActiveZones s) (mZoneLists s) v (mZoneSpacesQueryList s)
    (mObjectZoneLists s) (mDirtyObjects s) (mDirtyZoneSpaces s)
    (mDirtyArea s) (objects s) (zoneListHeap s).

Definition set_mZoneSpacesQueryList (v : list ObjId) (s : Manager)
  : Manager :=
  mkManager (mRootZone s) (mZoneSpaces s) (mNumTotalAllocatedZones s)
    (mNumActiveZones s) (mZoneLists s) (mZoneListPool s) v
    (mObjectZoneLists s) (mDirtyObjects s) (mDirtyZoneSpaces s)
    (mDirtyArea s) (objects s) (zoneListHeap s).

Definition set_mObjectZoneLists (v : ZoneTable.t) (s : Manager) : Manager :=
  mkManager (mRootZone s) (mZoneSpaces s) (mNumTotalAllocatedZones s)
    (mNumActiveZones s) (mZoneLists s) (mZoneListPool s)
    (mZoneSpacesQueryList s) v (mDirtyObjects s) (mDirtyZoneSpaces s)
    (mDirtyArea s) (objects s) (zoneListHeap s).

Definition set_mDirtyObjects (v : list ObjId) (s : Manager) : Manager :=
  mkManager (mRootZone s) (mZoneSpaces s) (mNumTotalAllocatedZones s)
    (mNumActiveZones s) (mZoneLists s) (mZoneListPool s)
    (mZoneSpacesQueryList s) (mObjectZoneLists s) v (mDirtyZoneSpaces s)
    (mDirtyArea s) (objects s) (zoneListHeap s).

Definition set_mDirtyZoneSpaces (v : list ObjId) (s : Manager) : Manager :=
  mkManager (mRootZone s) (mZoneSpaces s) (mNumTotalAllocatedZones s)
    (mNumActiveZones s) (mZoneLists s) (mZoneListPool s)
    (mZoneSpacesQueryList s) (mObjectZoneLists s) (mDirtyObjects s) v
    (mDirtyArea s) (objects s) (zoneListHeap s).

Definition set_mDirtyArea (v : Box3F) (s : Manager) : Manager :=
  mkManager (mRootZone s) (mZoneSpaces s) (mNumTotalAllocatedZones s)
    (mNumActiveZones s) (mZoneLists s) (mZoneListPool s)
    (mZoneSpacesQueryList s) (mObjectZoneLists s) (mDirtyObjects s)
    (mDirtyZoneSpaces s) v (objects s) (zoneListHeap s).

Definition set_objects (v : gmap ObjId SceneObject) (s : Manager)
  : Manager :=
  mkManager (mRootZone s) (mZoneSpaces s) (mNumTotalAllocatedZones s)
    (mNumActiveZones s) (mZoneLists s) (mZoneListPool s)
    (mZoneSpacesQueryList s) (mObjectZoneLists s) (mDirtyObjects s)
    (mDirtyZoneSpaces s) (mDirtyArea s) v (zoneListHeap s).

Definition set_zoneListHeap (v : gmap ListId ZoneObjectList) (s : Manager)
  : Manager :=
  mkManager (mRootZone s) (mZoneSpaces s) (mNumTotalAllocatedZones s)
    (mNumActiveZones s) (mZoneLists s) (mZoneListPool s)
    (mZoneSpacesQueryList s) (mObjectZoneLists s) (mDirtyObjects s)
    (mDirtyZoneSpaces s) (mDirtyArea s) (objects s) v.

(** Dereferencing. *)

Definition getObj (s : Manager) (o : ObjId) : SceneObject :=
  default newSceneObject (objects s !! o).

Definition updObj (o : ObjId) (f : SceneObject → SceneObject)
  (s : Manager) : Manager :=
  set_objects (<[o := f (getObj s o)]> (objects s)) s.

Definition emptyZoneObjectList : ZoneObjectList := mkZoneObjectList None [].

Definition getList (s : Manager) (l : ListId) : ZoneObjectList :=
  default emptyZoneObjectList (zoneListHeap s !! l).

(** [mZoneLists[zoneId]], [NULL] when the slot is empty. *)
Definition zoneListAt (s : Manager) (zoneId : Z) : option ListId :=
  mjoin (mZoneLists s !! Z.to_nat zoneId).

(** The constructor; [root] is the freshly created [SceneRootZone] and
    [heap] the scene objects that exist when the manager is built. *)
Definition newManager (root : ObjId) (heap : gmap ObjId SceneObject)
  : Manager :=
  mkManager root [] 0 0 [] [] [] ZoneTable.empty [] [] Box3F_Invalid heap ∅.

(** ** Collaborators

    Code of other translation units, reached through pointers the manager
    holds.  Each may read the whole manager; the two notifications a zone
    space receives may rewrite the zone object lists and nothing else of the
    manager (connectivity and occluder state of a zone space are private to
    it and not part of this state). *)

(** [SceneZoneSpace::isRootZone]. *)
Variable isRootZone : SceneObject → bool.

(** [SceneContainer::findObjectList(area, typeMask, &vector)]: the objects
    appended to the vector, in order. *)
Variable findObjectList : Manager → Box3F → Z → list ObjId.

(** [SceneZoneSpace::getOverlappingZones(object, zones, numZones)]: the
    zone IDs written to [zones] and the returned outside-overlap flag. *)
Variable getOverlappingZones : Manager → ObjId → ObjId → list Z * bool.

(** The same for the overload taking a box. *)
Variable getOverlappingZonesBox : Manager → ObjId → Box3F → list Z * bool.

(** [SceneZoneSpace::getPointZone(p)]. *)
Variable getPointZone : Manager → ObjId → Point3F → Z.

(** The box of half-width 0.1 around a point, computed in floating point by
    [findZone]. *)
Variable pointQueryBox : Point3F → Box3F.

(** [space->_onZoneAddObject(object, zoneIDs, numZones)]. *)
Variable _onZoneAddObject :
  Manager → ObjId → ObjId → list Z → gmap ListId ZoneObjectList.

(** [owner->_onZoneRemoveObject(object)]; the owner is what [getZoneOwner]
    returned, possibly [NULL]. *)
Variable _onZoneRemoveObject :
  Manager → option ObjId → ObjId → gmap ListId ZoneObjectList.

(** ** Zone list pool *)

Definition updList (l : ListId) (f : ZoneObjectList → ZoneObjectList)
  (s : Manager) : Manager :=
  set_zoneListHeap (<[l := f (getList s l)]> (zoneListHeap s)) s.

Definition _allocZoneList (space : ObjId) (s : Manager) : ListId * Manager :=
  match last (mZoneListPool s) with
  | Some ret =>
      let s := updList ret (λ zl, mkZoneObjectList (Some space) (mObjects zl)) s in
      (ret, set_mZoneListPool (removelast (mZoneListPool s)) s)
  | None =>
      let ret := fresh (dom (zoneListHeap s)) in
      (ret, set_zoneListHeap
              (<[ret := mkZoneObjectList (Some space) []]> (zoneListHeap s)) s)
  end.

Definition _freeZoneList (list : ListId) (s : Manager) : Manager :=
  let s := updList list (λ zl, mkZoneObjectList None (mObjects zl)) s in
  let s := updList list (λ zl, mkZoneObjectList (mManager zl) []) s in
  set_mZoneListPool (mZoneListPool s ++ [list]) s.

(** Modelled from the spec: [getZoneOwner] is an inline function of the
    header; the spec gives each zone object list a back-reference to its
    owning zone space, which is what the lookup returns. *)
Definition getZoneOwner (s : Manager) (zoneId : Z) : option ObjId :=
  l ← zoneListAt s zoneId; mManager (getList s l).

(** ** Dirty tracking *)

Definition notifyObjectChanged (object : ObjId) (s : Manager) : Manager :=
  if mZoneRefDirty (getObj s object) then s
  else
    let s :=
      if bool_decide (Z.land (mTypeMask (getObj s object)) ZoneObjectType ≠ 0)
      then
        if isZoneSpace (getObj s object)
        then set_mDirtyZoneSpaces (mDirtyZoneSpaces s ++ [object]) s
        else s
      else set_mDirtyObjects (mDirtyObjects s ++ [object]) s in
    updObj object (set_mZoneRefDirty true) s.

Definition registerObject (object : ObjId) (s : Manager) : Manager :=
  notifyObjectChanged object s.

(** ** Zone ID allocation and compaction *)

Fixpoint indexOf (object : ObjId) (l : list ObjId) (i : Z) : Z :=
  match l with
  | [] => -1
  | x :: l' => if bool_decide (x = object) then i else indexOf object l' (i + 1)
  end.

Definition _getZoneSpaceIndex (s : Manager) (object : ObjId) : Z :=
  indexOf object (mZoneSpaces s) 0.

(** The walk of [_compactZonesCheck] carries the next free ID and the vector
    under construction next to the manager. *)
Record CompactWalk := mkCompactWalk {
  cw_state : Manager;
  nextZoneId : Z;
  newZoneLists : list (option ListId)
}.

(** One round of the inner loop: zone [n] of a space moving from
    [oldZoneRangeStart] to [newZoneRangeStart].  [mZoneLists] is assigned
    after the walk only: both reads below are of the vector as it was on
    entry, the first at the old ID, the second (the null test and the object
    loop) at the new ID. *)
Definition compactZone (oldZoneRangeStart newZoneRangeStart : Z)
  (w : CompactWalk) (n : Z) : CompactWalk :=
  let s := cw_state w in
  let newZoneId := u32_add newZoneRangeStart n in
  let oldZoneId := u32_add oldZoneRangeStart n in
  let nl := <[Z.to_nat newZoneId := zoneListAt s oldZoneId]> (newZoneLists w) in
  match zoneListAt s newZoneId with
  | None => mkCompactWalk s (nextZoneId w) nl
  | Some l =>
      let tb :=
        foldl (λ tb obj,
                 ZoneTable.replaceListBin (mZoneListHandle (getObj s obj))
                   oldZoneId newZoneId tb)
              (mObjectZoneLists s) (mObjects (getList s l)) in
      mkCompactWalk (set_mObjectZoneLists tb s) (nextZoneId w) nl
  end.

(** One round of the outer loop. *)
Definition compactSpace (w : CompactWalk) (space : ObjId) : CompactWalk :=
  let s := cw_state w in
  let oldZoneRangeStart := mZoneRangeStart (getObj s space) in
  let newZoneRangeStart := nextZoneId w in
  let numZones := mNumZones (getObj s space) in
  let s := updObj space (set_mZoneRangeStart newZoneRangeStart) s in
  let w := mkCompactWalk s (u32_add (nextZoneId w) numZones) (newZoneLists w) in
  foldl (compactZone oldZoneRangeStart newZoneRangeStart) w (seqZ 0 numZones).

Definition compactZones (s : Manager) : Manager :=
  let w0 := mkCompactWalk s 0 (replicate (Z.to_nat (mNumActiveZones s)) None) in
  let w := foldl compactSpace w0 (mZoneSpaces s) in
  set_mZoneLists (newZoneLists w)
    (set_mNumTotalAllocatedZones (nextZoneId w) (cw_state w)).

Definition _compactZonesCheck (s : Manager) : Manager :=
  if bool_decide (mNumActiveZones s > mNumTotalAllocatedZones s / 2) then s
  else compactZones s.

(** [mZoneLists[i] = _allocZoneList(object)] *)
Definition allocZoneListAt (object : ObjId) (s : Manager) (i : Z) : Manager :=
  let '(l, s) := _allocZoneList object s in
  set_mZoneLists (<[Z.to_nat i := Some l]> (mZoneLists s)) s.

(** [registerZones] after the compaction check, in three steps: the
    counters and the range of the object; the zone lists; the zone space
    list, the type mask and the dirty list. *)
Definition assignZoneRange (object : ObjId) (numZones : Z) (s : Manager)
  : Manager :=
  let zoneRangeStart := mNumTotalAllocatedZones s in
  let s := set_mNumTotalAllocatedZones
             (u32_add (mNumTotalAllocatedZones s) numZones) s in
  let s := set_mNumActiveZones (u32_add (mNumActiveZones s) numZones) s in
  let s := updObj object (set_mNumZones numZones) s in
  updObj object (set_mZoneRangeStart zoneRangeStart) s.

Definition allocZoneLists (object : ObjId) (zoneRangeStart numZones : Z)
  (s : Manager) : Manager :=
  let s := set_mZoneLists
             (mZoneLists s ++ replicate (Z.to_nat numZones) None) s in
  foldl (allocZoneListAt object) s
    (seqZ zoneRangeStart (mNumTotalAllocatedZones s - zoneRangeStart)).

Definition enlistZoneSpace (object : ObjId) (s : Manager) : Manager :=
  let s := set_mZoneSpaces (mZoneSpaces s ++ [object]) s in
  let s := updObj object
             (λ ob, set_mTypeMask (Z.lor (mTypeMask ob) ZoneObjectType) ob) s in
  if isRootZone (getObj s object) then s
  else notifyObjectChanged object (updObj object (set_mZoneRefDirty false) s).

Definition registerZones (object : ObjId) (numZones : Z) (s : Manager)
  : Manager :=
  let s := _compactZonesCheck s in
  let zoneRangeStart := mNumTotalAllocatedZones s in
  enlistZoneSpace object
    (allocZoneLists object zoneRangeStart numZones
       (assignZoneRange object numZones s)).

(** The body of the loop of [_clearZoneList]. *)
Definition clearZoneListStep (zoneSpace : option ObjId) (s : Manager)
  (object : ObjId) : Manager :=
  let s := updObj object
             (λ ob, set_mNumCurrZones (u32_sub (mNumCurrZones ob) 1) ob) s in
  let s :=
    if bool_decide (mNumCurrZones (getObj s object) = 0)
    then updObj object (set_mZoneRefDirty true) s
    else s in
  set_zoneListHeap (_onZoneRemoveObject s zoneSpace object) s.

(** The loop runs over the objects the list holds on entry.  A [NULL] slot
    is dereferenced by the source; here it ends the call. *)
Definition _clearZoneList (zoneId : Z) (s : Manager) : Manager :=
  match zoneListAt s zoneId with
  | None => s
  | Some list =>
      let zoneSpace := getZoneOwner s zoneId in
      foldl (clearZoneListStep zoneSpace) s (mObjects (getList s list))
  end.

(** The body of the first loop of [unregisterZones]. *)
Definition destroyZoneList (s : Manager) (j : Z) : Manager :=
  let list := zoneListAt s j in
  let s := _clearZoneList j s in
  match list with
  | Some l => _freeZoneList l s
  | None => s
  end.

(** [unregisterZones] in two steps: the zone lists of the range; the
    counters, the zone space list and the fields of the object. *)
Definition destroyZoneLists (zoneRangeStart numZones : Z) (s : Manager)
  : Manager :=
  foldl destroyZoneList s
    (seqZ zoneRangeStart (u32_add zoneRangeStart numZones - zoneRangeStart)).

(** [mZoneSpaces.erase(-1)] is outside the vector; the assertion at the top
    of [unregisterZones] excludes it, and the list is left as it is here. *)
Definition delistZoneSpace (object : ObjId) (zoneSpaceIndex numZones : Z)
  (s : Manager) : Manager :=
  let s := set_mNumActiveZones (u32_sub (mNumActiveZones s) numZones) s in
  let s :=
    if bool_decide (0 ≤ zoneSpaceIndex)
    then set_mZoneSpaces (delete (Z.to_nat zoneSpaceIndex) (mZoneSpaces s)) s
    else s in
  let s := updObj object
             (λ ob, set_mTypeMask (Z.ldiff (mTypeMask ob) ZoneObjectType) ob)
             s in
  let s := updObj object (set_mZoneRangeStart InvalidZoneId) s in
  let s := updObj object (set_mNumZones 0) s in
  set_mDirtyArea (Box3F_intersect (mDirtyArea s) (mWorldBox (getObj s object))) s.

Definition unregisterZones (object : ObjId) (s : Manager) : Manager :=
  let zoneSpaceIndex := _getZoneSpaceIndex s object in
  let zoneRangeStart := mZoneRangeStart (getObj s object) in
  let numZones := mNumZones (getObj s object) in
  delistZoneSpace object zoneSpaceIndex numZones
    (destroyZoneLists zoneRangeStart numZones s).

(** ** Queries *)

Definition _queryZoneSpaces (area : Box3F) (s : Manager) : Manager :=
  let s := set_mZoneSpacesQueryList [] s in
  set_mZoneSpacesQueryList
    (mZoneSpacesQueryList s ++ findObjectList s area ZoneObjectType) s.

(** The loop of [findZone]: the first zone space of the query list whose
    [getPointZone] is not [InvalidZoneId]. *)
Fixpoint findZoneLoop (s : Manager) (p : Point3F) (query : list ObjId)
  : option (ObjId * Z) :=
  match query with
  | [] => None
  | zoneSpace :: rest =>
      if negb (isZoneSpace (getObj s zoneSpace)) then findZoneLoop s p rest
      else
        let inZone := getPointZone s zoneSpace p in
        if bool_decide (inZone ≠ InvalidZoneId) then Some (zoneSpace, inZone)
        else findZoneLoop s p rest
  end.

(** [owner] and [zone] are reference parameters: they come in with whatever
    the caller left in them ([None] for a null or unset owner) and go out
    as the function leaves them. *)
Definition findZone (p : Point3F) (owner : option ObjId) (zone : Z)
  (s : Manager) : Manager * (option ObjId * Z) :=
  if bool_decide (mNumActiveZones s = 1)
  then (s, (Some (mRootZone s), RootZoneId))
  else
    let s := _queryZoneSpaces (pointQueryBox p) s in
    match findZoneLoop s p (mZoneSpacesQueryList s) with
    | Some (zoneSpace, inZone) => (s, (Some zoneSpace, inZone))
    | None => (s, (Some (mRootZone s), RootZoneId))
    end.

Record FindZonesAcc := mkFindZonesAcc {
  fz_outsideIncluded : bool;
  fz_numTotalZones : Z;
  fz_outZones : list Z
}.

Definition findZonesStep (s : Manager) (area : Box3F) (a : FindZonesAcc)
  (zoneSpace : ObjId) : FindZonesAcc :=
  if negb (isZoneSpace (getObj s zoneSpace)) then a
  else
    let '(zones, overlapsOutside) := getOverlappingZonesBox s zoneSpace area in
    foldl (λ a z,
             mkFindZonesAcc (fz_outsideIncluded a)
               (u32_add (fz_numTotalZones a) 1) (fz_outZones a ++ [z]))
          (mkFindZonesAcc (fz_outsideIncluded a || overlapsOutside)
             (fz_numTotalZones a) (fz_outZones a))
          zones.

(** Returns the manager (the query scratch list is written), the count and
    the output vector. *)
Definition findZones (area : Box3F) (outZones : list Z) (s : Manager)
  : Manager * (Z * list Z) :=
  let s := _queryZoneSpaces area s in
  let a := foldl (findZonesStep s area) (mkFindZonesAcc false 0 outZones)
             (mZoneSpacesQueryList s) in
  if fz_outsideIncluded a || bool_decide (fz_numTotalZones a = 0)
  then (s, (u32_add (fz_numTotalZones a) 1, fz_outZones a ++ [RootZoneId]))
  else (s, (fz_numTotalZones a, fz_outZones a)).

(** The loop of [_isInZoneList] over the objects of a list. *)
Fixpoint isInObjects (object : ObjId) (objs : list ObjId) : bool :=
  match objs with
  | [] => false
  | obj :: rest =>
      if bool_decide (obj = object) then true else isInObjects object rest
  end.

Definition _isInZoneList (s : Manager) (zoneId : Z) (object : ObjId) : bool :=
  match zoneListAt s zoneId with
  | None => false
  | Some list => isInObjects object (mObjects (getList s list))
  end.

(** ** Object zoning *)

(** [zoneList] stands for the array and its length for [numZones]. *)
Definition _setObjectZoneList (object : ObjId) (zoneList : list Z)
  (s : Manager) : Manager :=
  let numZones := Z.of_nat (length zoneList) in
  let handle := mZoneListHandle (getObj s object) in
  let s :=
    if bool_decide (handle = 0) then
      let '(h, tb) := ZoneTable.allocList zoneList (mObjectZoneLists s) in
      updObj object (set_mZoneListHandle h) (set_mObjectZoneLists tb s)
    else if bool_decide (numZones = 0) then
      updObj object (set_mZoneListHandle 0)
        (set_mObjectZoneLists
           (ZoneTable.freeList handle (mObjectZoneLists s)) s)
    else
      set_mObjectZoneLists
        (ZoneTable.reallocList handle zoneList (mObjectZoneLists s)) s in
  updObj object (set_mNumCurrZones numZones) s.

Record TempZoneRecord := mkTempZoneRecord {
  tz_space : ObjId;
  tz_numZones : Z;
  tz_startZone : Z
}.

(** The locals of [_zoneInsert]; [globalZones] is the written prefix of the
    array, [numGlobalZones] entries long.  [mTempObjectZones] is a member
    used as scratch space: it is cleared on entry and read in this call
    only. *)
Record ZoneInsertAcc := mkZoneInsertAcc {
  numGlobalZones : Z;
  remainingZones : Z;
  globalZones : list Z;
  outsideIncluded : bool;
  mTempObjectZones : list TempZoneRecord
}.

Definition zoneInsertStep (s : Manager) (object : ObjId) (a : ZoneInsertAcc)
  (zoneSpace : ObjId) : ZoneInsertAcc :=
  if negb (isZoneSpace (getObj s zoneSpace)) then a
  else if bool_decide (zoneSpace = object) then a
  else
    let '(zones, overlapsOutside) := getOverlappingZones s zoneSpace object in
    let outsideIncluded' := outsideIncluded a && overlapsOutside in
    let numZones := Z.min (remainingZones a) (Z.of_nat (length zones)) in
    if bool_decide (numZones > 0) then
      let zoneRecord := mkTempZoneRecord zoneSpace numZones (numGlobalZones a) in
      mkZoneInsertAcc
        (u32_add (numGlobalZones a) numZones)
        (u32_sub (remainingZones a) numZones)
        (globalZones a ++ take (Z.to_nat numZones) zones)
        outsideIncluded'
        (mTempObjectZones a ++ [zoneRecord])
    else
      mkZoneInsertAcc (numGlobalZones a) (remainingZones a) (globalZones a)
        outsideIncluded' (mTempObjectZones a).

Definition isOutsideOnly (s : Manager) (object : ObjId) : bool :=
  bool_decide (mNumActiveZones s = 1)
  || mGlobalBounds (getObj s object)
  || bool_decide (Z.land (mTypeMask (getObj s object)) OUTDOOR_OBJECT_TYPEMASK ≠ 0).

(** The body of the last loop of [_zoneInsert]; [zones] is the array
    [globalZones]. *)
Definition notifyZoneAdd (object : ObjId) (zones : list Z) (s : Manager)
  (record : TempZoneRecord) : Manager :=
  if bool_decide (tz_numZones record > 0) then
    set_zoneListHeap
      (_onZoneAddObject s (tz_space record) object
         (take (Z.to_nat (tz_numZones record))
            (drop (Z.to_nat (tz_startZone record)) zones)))
      s
  else s.

(** The root zone record appended when the outside zone is included. *)
Definition addOutsideZone (s : Manager) (a : ZoneInsertAcc) : ZoneInsertAcc :=
  let zoneRecord := mkTempZoneRecord (mRootZone s) 1 (numGlobalZones a) in
  mkZoneInsertAcc (u32_add (numGlobalZones a) 1) (remainingZones a)
    (globalZones a ++ [RootZoneId]) (outsideIncluded a)
    (mTempObjectZones a ++ [zoneRecord]).

(** The first half of [_zoneInsert]: the locals once the zone spaces of the
    query list were asked and the outside zone was considered. *)
Definition collectObjectZones (outsideOnly : bool) (object : ObjId)
  (s : Manager) : ZoneInsertAcc :=
  let a0 := mkZoneInsertAcc 0 MaxObjectZones [] true [] in
  let a :=
    if outsideOnly then a0
    else foldl (zoneInsertStep s object) a0 (mZoneSpacesQueryList s) in
  if outsideOnly || (outsideIncluded a && bool_decide (remainingZones a > 0))
  then addOutsideZone s a
  else a.

(** The second half: one write to the table, then the notifications. *)
Definition commitObjectZones (object : ObjId) (a : ZoneInsertAcc)
  (s : Manager) : Manager :=
  let s :=
    if bool_decide (numGlobalZones a > 0)
    then _setObjectZoneList object (globalZones a) s
    else s in
  let s := foldl (notifyZoneAdd object (globalZones a)) s (mTempObjectZones a) in
  updObj object (set_mZoneRefDirty false) s.

Definition _zoneInsert (object : ObjId) (queryListInitialized : bool)
  (s : Manager) : Manager :=
  let outsideOnly := isOutsideOnly s object in
  let s :=
    if outsideOnly then s
    else if queryListInitialized then s
    else _queryZoneSpaces (mWorldBox (getObj s object)) s in
  commitObjectZones object (collectObjectZones outsideOnly object s) s.

(** The body of the loop of [_zoneRemove]. *)
Definition notifyZoneRemove (obj : ObjId) (s : Manager) (zone : Z) : Manager :=
  set_zoneListHeap (_onZoneRemoveObject s (getZoneOwner s zone) obj) s.

Definition _zoneRemove (obj : ObjId) (freeList : bool) (s : Manager)
  : Manager :=
  if bool_decide (mZoneListHandle (getObj s obj) = 0) then s
  else
    let zones :=
      ZoneTable.getValues (mZoneListHandle (getObj s obj)) (mObjectZoneLists s) in
    let s := foldl (notifyZoneRemove obj) s zones in
    let s :=
      set_mObjectZoneLists
        (ZoneTable.freeList (mZoneListHandle (getObj s obj))
           (mObjectZoneLists s)) s in
    let s := updObj obj (set_mZoneListHandle 0) s in
    let s := updObj obj (set_mZoneRefDirty false) s in
    updObj obj (set_mNumCurrZones 0) s.

(** The body of [_zoneRealloc] ends after its first statement. *)
Definition _zoneRealloc (object : ObjId) (queryListInitialized : bool)
  (s : Manager) : Manager :=
  if bool_decide (mZoneListHandle (getObj s object) = 0)
  then _zoneInsert object queryListInitialized s
  else s.

Definition _rezoneObject (object : ObjId) (s : Manager) : Manager :=
  if bool_decide (mNumCurrZones (getObj s object) = 0)
  then _zoneInsert object false s
  else if isOutsideOnly s object
  then updObj object (set_mZoneRefDirty false) s
  else
    let s := _queryZoneSpaces (mWorldBox (getObj s object)) s in
    let zones :=
      ZoneTable.getValues (mZoneListHandle (getObj s object))
        (mObjectZoneLists s) in
    if bool_decide (mZoneSpacesQueryList s = [])
       && bool_decide (mNumCurrZones (getObj s object) = 1)
       && bool_decide (head zones = Some RootZoneId)
    then updObj object (set_mZoneRefDirty false) s
    else _zoneInsert object true (_zoneRemove object false s).

Definition rezoneObjectsStep (s : Manager) (object : ObjId) : Manager :=
  if bool_decide (object ≠ mRootZone s) then _rezoneObject object s else s.

Definition _rezoneObjects (area : Box3F) (s : Manager) : Manager :=
  let sObjects := findObjectList s area 4294967295 in
  foldl rezoneObjectsStep s sObjects.

(** ** The update pass *)

(** One round of the first loop of [updateZoningState], after the zone
    space was taken off the queue. *)
Definition tearDownZoneSpace (zoneSpace : ObjId) (s : Manager) : Manager :=
  let s := _zoneRemove zoneSpace true s in
  let numZones := mNumZones (getObj s zoneSpace) in
  let s :=
    foldl (λ s n,
             _clearZoneList
               (u32_add (mZoneRangeStart (getObj s zoneSpace)) n) s)
          s (seqZ 0 numZones) in
  set_mDirtyArea
    (Box3F_intersect (mDirtyArea s) (mWorldBox (getObj s zoneSpace))) s.

(** First loop of [updateZoningState]; it runs while the queue is not
    empty, [fuel] bounds the number of rounds. *)
Fixpoint drainDirtyZoneSpaces (fuel : nat) (s : Manager) : Manager :=
  match fuel with
  | O => s
  | S fuel' =>
      match last (mDirtyZoneSpaces s) with
      | None => s
      | Some zoneSpace =>
          let s := set_mDirtyZoneSpaces (removelast (mDirtyZoneSpaces s)) s in
          drainDirtyZoneSpaces fuel' (tearDownZoneSpace zoneSpace s)
      end
  end.

(** Last loop of [updateZoningState]. *)
Fixpoint drainDirtyObjects (fuel : nat) (s : Manager) : Manager :=
  match fuel with
  | O => s
  | S fuel' =>
      match last (mDirtyObjects s) with
      | None => s
      | Some object =>
          let s := set_mDirtyObjects (removelast (mDirtyObjects s)) s in
          let s :=
            if mZoneRefDirty (getObj s object) then _rezoneObject object s
            else s in
          drainDirtyObjects fuel' s
      end
  end.

(** No round of either loop adds to the queue it drains, so the length of
    the queue on entry is fuel enough ([drainDirtyZoneSpaces_empty] and
    [drainDirtyObjects_empty] below). *)
Definition updateZoningState (s : Manager) : Manager :=
  if bool_decide (mDirtyObjects s = [])
     && bool_decide (mDirtyZoneSpaces s = [])
     && bool_decide (mDirtyArea s = Box3F_Invalid)
  then s
  else
    let s := drainDirtyZoneSpaces (length (mDirtyZoneSpaces s)) s in
    let s :=
      if bool_decide (mDirtyArea s ≠ Box3F_Invalid)
      then set_mDirtyArea Box3F_Invalid (_rezoneObjects (mDirtyArea s) s)
      else s in
    drainDirtyObjects (length (mDirtyObjects s)) s.

(** ** Objects leaving the scene, and the update on demand *)

(** [Vector::remove(x)] of the container header: the first element equal to
    [x] is erased, if there is one. *)
Fixpoint Vector_remove (x : ObjId) (v : list ObjId) : list ObjId :=
  match v with
  | [] => []
  | y :: v' => if bool_decide (y = x) then v' else y :: Vector_remove x v'
  end.

(** [_zoneRemove( object )] is called with the default of its second
    parameter, which the function does not read. *)
Definition unregisterObject (object : ObjId) (s : Manager) : Manager :=
  let s := set_mDirtyObjects (Vector_remove object (mDirtyObjects s)) s in
  let s := _zoneRemove object true s in
  if bool_decide (Z.land (mTypeMask (getObj s object)) ZoneObjectType ≠ 0)
     && isZoneSpace (getObj s object)
  then
    let s := unregisterZones object s in
    set_mDirtyZoneSpaces (Vector_remove object (mDirtyZoneSpaces s)) s
  else s.

Definition updateObject (object : ObjId) (s : Manager) : Manager :=
  if bool_decide (mDirtyZoneSpaces s = [])
     && negb (mZoneRefDirty (getObj s object))
  then s
  else updateZoningState s.

(** ** The verification pass

    [verifyState] as a test: [true] when every assertion of the source
    holds.  Left out are the assertion on [isValidZoneId] (a function of
    the header), the checks of the memory manager and the loop over the
    connections of a zone space, which are private to the zone spaces. *)

(** The assertions on one zone of a zone space. *)
Definition verifyZone (s : Manager) (space : ObjId) (zoneId : Z) : bool :=
  match zoneListAt s zoneId with
  | None => false
  | Some l =>
      bool_decide (mManager (getList s l) = Some space)
      && forallb
           (λ object,
              ZoneTable.containsBinItem (mZoneListHandle (getObj s object))
                zoneId (mObjectZoneLists s))
           (mObjects (getList s l))
  end.

(** The body of the loop over the zone spaces, for the entry [space] at
    index [i]. *)
Definition verifyZoneSpace (s : Manager) (i : nat) (space : ObjId) : bool :=
  let zoneRangeStart := mZoneRangeStart (getObj s space) in
  let numZones := mNumZones (getObj s space) in
  bool_decide (Z.land (mTypeMask (getObj s space)) ZoneObjectType ≠ 0)
  && forallb (λ n, verifyZone s space (u32_add zoneRangeStart n))
       (seqZ 0 numZones)
  && forallb
       (λ p : nat * ObjId,
          bool_decide (p.1 = i)
          || bool_decide
               (u32_add zoneRangeStart numZones
                ≤ mZoneRangeStart (getObj s p.2)
                ∨ u32_add (mZoneRangeStart (getObj s p.2))
                    (mNumZones (getObj s p.2)) ≤ zoneRangeStart))
       (imap pair (mZoneSpaces s)).

Definition verifyState (s : Manager) : bool :=
  bool_decide (Z.of_nat (length (mZoneSpaces s)) ≤ mNumActiveZones s)
  && bool_decide (mNumActiveZones s ≤ mNumTotalAllocatedZones s)
  && bool_decide (mZoneRangeStart (getObj s (mRootZone s)) = 0)
  && bool_decide (mNumZones (getObj s (mRootZone s)) = 1)
  && forallb (λ p : nat * ObjId, verifyZoneSpace s p.1 p.2)
       (imap pair (mZoneSpaces s)).

(** * Vocabulary of the statements *)

(** ** Frames

    Inserting, removing and rezoning objects write the handle, the zone
    count and the dirty flag of objects, the table, the zone object lists
    and the query scratch list.  [obj_static] relates an object to itself
    after such writes, [zoning_frame] a manager to itself. *)

Definition obj_static (a b : SceneObject) : Prop :=
  mTypeMask b = mTypeMask a
  ∧ mGlobalBounds b = mGlobalBounds a
  ∧ mWorldBox b = mWorldBox a
  ∧ isZoneSpace b = isZoneSpace a
  ∧ mZoneRangeStart b = mZoneRangeStart a
  ∧ mNumZones b = mNumZones a.

Definition zoning_frame (s s' : Manager) : Prop :=
  mRootZone s' = mRootZone s
  ∧ mZoneSpaces s' = mZoneSpaces s
  ∧ mNumTotalAllocatedZones s' = mNumTotalAllocatedZones s
  ∧ mNumActiveZones s' = mNumActiveZones s
  ∧ mZoneLists s' = mZoneLists s
  ∧ mZoneListPool s' = mZoneListPool s
  ∧ mDirtyObjects s' = mDirtyObjects s
  ∧ mDirtyZoneSpaces s' = mDirtyZoneSpaces s
  ∧ mDirtyArea s' = mDirtyArea s
  ∧ ∀ o, obj_static (getObj s o) (getObj s' o).

(** ** Query reports *)

(** The zone spaces of a query list that [findZones] asks, and what they
    answer. *)
Definition areaReports (s : Manager) (area : Box3F) (query : list ObjId)
  : list (list Z * bool) :=
  (λ o, getOverlappingZonesBox s o area)
    <$> filter (λ o, isZoneSpace (getObj s o) = true) query.

(** The zone spaces of a query list that [_zoneInsert] asks about an
    object, and what they answer. *)
Definition objectReports (s : Manager) (object : ObjId) (query : list ObjId)
  : list (list Z * bool) :=
  (λ o, getOverlappingZones s o object)
    <$> filter (λ o, isZoneSpace (getObj s o) = true ∧ o ≠ object) query.

(** The locals of [_zoneInsert] after the zone IDs [pre] were offered to
    it. *)
Definition collected (pre : list Z) (oi : bool) (a : ZoneInsertAcc) : Prop :=
  numGlobalZones a
  = Z.of_nat (length (take (Z.to_nat MaxObjectZones) pre))
  ∧ remainingZones a = MaxObjectZones - numGlobalZones a
  ∧ globalZones a = take (Z.to_nat MaxObjectZones) pre
  ∧ outsideIncluded a = oi.

(** The zone list [_zoneInsert] commits for an object that is not
    outside-only: the reported IDs up to the capacity, then the root zone
    ID if every report had the outside flag and capacity is left. *)
Definition insertedZones (reports : list (list Z * bool)) : list Z :=
  let reported := concat (fst <$> reports) in
  take (Z.to_nat MaxObjectZones) reported
  ++ (if forallb snd reports
         && bool_decide (Z.of_nat (length reported) < MaxObjectZones)
      then [RootZoneId] else []).

(** ** Zone ranges

    Ranges are pairs (start, number of zones).  A list of ranges is a
    [chain] from [lo] to [hi] when each starts at or after the end of the one
    before it, the first not before [lo], and the last ends at or before
    [hi]; it is [tight] when no ID is skipped. *)

Fixpoint chain (lo : Z) (rs : list (Z * Z)) (hi : Z) : Prop :=
  match rs with
  | [] => lo ≤ hi
  | r :: rs' => lo ≤ r.1 ∧ 0 ≤ r.2 ∧ chain (r.1 + r.2) rs' hi
  end.

Fixpoint tight (lo : Z) (rs : list (Z * Z)) (hi : Z) : Prop :=
  match rs with
  | [] => lo = hi
  | r :: rs' => r.1 = lo ∧ 0 ≤ r.2 ∧ tight (r.1 + r.2) rs' hi
  end.

Definition sumRanges (rs : list (Z * Z)) : Z := foldr (λ r acc, r.2 + acc) 0 rs.

Definition zoneRange (s : Manager) (o : ObjId) : Z * Z :=
  (mZoneRangeStart (getObj s o), mNumZones (getObj s o)).

(** The ranges of the registered zone spaces, in list order. *)
Definition ranges (s : Manager) : list (Z * Z) :=
  zoneRange s <$> mZoneSpaces s.

(** What only registration, unregistration and compaction write. *)
Definition ranges_frame (s s' : Manager) : Prop :=
  mRootZone s' = mRootZone s
  ∧ mZoneSpaces s' = mZoneSpaces s
  ∧ mNumTotalAllocatedZones s' = mNumTotalAllocatedZones s
  ∧ mNumActiveZones s' = mNumActiveZones s
  ∧ ∀ o, zoneRange s' o = zoneRange s o.

(** The allocation invariant: the registered zone spaces are distinct,
    their ranges form a chain from 0 to the allocated count in list order,
    the allocated count is a [U32], and the active count is the number of
    zones of the registered zone spaces. *)
Definition alloc_inv (s : Manager) : Prop :=
  NoDup (mZoneSpaces s)
  ∧ chain 0 (ranges s) (mNumTotalAllocatedZones s)
  ∧ mNumTotalAllocatedZones s < U32_modulus
  ∧ mNumActiveZones s = sumRanges (ranges s).

(** ** Sequences of allocator operations *)

Inductive ZoneOp :=
  | OpRegisterZones (object : ObjId) (numZones : Z)
  | OpUnregisterZones (object : ObjId)
  | OpCompactZonesCheck.

Definition applyOp (op : ZoneOp) (s : Manager) : Manager :=
  match op with
  | OpRegisterZones object numZones => registerZones object numZones s
  | OpUnregisterZones object => unregisterZones object s
  | OpCompactZonesCheck => _compactZonesCheck s
  end.

(** The first assertion of [registerZones] and of [unregisterZones], and
    the zone count of a registration as a [U32] that does not carry the
    allocated count past [2^32]. *)
Definition opAllowed (op : ZoneOp) (s : Manager) : bool :=
  match op with
  | OpRegisterZones object numZones =>
      bool_decide (_getZoneSpaceIndex s object = -1)
      && bool_decide (0 ≤ numZones)
      && bool_decide (mNumTotalAllocatedZones s + numZones < U32_modulus)
  | OpUnregisterZones object =>
      bool_decide (_getZoneSpaceIndex s object ≠ -1)
  | OpCompactZonesCheck => true
  end.

Fixpoint runOps (ops : list ZoneOp) (s : Manager) : Manager :=
  match ops with
  | [] => s
  | op :: ops' => runOps ops' (applyOp op s)
  end.

Fixpoint opsAllowed (ops : list ZoneOp) (s : Manager) : bool :=
  match ops with
  | [] => true
  | op :: ops' => opAllowed op s && opsAllowed ops' (applyOp op s)
  end.

Definition isUnregisterOf (root : ObjId) (op : ZoneOp) : bool :=
  match op with
  | OpUnregisterZones object => bool_decide (object = root)
  | _ => false
  end.

(** The root zone heads the zone space list with the range [[0, 1)]. *)
Definition root_first (root : ObjId) (s : Manager) : Prop :=
  alloc_inv s
  ∧ head (mZoneSpaces s) = Some root
  ∧ zoneRange s root = (0, 1).

(** ** The dirty queues at rest between calls

    No queue holds an object twice, and a queued object carries the dirty
    flag. *)
Definition dirty_inv (s : Manager) : Prop :=
  NoDup (mDirtyObjects s)
  ∧ NoDup (mDirtyZoneSpaces s)
  ∧ ∀ o, o ∈ mDirtyObjects s ∨ o ∈ mDirtyZoneSpaces s →
         mZoneRefDirty (getObj s o) = true.

(** Every object but [object] is as it was. *)
Definition others_kept (object : ObjId) (s s' : Manager) : Prop :=
  ∀ o, o ≠ object → getObj s' o = getObj s o.

(** What the compaction leaves alone besides the objects: the zone object
    lists, the pool, the dirty queues and the dirty area. *)
Definition pool_frame (s s' : Manager) : Prop :=
  zoneListHeap s' = zoneListHeap s
  ∧ mZoneListPool s' = mZoneListPool s
  ∧ mDirtyObjects s' = mDirtyObjects s
  ∧ mDirtyZoneSpaces s' = mDirtyZoneSpaces s
  ∧ mDirtyArea s' = mDirtyArea s.

(** ** Calls of the public functions

    One constructor for each function other code calls on the manager.
    [findZone] and [findZones] are here for the scratch list they write. *)

Inductive ApiCall :=
  | CallRegisterZones (object : ObjId) (numZones : Z)
  | CallUnregisterZones (object : ObjId)
  | CallRegisterObject (object : ObjId)
  | CallUnregisterObject (object : ObjId)
  | CallUpdateObject (object : ObjId)
  | CallNotifyObjectChanged (object : ObjId)
  | CallUpdateZoningState
  | CallFindZone (p : Point3F)
  | CallFindZones (area : Box3F).

Definition applyCall (c : ApiCall) (s : Manager) : Manager :=
  match c with
  | CallRegisterZones object numZones => registerZones object numZones s
  | CallUnregisterZones object => unregisterZones object s
  | CallRegisterObject object => registerObject object s
  | CallUnregisterObject object => unregisterObject object s
  | CallUpdateObject object => updateObject object s
  | CallNotifyObjectChanged object => notifyObjectChanged object s
  | CallUpdateZoningState => updateZoningState s
  | CallFindZone p => (findZone p None 0 s).1
  | CallFindZones area => (findZones area [] s).1
  end.

(** The assertions on registration: those of [registerZones] and
    [unregisterZones] as in [opAllowed]; [unregisterObject] reaches
    [unregisterZones] for an object that passes its test, and that object
    is then to be registered. *)
Definition callAllowed (c : ApiCall) (s : Manager) : bool :=
  match c with
  | CallRegisterZones object numZones =>
      opAllowed (OpRegisterZones object numZones) s
  | CallUnregisterZones object => opAllowed (OpUnregisterZones object) s
  | CallUnregisterObject object =>
      negb (bool_decide
              (Z.land (mTypeMask (getObj s object)) ZoneObjectType ≠ 0)
            && isZoneSpace (getObj s object))
      || bool_decide (_getZoneSpaceIndex s object ≠ -1)
  | _ => true
  end.

Fixpoint runCalls (calls : list ApiCall) (s : Manager) : Manager :=
  match calls with
  | [] => s
  | c :: calls' => runCalls calls' (applyCall c s)
  end.

Fixpoint callsAllowed (calls : list ApiCall) (s : Manager) : bool :=
  match calls with
  | [] => true
  | c :: calls' => callAllowed c s && callsAllowed calls' (applyCall c s)
  end.

(** What only registration, unregistration and compaction write, the zone
    list vector and the pool included. *)
Definition lists_frame (s s' : Manager) : Prop :=
  ranges_frame s s'
  ∧ mZoneLists s' = mZoneLists s
  ∧ mZoneListPool s' = mZoneListPool s.

(** The vector has one slot for each allocated zone ID. *)
Definition vector_inv (s : Manager) : Prop :=
  length (mZoneLists s) = Z.to_nat (mNumTotalAllocatedZones s).

(** ** Zone object lists and their owners *)

(** The vector slot of zone [k] of a zone space. *)
Definition zoneSlot (s : Manager) (o : ObjId) (k : Z) : option ListId :=
  zoneListAt s (mZoneRangeStart (getObj s o) + k).

(** A heap of zone object lists that gives every list the manager it has
    in [s]; the notifications a zone space receives are to return such a
    heap: they link and unlink objects and leave the back-references to
    the manager. *)
Definition keepsOwners (s : Manager) (h : gmap ListId ZoneObjectList)
  : Prop :=
  ∀ l, mManager (default emptyZoneObjectList (h !! l)) = mManager (getList s l).

Definition owners_kept (s s' : Manager) : Prop :=
  ∀ l, mManager (getList s' l) = mManager (getList s l).

(** The pool holds no list twice and only lists without a manager; every
    zone of a registered zone space has a list, whose manager is the zone
    space, and two zones of a zone space do not share a list. *)
Definition owners_inv (s : Manager) : Prop :=
  NoDup (mZoneListPool s)
  ∧ (∀ l, l ∈ mZoneListPool s → mManager (getList s l) = None)
  ∧ (∀ o k, o ∈ mZoneSpaces s → 0 ≤ k < mNumZones (getObj s o) →
       ∃ l, zoneSlot s o k = Some l ∧ mManager (getList s l) = Some o)
  ∧ (∀ o k k', o ∈ mZoneSpaces s →
       0 ≤ k < mNumZones (getObj s o) → 0 ≤ k' < mNumZones (getObj s o) →
       zoneSlot s o k = zoneSlot s o k' → k = k').

(** * Properties *)

(** ** Stores *)

Lemma getObj_updObj s o f o' :
  getObj (updObj o f s) o' = if decide (o = o') then f (getObj s o) else getObj s o'.
Proof.
  unfold getObj, updObj; simpl. rewrite lookup_insert.
  case_decide; subst; done.
Qed.

Lemma getObj_updObj_eq s o f : getObj (updObj o f s) o = f (getObj s o).
Proof. rewrite getObj_updObj. by rewrite decide_True. Qed.

Lemma getObj_updObj_ne s o f o' :
  o ≠ o' → getObj (updObj o f s) o' = getObj s o'.
Proof. intros. rewrite getObj_updObj. by rewrite decide_False. Qed.

Lemma foldl_rel {A} (R : relation Manager) `{!Reflexive R} `{!Transitive R}
  (f : Manager → A → Manager) (l : list A) (s : Manager) :
  (∀ t x, R t (f t x)) → R s (foldl f s l).
Proof.
  intros Hf. revert s. induction l as [|x l IH]; intros s; simpl.
  - reflexivity.
  - etrans; [apply Hf | apply IH].
Qed.

(** ** What zoning leaves alone *)

#[local] Instance zoning_frame_refl : Reflexive zoning_frame.
Proof. by intros s. Qed.

#[local] Instance zoning_frame_trans : Transitive zoning_frame.
Proof.
  intros a b c (?&?&?&?&?&?&?&?&?&Hab) (?&?&?&?&?&?&?&?&?&Hbc).
  repeat split; try congruence;
    destruct (Hab o) as (?&?&?&?&?&?), (Hbc o) as (?&?&?&?&?&?); congruence.
Qed.

Lemma zf_set_zoneListHeap h s : zoning_frame s (set_zoneListHeap h s).
Proof. done. Qed.

Lemma zf_set_mObjectZoneLists tb s : zoning_frame s (set_mObjectZoneLists tb s).
Proof. done. Qed.

Lemma zf_set_mZoneSpacesQueryList q s :
  zoning_frame s (set_mZoneSpacesQueryList q s).
Proof. done. Qed.

Lemma zf_updObj o f s :
  (∀ ob, obj_static ob (f ob)) → zoning_frame s (updObj o f s).
Proof.
  intros Hf. repeat split; try done;
    rewrite getObj_updObj; case_decide; subst; try done; apply Hf.
Qed.

Lemma obj_static_set_mZoneListHandle v ob :
  obj_static ob (set_mZoneListHandle v ob).
Proof. done. Qed.

Lemma obj_static_set_mNumCurrZones v ob :
  obj_static ob (set_mNumCurrZones v ob).
Proof. done. Qed.

Lemma obj_static_set_mZoneRefDirty v ob :
  obj_static ob (set_mZoneRefDirty v ob).
Proof. done. Qed.

Lemma zf_foldl {A} (f : Manager → A → Manager) (l : list A) (s : Manager) :
  (∀ t x, zoning_frame t (f t x)) → zoning_frame s (foldl f s l).
Proof. apply foldl_rel; apply _. Qed.

Create HintDb zf discriminated.

#[local] Hint Resolve zf_set_zoneListHeap zf_set_mObjectZoneLists
  zf_set_mZoneSpacesQueryList zf_updObj obj_static_set_mZoneListHandle
  obj_static_set_mNumCurrZones obj_static_set_mZoneRefDirty : zf.

(** Peels the outermost write off the right-hand state until the left-hand
    state is reached. *)
Ltac zf :=
  lazymatch goal with
  | |- zoning_frame ?s ?s => reflexivity
  | |- zoning_frame _ (if ?b then _ else _) => destruct b; zf
  | |- zoning_frame _ (match ?x with _ => _ end) => destruct x; zf
  | |- zoning_frame _ (foldl _ _ _) =>
      etrans; [| apply zf_foldl; intros ? ?; zf]; zf
  | |- zoning_frame _ _ =>
      first [ solve [auto with zf]
            | etrans; [| solve [auto with zf]]; zf ]
  end.

Lemma zf_clearZoneListStep zoneSpace s object :
  zoning_frame s (clearZoneListStep zoneSpace s object).
Proof. unfold clearZoneListStep. cbv zeta. zf. Qed.

#[local] Hint Resolve zf_clearZoneListStep : zf.

Lemma zf_clearZoneList zoneId s : zoning_frame s (_clearZoneList zoneId s).
Proof. unfold _clearZoneList. cbv zeta. zf. Qed.

#[local] Hint Resolve zf_clearZoneList : zf.

Lemma zf_queryZoneSpaces area s : zoning_frame s (_queryZoneSpaces area s).
Proof. done. Qed.

#[local] Hint Resolve zf_queryZoneSpaces : zf.

Lemma zf_setObjectZoneList object zoneList s :
  zoning_frame s (_setObjectZoneList object zoneList s).
Proof.
  unfold _setObjectZoneList. cbv zeta.
  destruct (ZoneTable.allocList _ _). zf.
Qed.

#[local] Hint Resolve zf_setObjectZoneList : zf.

Lemma zf_notifyZoneAdd object zones s record :
  zoning_frame s (notifyZoneAdd object zones s record).
Proof. unfold notifyZoneAdd. zf. Qed.

Lemma zf_notifyZoneRemove obj s zone :
  zoning_frame s (notifyZoneRemove obj s zone).
Proof. done. Qed.

#[local] Hint Resolve zf_notifyZoneAdd zf_notifyZoneRemove : zf.

Lemma zf_commitObjectZones object a s :
  zoning_frame s (commitObjectZones object a s).
Proof. unfold commitObjectZones. cbv zeta. zf. Qed.

#[local] Hint Resolve zf_commitObjectZones : zf.

Lemma zf_zoneInsert object q s : zoning_frame s (_zoneInsert object q s).
Proof. unfold _zoneInsert. cbv zeta. zf. Qed.

Lemma zf_zoneRemove obj fl s : zoning_frame s (_zoneRemove obj fl s).
Proof. unfold _zoneRemove. cbv zeta. zf. Qed.

#[local] Hint Resolve zf_zoneInsert zf_zoneRemove : zf.

Lemma zf_rezoneObject object s : zoning_frame s (_rezoneObject object s).
Proof. unfold _rezoneObject. cbv zeta. zf. Qed.

#[local] Hint Resolve zf_rezoneObject : zf.

Lemma zf_rezoneObjectsStep s object :
  zoning_frame s (rezoneObjectsStep s object).
Proof. unfold rezoneObjectsStep. zf. Qed.

#[local] Hint Resolve zf_rezoneObjectsStep : zf.

Lemma zf_rezoneObjects area s : zoning_frame s (_rezoneObjects area s).
Proof. unfold _rezoneObjects. cbv zeta. zf. Qed.

#[local] Hint Resolve zf_rezoneObjects : zf.

(** ** The update pass drains both queues *)

Lemma zf_tearDownZoneSpace zoneSpace s :
  ∃ t, zoning_frame s t
       ∧ tearDownZoneSpace zoneSpace s
         = set_mDirtyArea
             (Box3F_intersect (mDirtyArea t) (mWorldBox (getObj t zoneSpace))) t.
Proof.
  unfold tearDownZoneSpace. cbv zeta. eexists. split; [|reflexivity]. zf.
Qed.

Lemma drainDirtyZoneSpaces_empty fuel s :
  (length (mDirtyZoneSpaces s) ≤ fuel)%nat →
  mDirtyZoneSpaces (drainDirtyZoneSpaces fuel s) = []
  ∧ mDirtyObjects (drainDirtyZoneSpaces fuel s) = mDirtyObjects s.
Proof.
  revert s. induction fuel as [|fuel IH]; intros s Hlen; simpl.
  - split; [|done]. destruct (mDirtyZoneSpaces s); [done | simpl in Hlen; lia].
  - destruct (last (mDirtyZoneSpaces s)) as [zoneSpace|] eqn:Hlast.
    + apply last_Some in Hlast as [q Hq].
      destruct (zf_tearDownZoneSpace zoneSpace
                  (set_mDirtyZoneSpaces (removelast (mDirtyZoneSpaces s)) s))
        as (t & (_&_&_&_&_&_&Hobjs&Hspaces&_) & ->).
      simpl in Hobjs, Hspaces. rewrite Hq, removelast_last in Hspaces.
      rewrite Hq, length_app in Hlen. simpl in Hlen.
      destruct (IH (set_mDirtyArea
                      (Box3F_intersect (mDirtyArea t)
                         (mWorldBox (getObj t zoneSpace))) t)) as [IH1 IH2].
      { simpl. rewrite Hspaces. lia. }
      split; [exact IH1|]. rewrite IH2. exact Hobjs.
    + split; [|done]. by apply last_None.
Qed.

Lemma drainDirtyObjects_empty fuel s :
  (length (mDirtyObjects s) ≤ fuel)%nat →
  mDirtyObjects (drainDirtyObjects fuel s) = []
  ∧ mDirtyZoneSpaces (drainDirtyObjects fuel s) = mDirtyZoneSpaces s
  ∧ mDirtyArea (drainDirtyObjects fuel s) = mDirtyArea s.
Proof.
  revert s. induction fuel as [|fuel IH]; intros s Hlen; simpl.
  - split; [|done]. destruct (mDirtyObjects s); [done | simpl in Hlen; lia].
  - destruct (last (mDirtyObjects s)) as [object|] eqn:Hlast.
    + apply last_Some in Hlast as [q Hq].
      set (s1 := set_mDirtyObjects (removelast (mDirtyObjects s)) s).
      set (s2 := if mZoneRefDirty (getObj s1 object)
                 then _rezoneObject object s1 else s1).
      assert (zoning_frame s1 s2) as (_&_&_&_&_&_&Hobjs&Hspaces&Harea&_).
      { subst s2. zf. }
      subst s1. simpl in Hobjs, Hspaces, Harea.
      rewrite Hq, removelast_last in Hobjs.
      rewrite Hq, length_app in Hlen. simpl in Hlen.
      destruct (IH s2) as (IH1 & IH2 & IH3).
      { rewrite Hobjs. lia. }
      split; [exact IH1|]. by rewrite IH2, IH3.
    + split; [|done]. by apply last_None.
Qed.

(** The fuel of the two loops does not show in the result: with more of it
    they return what they return with the length of the queue. *)
Lemma drainDirtyZoneSpaces_fuel fuel s :
  (length (mDirtyZoneSpaces s) ≤ fuel)%nat →
  drainDirtyZoneSpaces fuel s
  = drainDirtyZoneSpaces (length (mDirtyZoneSpaces s)) s.
Proof.
  revert s. induction fuel as [|fuel IH]; intros s Hlen.
  { destruct (mDirtyZoneSpaces s); [done | simpl in Hlen; lia]. }
  destruct (last (mDirtyZoneSpaces s)) as [zoneSpace|] eqn:Hlast.
  - pose proof Hlast as [q Hq]%last_Some.
    assert (length (mDirtyZoneSpaces s) = S (length q)) as Hl
      by (rewrite Hq, length_app; simpl; lia).
    rewrite Hl in Hlen |- *. simpl. rewrite Hlast.
    set (s1 := tearDownZoneSpace zoneSpace _).
    assert (mDirtyZoneSpaces s1 = q) as Hs1.
    { subst s1.
      destruct (zf_tearDownZoneSpace zoneSpace
                  (set_mDirtyZoneSpaces (removelast (mDirtyZoneSpaces s)) s))
        as (t & (_&_&_&_&_&_&_&Hspaces&_) & ->).
      simpl in Hspaces |- *. by rewrite Hspaces, Hq, removelast_last. }
    rewrite IH by (rewrite Hs1; lia). by rewrite Hs1.
  - apply last_None in Hlast. simpl. rewrite Hlast. done.
Qed.

Lemma drainDirtyObjects_fuel fuel s :
  (length (mDirtyObjects s) ≤ fuel)%nat →
  drainDirtyObjects fuel s = drainDirtyObjects (length (mDirtyObjects s)) s.
Proof.
  revert s. induction fuel as [|fuel IH]; intros s Hlen.
  { destruct (mDirtyObjects s); [done | simpl in Hlen; lia]. }
  destruct (last (mDirtyObjects s)) as [object|] eqn:Hlast.
  - pose proof Hlast as [q Hq]%last_Some.
    assert (length (mDirtyObjects s) = S (length q)) as Hl
      by (rewrite Hq, length_app; simpl; lia).
    rewrite Hl in Hlen |- *. simpl. rewrite Hlast.
    set (s1 := set_mDirtyObjects (removelast (mDirtyObjects s)) s).
    set (s2 := if mZoneRefDirty (getObj s1 object)
               then _rezoneObject object s1 else s1).
    assert (mDirtyObjects s2 = q) as Hs2.
    { assert (zoning_frame s1 s2) as (_&_&_&_&_&_&Hobjs&_) by (subst s2; zf).
      rewrite Hobjs. subst s1. simpl. by rewrite Hq, removelast_last. }
    rewrite IH by (rewrite Hs2; lia). by rewrite Hs2.
  - apply last_None in Hlast. simpl. rewrite Hlast. done.
Qed.

Lemma updateZoningState_slow_path s :
  let s1 := drainDirtyZoneSpaces (length (mDirtyZoneSpaces s)) s in
  let s2 :=
    if bool_decide (mDirtyArea s1 ≠ Box3F_Invalid)
    then set_mDirtyArea Box3F_Invalid (_rezoneObjects (mDirtyArea s1) s1)
    else s1 in
  let s3 := drainDirtyObjects (length (mDirtyObjects s2)) s2 in
  mDirtyZoneSpaces s3 = [] ∧ mDirtyObjects s3 = []
  ∧ mDirtyArea s3 = Box3F_Invalid.
Proof.
  intros s1 s2 s3.
  destruct (drainDirtyZoneSpaces_empty (length (mDirtyZoneSpaces s)) s)
    as [Hs1 _]; [done|]. fold s1 in Hs1.
  assert (mDirtyZoneSpaces s2 = [] ∧ mDirtyArea s2 = Box3F_Invalid)
    as [Hs2 Ha2].
  { subst s2. case_bool_decide as Hne.
    - split; [|done].
      destruct (zf_rezoneObjects (mDirtyArea s1) s1) as (_&_&_&_&_&_&_&Hr&_).
      simpl. by rewrite Hr.
    - split; [exact Hs1|].
      by destruct (decide (mDirtyArea s1 = Box3F_Invalid)). }
  destruct (drainDirtyObjects_empty (length (mDirtyObjects s2)) s2)
    as (Hd1 & Hd2 & Hd3); [done|].
  subst s3. by rewrite Hd1, Hd2, Hd3.
Qed.

(** C8.  Every call of [updateZoningState] returns with the zone-space dirty
    queue empty, the object dirty queue empty and the dirty area equal to
    [Box3F::Invalid]; the state it returns is at rest: a further update pass
    returns at once and leaves it as it is. *)
Theorem updateZoningState_postcondition s :
  mDirtyZoneSpaces (updateZoningState s) = []
  ∧ mDirtyObjects (updateZoningState s) = []
  ∧ mDirtyArea (updateZoningState s) = Box3F_Invalid
  ∧ updateZoningState (updateZoningState s) = updateZoningState s.
Proof.
  assert (mDirtyZoneSpaces (updateZoningState s) = []
          ∧ mDirtyObjects (updateZoningState s) = []
          ∧ mDirtyArea (updateZoningState s) = Box3F_Invalid) as (H1 & H2 & H3).
  { unfold updateZoningState.
    destruct (bool_decide (mDirtyObjects s = []) &&
              bool_decide (mDirtyZoneSpaces s = []) &&
              bool_decide (mDirtyArea s = Box3F_Invalid)) eqn:Hrest.
    - apply andb_prop in Hrest as [Hrest Ha].
      apply andb_prop in Hrest as [Ho Hz].
      by apply bool_decide_eq_true in Ho, Hz, Ha.
    - apply updateZoningState_slow_path. }
  repeat split; try done.
  set (t := updateZoningState s) in *. unfold updateZoningState at 1.
  by rewrite (bool_decide_eq_true_2 _ H2), (bool_decide_eq_true_2 _ H1),
    (bool_decide_eq_true_2 _ H3).
Qed.

(** ** Registering a plain object *)

(** C10 (amended).  For a plain scene object (its type mask lacks
    [ZoneObjectType]) that is not flagged dirty, [registerObject] appends it
    to the object dirty queue and sets its dirty flag; for one already
    flagged dirty the call changes nothing at all.  Either way the object's
    handle and zone count, the table, the zone object lists, the zone list
    vector, the zone-space dirty queue and every other object are as
    before. *)
Theorem registerObject_effect s object :
  Z.land (mTypeMask (getObj s object)) ZoneObjectType = 0 →
  let s' := registerObject object s in
  (mZoneRefDirty (getObj s object) = false →
     mDirtyObjects s' = mDirtyObjects s ++ [object]
     ∧ mZoneRefDirty (getObj s' object) = true)
  ∧ (mZoneRefDirty (getObj s object) = true → s' = s)
  ∧ mZoneListHandle (getObj s' object) = mZoneListHandle (getObj s object)
  ∧ mNumCurrZones (getObj s' object) = mNumCurrZones (getObj s object)
  ∧ mObjectZoneLists s' = mObjectZoneLists s
  ∧ zoneListHeap s' = zoneListHeap s
  ∧ mZoneLists s' = mZoneLists s
  ∧ mDirtyZoneSpaces s' = mDirtyZoneSpaces s
  ∧ ∀ o, o ≠ object → getObj s' o = getObj s o.
Proof.
  intros Hplain s'. subst s'. unfold registerObject, notifyObjectChanged.
  destruct (mZoneRefDirty (getObj s object)) eqn:Hdirty.
  - repeat split; done.
  - rewrite bool_decide_eq_false_2 by (intros Hne; by apply Hne).
    split_and!; try done.
    + intros _. split; [done|]. by rewrite getObj_updObj_eq.
    + by rewrite getObj_updObj_eq.
    + by rewrite getObj_updObj_eq.
    + intros o Hne. by rewrite getObj_updObj_ne.
Qed.

(** ** Insert and remove *)

Lemma ZoneTable_lookup_freeList h tb :
  ZoneTable.lookup h (ZoneTable.freeList h tb) = None.
Proof. destruct h; simpl; try done. apply lookup_delete_eq. Qed.

Lemma zoneRemove_unzoned obj fl s :
  mZoneListHandle (getObj s obj) = 0 → _zoneRemove obj fl s = s.
Proof. intros H. unfold _zoneRemove. by rewrite bool_decide_eq_true_2. Qed.

(** The notifications of [_zoneRemove] write the zone object lists only. *)
Lemma foldl_notifyZoneRemove obj zones s :
  objects (foldl (notifyZoneRemove obj) s zones) = objects s
  ∧ mObjectZoneLists (foldl (notifyZoneRemove obj) s zones) = mObjectZoneLists s.
Proof.
  revert s. induction zones as [|z zones IH]; intros s; simpl; [done|].
  destruct (IH (notifyZoneRemove obj s z)) as [-> ->]. done.
Qed.

Lemma zoneRemove_zoned obj fl s :
  mZoneListHandle (getObj s obj) ≠ 0 →
  mZoneListHandle (getObj (_zoneRemove obj fl s) obj) = 0
  ∧ mNumCurrZones (getObj (_zoneRemove obj fl s) obj) = 0
  ∧ mZoneRefDirty (getObj (_zoneRemove obj fl s) obj) = false
  ∧ mObjectZoneLists (_zoneRemove obj fl s)
    = ZoneTable.freeList (mZoneListHandle (getObj s obj)) (mObjectZoneLists s).
Proof.
  intros H. unfold _zoneRemove. rewrite bool_decide_eq_false_2 by done.
  cbv zeta.
  set (zones := ZoneTable.getValues _ _).
  destruct (foldl_notifyZoneRemove obj zones s) as [Hobjs Htb].
  set (s1 := foldl (notifyZoneRemove obj) s zones) in *.
  assert (getObj s1 obj = getObj s obj) as Hget
    by (unfold getObj; by rewrite Hobjs).
  rewrite !getObj_updObj_eq. simpl. by rewrite Hget, Htb.
Qed.

(** The notifications of [_zoneInsert] write the zone object lists only. *)
Lemma foldl_notifyZoneAdd object zones records s :
  objects (foldl (notifyZoneAdd object zones) s records) = objects s
  ∧ mObjectZoneLists (foldl (notifyZoneAdd object zones) s records)
    = mObjectZoneLists s.
Proof.
  revert s. induction records as [|r records IH]; intros s; simpl; [done|].
  destruct (IH (notifyZoneAdd object zones s r)) as [-> ->].
  unfold notifyZoneAdd. by case_bool_decide.
Qed.

Lemma getObj_objects s t o : objects s = objects t → getObj s o = getObj t o.
Proof. unfold getObj. by intros ->. Qed.

(** What [_setObjectZoneList] leaves in the object and in the table. *)
Lemma setObjectZoneList_count object zoneList s :
  mNumCurrZones (getObj (_setObjectZoneList object zoneList s) object)
  = Z.of_nat (length zoneList).
Proof.
  unfold _setObjectZoneList. cbv zeta. by rewrite getObj_updObj_eq.
Qed.

Lemma setObjectZoneList_handle_0 object zoneList s :
  mZoneListHandle (getObj (_setObjectZoneList object zoneList s) object) = 0 →
  zoneList = [].
Proof.
  unfold _setObjectZoneList. cbv zeta. rewrite getObj_updObj_eq. simpl.
  case_bool_decide as Hh.
  - simpl. by rewrite getObj_updObj_eq.
  - case_bool_decide as Hn.
    + intros _. by destruct zoneList.
    + simpl. done.
Qed.

Lemma setObjectZoneList_values object zoneList s :
  0 ≤ mZoneListHandle (getObj s object) →
  zoneList ≠ [] →
  ZoneTable.getValues
    (mZoneListHandle (getObj (_setObjectZoneList object zoneList s) object))
    (mObjectZoneLists (_setObjectZoneList object zoneList s))
  = zoneList.
Proof.
  intros Hh Hne. unfold _setObjectZoneList. cbv zeta.
  rewrite getObj_updObj_eq. simpl.
  case_bool_decide as Hz.
  - simpl. rewrite getObj_updObj_eq. simpl.
    unfold ZoneTable.getValues, ZoneTable.lookup. by rewrite lookup_insert_eq.
  - rewrite bool_decide_eq_false_2 by (destruct zoneList; [done | simpl; lia]).
    simpl.
    assert (∀ tb, getObj (set_mObjectZoneLists tb s) object = getObj s object)
      as -> by done.
    destruct (mZoneListHandle (getObj s object)) as [|p|p] eqn:Hp;
      [done| |lia].
    unfold ZoneTable.getValues, ZoneTable.lookup. simpl.
    by rewrite lookup_insert_eq.
Qed.

(** The object and the table after the second half of [_zoneInsert]. *)
Lemma commitObjectZones_object object a s :
  let t := if bool_decide (numGlobalZones a > 0)
           then _setObjectZoneList object (globalZones a) s else s in
  getObj (commitObjectZones object a s) object
  = set_mZoneRefDirty false (getObj t object)
  ∧ mObjectZoneLists (commitObjectZones object a s) = mObjectZoneLists t.
Proof.
  intros t. unfold commitObjectZones. cbv zeta. fold t.
  destruct (foldl_notifyZoneAdd object (globalZones a) (mTempObjectZones a) t)
    as [Hobjs Htb].
  rewrite getObj_updObj_eq. simpl. rewrite Htb.
  by rewrite (getObj_objects _ t).
Qed.

(** C9.  Inserting an object (one that holds no zones, as [_zoneInsert]
    asserts) and removing it straight away leaves its zone count at 0 and
    its handle at 0, and the table entry the insertion gave it is freed;
    [_zoneRemove] on an object whose handle is 0 returns the state it was
    given. *)
Theorem zoneInsert_zoneRemove_round_trip s obj q fl :
  mNumCurrZones (getObj s obj) = 0 →
  let s1 := _zoneInsert obj q s in
  let s2 := _zoneRemove obj fl s1 in
  mNumCurrZones (getObj s2 obj) = 0
  ∧ mZoneListHandle (getObj s2 obj) = 0
  ∧ ZoneTable.lookup (mZoneListHandle (getObj s1 obj)) (mObjectZoneLists s2)
    = None
  ∧ _zoneRemove obj fl s2 = s2
  ∧ ∀ t, mZoneListHandle (getObj t obj) = 0 → _zoneRemove obj fl t = t.
Proof.
  intros Hcount s1 s2.
  assert (∀ t, mZoneListHandle (getObj t obj) = 0 → _zoneRemove obj fl t = t)
    as Hnoop by (intros; by apply zoneRemove_unzoned).
  destruct (decide (mZoneListHandle (getObj s1 obj) = 0)) as [Hz|Hnz].
  - assert (s2 = s1) as -> by (by apply Hnoop).
    split_and!; try done; [|by rewrite Hz|by apply Hnoop].
    (* the handle is still 0 after the insertion: no list was set *)
    subst s1. unfold _zoneInsert in *. cbv zeta in *.
    set (s0 := if isOutsideOnly s obj then s
               else if q then s
               else _queryZoneSpaces (mWorldBox (getObj s obj)) s) in *.
    assert (getObj s0 obj = getObj s obj) as Hs0.
    { subst s0. by repeat case_match. }
    set (a := collectObjectZones (isOutsideOnly s obj) obj s0) in *.
    destruct (commitObjectZones_object obj a s0) as [Hobj _].
    rewrite Hobj in Hz |- *. simpl in *.
    case_bool_decide as Hn.
    + apply setObjectZoneList_handle_0 in Hz.
      by rewrite setObjectZoneList_count, Hz.
    + by rewrite Hs0.
  - subst s2. destruct (zoneRemove_zoned obj fl s1 Hnz) as (Hh & Hc & _ & Htb).
    split_and!; try done.
    + rewrite Htb. apply ZoneTable_lookup_freeList.
    + by apply Hnoop.
Qed.

(** ** Point and area queries *)

(** The loop of [findZone] stops at the first zone space that accepts the
    point. *)
Lemma findZoneLoop_Some s p query zoneSpace inZone :
  findZoneLoop s p query = Some (zoneSpace, inZone) →
  ∃ pre post,
    query = pre ++ zoneSpace :: post
    ∧ (∀ x, x ∈ pre → isZoneSpace (getObj s x) = true →
            getPointZone s x p = InvalidZoneId)
    ∧ isZoneSpace (getObj s zoneSpace) = true
    ∧ inZone = getPointZone s zoneSpace p
    ∧ inZone ≠ InvalidZoneId.
Proof.
  induction query as [|x query IH]; simpl; [done|].
  destruct (isZoneSpace (getObj s x)) eqn:Hx; simpl.
  - case_bool_decide as Hin.
    + intros [= <- <-]. exists [], query. split_and!; try done.
      intros y Hy. by apply elem_of_nil in Hy.
    + intros (pre & post & -> & Hpre & ? & ? & ?)%IH.
      exists (x :: pre), post. split_and!; try done.
      intros y [->|Hy]%elem_of_cons Hzs; [done | by apply Hpre].
  - intros (pre & post & -> & Hpre & ? & ? & ?)%IH.
    exists (x :: pre), post. split_and!; try done.
    intros y [->|Hy]%elem_of_cons Hzs; [congruence | by apply Hpre].
Qed.

Lemma findZoneLoop_None s p query :
  findZoneLoop s p query = None →
  ∀ x, x ∈ query → isZoneSpace (getObj s x) = true →
       getPointZone s x p = InvalidZoneId.
Proof.
  induction query as [|x query IH]; simpl.
  - intros _ y Hy. by apply elem_of_nil in Hy.
  - destruct (isZoneSpace (getObj s x)) eqn:Hx; simpl.
    + case_bool_decide as Hin; [done|].
      intros Hnone y [->|Hy]%elem_of_cons Hzs; [done | by apply IH].
    + intros Hnone y [->|Hy]%elem_of_cons Hzs; [congruence | by apply IH].
Qed.

(** C7.  Whatever the reference parameters held on entry, [findZone] leaves
    an owner and a zone ID other than [InvalidZoneId] in them.  With exactly
    one active zone it returns the root zone and ID 0 without a query;
    otherwise it returns the first zone space of the query list whose
    [getPointZone] accepts the point, with the zone that zone space named,
    and the root zone with ID 0 when none accepts. *)
Theorem findZone_never_invalid p owner zone s :
  let r := findZone p owner zone s in
  (∃ o, r.2.1 = Some o)
  ∧ r.2.2 ≠ InvalidZoneId
  ∧ (mNumActiveZones s = 1 → r = (s, (Some (mRootZone s), RootZoneId)))
  ∧ (mNumActiveZones s ≠ 1 →
       let s' := _queryZoneSpaces (pointQueryBox p) s in
       r.1 = s'
       ∧ ((∃ pre zoneSpace post,
              mZoneSpacesQueryList s' = pre ++ zoneSpace :: post
              ∧ (∀ x, x ∈ pre → isZoneSpace (getObj s' x) = true →
                      getPointZone s' x p = InvalidZoneId)
              ∧ isZoneSpace (getObj s' zoneSpace) = true
              ∧ getPointZone s' zoneSpace p ≠ InvalidZoneId
              ∧ r.2 = (Some zoneSpace, getPointZone s' zoneSpace p))
          ∨ ((∀ x, x ∈ mZoneSpacesQueryList s' →
                   isZoneSpace (getObj s' x) = true →
                   getPointZone s' x p = InvalidZoneId)
             ∧ r.2 = (Some (mRootZone s), RootZoneId)))).
Proof.
  intros r. subst r. unfold findZone.
  case_bool_decide as Hone.
  - simpl. split_and!; eauto; done.
  - cbv zeta.
    set (s' := _queryZoneSpaces (pointQueryBox p) s).
    destruct (findZoneLoop s' p (mZoneSpacesQueryList s'))
      as [[zoneSpace inZone]|] eqn:Hloop; simpl.
    + apply findZoneLoop_Some in Hloop
        as (pre & post & Hq & Hpre & Hzs & -> & Hin).
      split_and!; eauto; try done.
      intros _. split; [done|]. left. exists pre, zoneSpace, post. done.
    + split_and!; eauto; try done.
      intros _. split; [done|]. right. split; [|done].
      by apply findZoneLoop_None.
Qed.

(** The loop of [findZones]. *)
Lemma u32_add_u32_l a b : u32_add (u32 a) b = u32 (a + b).
Proof. unfold u32_add, u32. by rewrite Zplus_mod_idemp_l. Qed.

Lemma findZones_pushes (oi : bool) (n : Z) (out zones : list Z) :
  foldl (λ a z,
           mkFindZonesAcc (fz_outsideIncluded a)
             (u32_add (fz_numTotalZones a) 1) (fz_outZones a ++ [z]))
        (mkFindZonesAcc oi (u32 n) out) zones
  = mkFindZonesAcc oi (u32 (n + Z.of_nat (length zones))) (out ++ zones).
Proof.
  revert n out. induction zones as [|z zones IH]; intros n out; simpl.
  - by rewrite Z.add_0_r, app_nil_r.
  - rewrite u32_add_u32_l, IH. f_equal; [f_equal; lia|].
    by rewrite <- app_assoc.
Qed.

Lemma findZones_loop s area query (oi : bool) (n : Z) (out : list Z) :
  let reports := areaReports s area query in
  foldl (findZonesStep s area) (mkFindZonesAcc oi (u32 n) out) query
  = mkFindZonesAcc (oi || existsb snd reports)
      (u32 (n + Z.of_nat (length (concat (fst <$> reports)))))
      (out ++ concat (fst <$> reports)).
Proof.
  revert oi n out. unfold areaReports.
  induction query as [|x query IH]; intros oi n out; simpl.
  - by rewrite orb_false_r, Z.add_0_r, app_nil_r.
  - unfold findZonesStep at 2.
    destruct (isZoneSpace (getObj s x)) eqn:Hx; simpl.
    + rewrite filter_cons_True by done. simpl.
      destruct (getOverlappingZonesBox s x area) as [zones ov] eqn:Hr. simpl.
      rewrite findZones_pushes, IH. rewrite length_app.
      f_equal; [by rewrite orb_assoc | | by rewrite app_assoc].
      f_equal. by rewrite Nat2Z.inj_add, Z.add_assoc.
    + rewrite filter_cons_False by (by rewrite Hx). apply IH.
Qed.

(** C6.  [findZones] appends to the output vector the zone IDs the queried
    zone spaces report for the area, in query order, and then the root zone
    ID exactly when some zone space reported an outside overlap or no zone
    ID was collected; the count it returns is the number of IDs appended.
    The vector and the counter have [U32] sizes, so the IDs of one query are
    fewer than [2^32 - 1]. *)
Theorem findZones_aggregates area outZones s :
  let s' := _queryZoneSpaces area s in
  let reports := areaReports s' area (mZoneSpacesQueryList s') in
  let zones := concat (fst <$> reports) in
  let root :=
    if existsb snd reports || bool_decide (zones = []) then [RootZoneId]
    else [] in
  Z.of_nat (length zones) + 1 < U32_modulus →
  findZones area outZones s
  = (s', (Z.of_nat (length (zones ++ root)), outZones ++ zones ++ root)).
Proof.
  intros s' reports zones root Hfit. unfold findZones. cbv zeta. fold s'.
  pose proof (findZones_loop s' area (mZoneSpacesQueryList s') false 0 outZones)
    as Hloop.
  change (u32 0) with 0 in Hloop. cbv zeta in Hloop. fold reports in Hloop.
  fold zones in Hloop. rewrite Z.add_0_l, orb_false_l in Hloop.
  rewrite Hloop. clear Hloop. cbn [fz_outsideIncluded fz_numTotalZones fz_outZones].
  assert (u32 (Z.of_nat (length zones)) = Z.of_nat (length zones)) as Hlen.
  { unfold u32. apply Z.mod_small. lia. }
  rewrite Hlen.
  assert (bool_decide (Z.of_nat (length zones) = 0) = bool_decide (zones = []))
    as ->.
  { apply bool_decide_ext. destruct zones; simpl; [done|]. split; [lia|done]. }
  subst root. destruct (existsb snd reports || bool_decide (zones = [])).
  - rewrite length_app. simpl. f_equal. f_equal; [|by rewrite app_assoc].
    unfold u32_add, u32. rewrite Z.mod_small by lia. lia.
  - by rewrite !app_nil_r.
Qed.

(** ** The zones [_zoneInsert] gives an object *)

Lemma u32_small z : 0 ≤ z < U32_modulus → u32 z = z.
Proof. intros. unfold u32. by apply Z.mod_small. Qed.

Lemma collected_step s object pre oi a zoneSpace :
  0 ≤ MaxObjectZones < U32_modulus →
  isZoneSpace (getObj s zoneSpace) = true → zoneSpace ≠ object →
  collected pre oi a →
  collected (pre ++ (getOverlappingZones s zoneSpace object).1)
    (oi && (getOverlappingZones s zoneSpace object).2)
    (zoneInsertStep s object a zoneSpace).
Proof.
  intros HM Hzs Hne (Hn & Hr & Hg & Ho). unfold zoneInsertStep.
  rewrite Hzs. simpl. rewrite bool_decide_eq_false_2 by done.
  destruct (getOverlappingZones s zoneSpace object) as [zones ov]. simpl.
  set (M := Z.to_nat MaxObjectZones) in *.
  assert (take M (pre ++ zones)
          = take M pre
            ++ take (Z.to_nat (Z.min (remainingZones a)
                                 (Z.of_nat (length zones)))) zones) as Htake.
  { rewrite take_app. f_equal. rewrite Hr, Hn, length_take.
    destruct (decide (length zones ≤ M - length pre)%nat).
    - rewrite !take_ge; [done | lia | lia].
    - f_equal. lia. }
  assert (Z.of_nat (length (take M (pre ++ zones))) ≤ MaxObjectZones) as Hle.
  { rewrite length_take. lia. }
  assert (0 ≤ Z.min (remainingZones a) (Z.of_nat (length zones))) as Hmin.
  { rewrite Hr, Hn, length_take. lia. }
  case_bool_decide as Hpos; unfold collected; simpl.
  - fold M. rewrite Htake, length_app, Hg, Ho.
    set (k := Z.min (remainingZones a) (Z.of_nat (length zones))) in *.
    assert (k ≤ remainingZones a ∧ k ≤ Z.of_nat (length zones)) as [Hk1 Hk2]
      by (subst k; lia).
    assert (length (take (Z.to_nat k) zones) = Z.to_nat k) as Hk
      by (rewrite length_take; lia).
    rewrite Htake, length_app, Hk in Hle. rewrite Hk.
    assert (0 ≤ numGlobalZones a) by lia.
    unfold u32_add, u32_sub. rewrite !u32_small by lia.
    split_and!; try done; lia.
  - fold M.
    assert (Z.min (remainingZones a) (Z.of_nat (length zones)) = 0) as H0
      by lia.
    rewrite H0 in Htake. simpl in Htake. rewrite app_nil_r in Htake.
    rewrite Htake, Ho. done.
Qed.

Lemma collected_loop s object query pre oi a :
  0 ≤ MaxObjectZones < U32_modulus →
  collected pre oi a →
  let reports := objectReports s object query in
  collected (pre ++ concat (fst <$> reports)) (oi && forallb snd reports)
    (foldl (zoneInsertStep s object) a query).
Proof.
  intros HM. revert pre oi a. unfold objectReports.
  induction query as [|x query IH]; intros pre oi a Ha; simpl.
  - by rewrite app_nil_r, andb_true_r.
  - destruct (decide (isZoneSpace (getObj s x) = true ∧ x ≠ object))
      as [[Hzs Hne]|Hskip].
    + rewrite filter_cons_True by done. simpl.
      rewrite app_assoc, andb_assoc. apply IH.
      by apply collected_step.
    + rewrite filter_cons_False by done.
      assert (zoneInsertStep s object a x = a) as ->; [|by apply IH].
      unfold zoneInsertStep.
      destruct (isZoneSpace (getObj s x)); simpl; [|done].
      case_bool_decide; [done|]. exfalso. apply Hskip. done.
Qed.

Lemma collectObjectZones_zones object s :
  0 ≤ MaxObjectZones < U32_modulus →
  let a := collectObjectZones false object s in
  let zones := insertedZones (objectReports s object (mZoneSpacesQueryList s)) in
  globalZones a = zones ∧ numGlobalZones a = Z.of_nat (length zones).
Proof.
  intros HM a zones. subst a zones. unfold collectObjectZones, insertedZones.
  cbv zeta. simpl.
  set (reports := objectReports s object (mZoneSpacesQueryList s)).
  destruct (collected_loop s object (mZoneSpacesQueryList s) [] true
              (mkZoneInsertAcc 0 MaxObjectZones [] true []) HM)
    as (Hn & Hr & Hg & Ho).
  { unfold collected. simpl. rewrite take_nil. simpl. split_and!; try done; lia. }
  fold reports in Hn, Hr, Hg, Ho. simpl in Hn, Hr, Hg, Ho.
  rewrite Ho, Hr, Hn, length_take.
  assert (bool_decide
            (MaxObjectZones
             - Z.of_nat (Z.to_nat MaxObjectZones
                           `min` length (concat reports.*1)) > 0)
          = bool_decide (Z.of_nat (length (concat reports.*1)) < MaxObjectZones))
    as -> by (apply bool_decide_ext; lia).
  destruct (forallb snd reports
            && bool_decide (Z.of_nat (length (concat reports.*1))
                            < MaxObjectZones)) eqn:Hc.
  - apply andb_prop in Hc as [_ Hlt%bool_decide_eq_true].
    unfold addOutsideZone. simpl. rewrite Hg, Hn, length_app, length_take.
    split; [done|]. unfold u32_add. rewrite u32_small by lia. simpl. lia.
  - rewrite app_nil_r, Hg, Hn, length_take. done.
Qed.

Lemma elem_of_concat (z : Z) (l : list Z) (ls : list (list Z)) :
  l ∈ ls → z ∈ l → z ∈ concat ls.
Proof.
  induction ls as [|l' ls IH]; simpl.
  - intros Hl. by apply elem_of_nil in Hl.
  - intros [->|Hl]%elem_of_cons Hz; apply elem_of_app; auto.
Qed.

Lemma forallb_snd_true (reports : list (list Z * bool)) :
  forallb snd reports = true ↔ ∀ r, r ∈ reports → r.2 = true.
Proof.
  induction reports as [|r reports IH]; simpl.
  - split; [|done]. intros _ r Hr. by apply elem_of_nil in Hr.
  - rewrite andb_true_iff, IH. split.
    + intros [Hr Hall] r' [->|Hin]%elem_of_cons; auto.
    + intros Hall. split; [apply Hall; left | intros r' Hin; apply Hall; by right].
Qed.

(** C4 (amended).  For an object that is not outside-only, [_zoneInsert]
    leaves in the table the zone IDs the overlapping zone spaces reported,
    cut off at [MaxObjectZones], followed by the root zone ID exactly when
    every zone space reported an outside overlap (or none was found) and
    fewer than [MaxObjectZones] IDs were reported.  So, when no zone space
    reports the root ID itself, the root zone is in the final membership if
    and only if all reports carry the outside flag and capacity is left; and
    when one of two zone spaces reports no outside overlap, the membership
    excludes the root zone and, if both reports fit the capacity, is exactly
    the IDs of both.  The hypotheses are the assertion of [_zoneInsert] on
    every report and the ranges of the [U32] constant and handle. *)
Theorem zoneInsert_outside_rule s object (q : bool) :
  0 < MaxObjectZones < U32_modulus →
  0 ≤ mZoneListHandle (getObj s object) →
  isOutsideOnly s object = false →
  let s0 := if q then s
            else _queryZoneSpaces (mWorldBox (getObj s object)) s in
  let reports := objectReports s0 object (mZoneSpacesQueryList s0) in
  let reported := concat (fst <$> reports) in
  (∀ r : list Z * bool, r ∈ reports → r.1 ≠ [] ∨ r.2 = true) →
  let s' := _zoneInsert object q s in
  let final :=
    ZoneTable.getValues (mZoneListHandle (getObj s' object))
      (mObjectZoneLists s') in
  final = insertedZones reports
  ∧ mNumCurrZones (getObj s' object) = Z.of_nat (length final)
  ∧ (RootZoneId ∉ reported →
       (RootZoneId ∈ final
        ↔ (∀ r : list Z * bool, r ∈ reports → r.2 = true)
          ∧ Z.of_nat (length reported) < MaxObjectZones))
  ∧ ((∃ r : list Z * bool, r ∈ reports ∧ r.2 = false) →
       Z.of_nat (length reported) ≤ MaxObjectZones → final = reported).
Proof.
  intros HM Hh Hout s0 reports reported Hassert s' final.
  assert (final = insertedZones reports
          ∧ mNumCurrZones (getObj s' object) = Z.of_nat (length final))
    as [Hfinal Hcount].
  { subst final s'. unfold _zoneInsert. cbv zeta. rewrite Hout. fold s0.
    destruct (collectObjectZones_zones object s0) as [Hg Hn]; [lia|].
    fold reports in Hg, Hn.
    set (a := collectObjectZones false object s0) in *.
    destruct (commitObjectZones_object object a s0) as [-> ->].
    assert (getObj s0 object = getObj s object) as Hs0
      by (subst s0; by destruct q).
    assert (insertedZones reports ≠ []) as Hne.
    { unfold insertedZones. fold reported.
      destruct reported as [|z reported'] eqn:Hrep.
      - simpl. rewrite take_nil. simpl.
        rewrite bool_decide_eq_true_2 by lia. rewrite andb_true_r.
        assert (forallb snd reports = true) as ->; [|done].
        apply forallb_snd_true. intros r Hr.
        destruct (Hassert r Hr) as [Hr1|Hr2]; [|done].
        exfalso. apply Hr1.
        assert (r.1 ∈ reports.*1) as Hin by (by apply list_elem_of_fmap_2).
        destruct (r.1) as [|z zs] eqn:Hr0; [done|].
        assert (z ∈ concat reports.*1) as Hz
          by (apply (elem_of_concat _ _ _ Hin); left).
        fold reported in Hz. rewrite Hrep in Hz. by apply elem_of_nil in Hz.
      - destruct (Z.to_nat MaxObjectZones) eqn:HMn; [lia|]. done. }
    rewrite bool_decide_eq_true_2
      by (rewrite Hn; destruct (insertedZones reports); [done | simpl; lia]).
    simpl. rewrite Hg.
    rewrite setObjectZoneList_values, setObjectZoneList_count;
      [done | by rewrite Hs0 | done]. }
  split_and!; try done.
  - intros Hnoroot. rewrite Hfinal. unfold insertedZones. fold reported.
    rewrite elem_of_app. split.
    + intros [Hin|Hin].
      * exfalso. apply Hnoroot. revert Hin. apply subseteq_take.
      * destruct (forallb snd reports) eqn:Hall; simpl in Hin;
          [|by apply elem_of_nil in Hin].
        case_bool_decide as Hlt; [|by apply elem_of_nil in Hin].
        split; [|done]. by apply forallb_snd_true.
    + intros [Hall Hlt]. right.
      assert (forallb snd reports = true) as -> by (by apply forallb_snd_true).
      rewrite bool_decide_eq_true_2 by done. simpl. left.
  - intros (r & Hr & Hr2) Hfit. rewrite Hfinal. unfold insertedZones.
    fold reported.
    assert (forallb snd reports = false) as ->.
    { destruct (forallb snd reports) eqn:Hall; [|done].
      rewrite forallb_snd_true in Hall.
      specialize (Hall r Hr). congruence. }
    simpl. rewrite app_nil_r. apply take_ge. lia.
Qed.

(** ** Chains of ranges *)

Lemma sumRanges_cons r rs : sumRanges (r :: rs) = r.2 + sumRanges rs.
Proof. done. Qed.

Lemma sumRanges_app rs rs' : sumRanges (rs ++ rs') = sumRanges rs + sumRanges rs'.
Proof.
  induction rs as [|r rs IH]; [done|].
  rewrite <- app_comm_cons, !sumRanges_cons, IH. lia.
Qed.

Lemma tight_chain lo rs hi : tight lo rs hi → chain lo rs hi.
Proof.
  revert lo. induction rs as [|r rs IH]; intros lo; simpl; [lia|].
  intros (-> & ? & ?). split_and!; [lia | done | by apply IH].
Qed.

Lemma tight_sum lo rs hi : tight lo rs hi → lo + sumRanges rs = hi.
Proof.
  revert lo. induction rs as [|r rs IH]; intros lo; simpl; [lia|].
  intros (<- & ? & Ht). apply IH in Ht. lia.
Qed.

Lemma chain_sum lo rs hi : chain lo rs hi → lo + sumRanges rs ≤ hi.
Proof.
  revert lo. induction rs as [|r rs IH]; intros lo; simpl; [lia|].
  intros (? & ? & Hc). apply IH in Hc. lia.
Qed.

Lemma chain_weaken lo lo' rs hi : lo' ≤ lo → chain lo rs hi → chain lo' rs hi.
Proof. destruct rs; simpl; intros; [lia | split_and!; [lia | tauto..]]. Qed.

Lemma chain_nonneg lo rs hi r : chain lo rs hi → r ∈ rs → 0 ≤ r.2.
Proof.
  revert lo. induction rs as [|r' rs IH]; intros lo; simpl.
  - intros _ Hr. by apply elem_of_nil in Hr.
  - intros (? & ? & Hc) [->|Hr]%elem_of_cons; [done | by eapply IH].
Qed.

Lemma chain_bounds lo rs hi r :
  chain lo rs hi → r ∈ rs → lo ≤ r.1 ∧ r.1 + r.2 ≤ hi.
Proof.
  revert lo. induction rs as [|r' rs IH]; intros lo; simpl.
  - intros _ Hr. by apply elem_of_nil in Hr.
  - intros (? & ? & Hc) [->|Hr]%elem_of_cons.
    + split; [done|]. pose proof (chain_sum _ _ _ Hc).
      assert (0 ≤ sumRanges rs); [|lia].
      clear -Hc. revert Hc. generalize (r'.1 + r'.2).
      induction rs as [|r rs IH]; simpl; [lia|].
      intros z (? & ? & Hc). apply IH in Hc. lia.
    + destruct (IH _ Hc Hr). lia.
Qed.

(** Two ranges at different places of a chain do not overlap. *)
Lemma chain_ordered lo rs hi i j r1 r2 :
  chain lo rs hi → (i < j)%nat → rs !! i = Some r1 → rs !! j = Some r2 →
  r1.1 + r1.2 ≤ r2.1.
Proof.
  revert lo i j. induction rs as [|r rs IH]; intros lo i j; [done|].
  simpl. intros (? & ? & Hc) Hij Hi Hj.
  destruct j as [|j]; [lia|]. simpl in Hj.
  destruct i as [|i]; simpl in Hi.
  - injection Hi as ->.
    apply list_elem_of_lookup_2 in Hj.
    by destruct (chain_bounds _ _ _ _ Hc Hj).
  - eapply IH; [done | | done | done]. lia.
Qed.

Lemma chain_app lo rs mid rs' hi :
  chain lo rs mid → chain mid rs' hi → chain lo (rs ++ rs') hi.
Proof.
  revert lo. induction rs as [|r rs IH]; intros lo; simpl.
  - intros. by eapply chain_weaken.
  - intros (? & ? & Hc) Hc'. split_and!; [done..|]. by apply IH.
Qed.

Lemma chain_delete lo rs1 r rs2 hi :
  chain lo (rs1 ++ r :: rs2) hi → chain lo (rs1 ++ rs2) hi.
Proof.
  revert lo. induction rs1 as [|r1 rs1 IH]; intros lo; simpl.
  - intros (? & ? & Hc). eapply chain_weaken; [|done]. lia.
  - intros (? & ? & Hc). split_and!; [done..|]. by apply IH.
Qed.

(** A tight chain covers every ID between its ends. *)
Lemma tight_cover lo rs hi z :
  tight lo rs hi → lo ≤ z < hi → ∃ r, r ∈ rs ∧ r.1 ≤ z < r.1 + r.2.
Proof.
  revert lo. induction rs as [|r rs IH]; intros lo; simpl; [lia|].
  intros (Hr & ? & Ht) Hz.
  destruct (decide (z < r.1 + r.2)).
  - exists r. split; [left | lia].
  - destruct (IH _ Ht) as (r' & ? & ?); [lia|].
    exists r'. split; [by right | done].
Qed.

(** A chain that spends every ID between its ends is tight. *)
Lemma chain_tight lo rs hi :
  chain lo rs hi → lo + sumRanges rs = hi → tight lo rs hi.
Proof.
  revert lo. induction rs as [|r rs IH]; intros lo; simpl; [lia|].
  intros (? & ? & Hc) Hsum. pose proof (chain_sum _ _ _ Hc).
  assert (r.1 = lo) as Hr by lia.
  split_and!; [done | done |]. apply IH; [done | lia].
Qed.

(** ** The allocation state *)

#[local] Instance ranges_frame_refl : Reflexive ranges_frame.
Proof. by intros s. Qed.

#[local] Instance ranges_frame_trans : Transitive ranges_frame.
Proof.
  intros a b c (?&?&?&?&Hab) (?&?&?&?&Hbc).
  repeat split; try congruence.
Qed.

Lemma ranges_frame_ranges s s' : ranges_frame s s' → ranges s' = ranges s.
Proof.
  intros (_&Hsp&_&_&Hr). unfold ranges. rewrite Hsp.
  apply list_fmap_ext. intros _ o _. apply Hr.
Qed.

Lemma zoning_ranges_frame s s' : zoning_frame s s' → ranges_frame s s'.
Proof.
  intros (?&?&?&?&_&_&_&_&_&Hobj). repeat split; try done.
  intros o. destruct (Hobj o) as (_&_&_&_&Hs&Hn). unfold zoneRange.
  by rewrite Hs, Hn.
Qed.

Lemma rf_updObj o f s :
  (∀ ob, mZoneRangeStart (f ob) = mZoneRangeStart ob
         ∧ mNumZones (f ob) = mNumZones ob) →
  ranges_frame s (updObj o f s).
Proof.
  intros Hf. repeat split. intros o'. unfold zoneRange.
  rewrite getObj_updObj. case_decide; subst; [|done].
  destruct (Hf (getObj s o')) as [-> ->]. done.
Qed.

Lemma rf_notifyObjectChanged o s : ranges_frame s (notifyObjectChanged o s).
Proof.
  unfold notifyObjectChanged. destruct (mZoneRefDirty _); [reflexivity|].
  etrans; [|by apply rf_updObj].
  repeat case_bool_decide; repeat case_match; done.
Qed.

Lemma rf_allocZoneListAt object s i : ranges_frame s (allocZoneListAt object s i).
Proof.
  unfold allocZoneListAt, _allocZoneList. by destruct (last (mZoneListPool s)).
Qed.

Lemma rf_allocZoneLists object start n s :
  ranges_frame s (allocZoneLists object start n s).
Proof.
  unfold allocZoneLists. cbv zeta.
  etrans; [|apply (foldl_rel ranges_frame), rf_allocZoneListAt]. done.
Qed.

Lemma rf_destroyZoneList s j :
  ranges_frame s (destroyZoneList s j)
  ∧ mZoneLists (destroyZoneList s j) = mZoneLists s.
Proof.
  unfold destroyZoneList. cbv zeta.
  pose proof (zf_clearZoneList j s) as Hzf.
  pose proof (zoning_ranges_frame _ _ Hzf) as Hrf.
  destruct Hzf as (_&_&_&_&Hl&_).
  destruct (zoneListAt s j); [|done].
  split; [|done]. etrans; [exact Hrf|]. done.
Qed.

Lemma rf_destroyZoneLists start n s :
  ranges_frame s (destroyZoneLists start n s)
  ∧ mZoneLists (destroyZoneLists start n s) = mZoneLists s.
Proof.
  unfold destroyZoneLists. generalize (seqZ start (u32_add start n - start)).
  intros l. revert s. induction l as [|j l IH]; intros s; simpl; [done|].
  destruct (rf_destroyZoneList s j) as [H1 H2].
  destruct (IH (destroyZoneList s j)) as [H3 H4].
  split; [by etrans | congruence].
Qed.

(** ** The compaction walk *)

Lemma compactZone_frame oldStart newStart w n :
  ranges_frame (cw_state w) (cw_state (compactZone oldStart newStart w n))
  ∧ nextZoneId (compactZone oldStart newStart w n) = nextZoneId w.
Proof. unfold compactZone. cbv zeta. by case_match. Qed.

Lemma compactZones_inner_frame oldStart newStart l w :
  ranges_frame (cw_state w)
    (cw_state (foldl (compactZone oldStart newStart) w l))
  ∧ nextZoneId (foldl (compactZone oldStart newStart) w l) = nextZoneId w.
Proof.
  revert w. induction l as [|n l IH]; intros w; simpl; [done|].
  destruct (compactZone_frame oldStart newStart w n) as [H1 H2].
  destruct (IH (compactZone oldStart newStart w n)) as [H3 H4].
  split; [by etrans | congruence].
Qed.

Lemma compactSpace_spec w space :
  let w' := compactSpace w space in
  let s := cw_state w in
  nextZoneId w' = u32_add (nextZoneId w) (mNumZones (getObj s space))
  ∧ zoneRange (cw_state w') space = (nextZoneId w, mNumZones (getObj s space))
  ∧ (∀ o, o ≠ space → zoneRange (cw_state w') o = zoneRange s o)
  ∧ mRootZone (cw_state w') = mRootZone s
  ∧ mZoneSpaces (cw_state w') = mZoneSpaces s
  ∧ mNumActiveZones (cw_state w') = mNumActiveZones s.
Proof.
  intros w' s. subst w'. unfold compactSpace. cbv zeta. fold s.
  match goal with
  | |- context [foldl (compactZone ?a ?b) ?w0 ?l] =>
      destruct (compactZones_inner_frame a b l w0) as [(Hr&Hsp&_&Hact&Hrg) Hn]
  end.
  rewrite Hn, Hr, Hsp, Hact. simpl. split_and!; try done.
  - rewrite Hrg. unfold zoneRange. simpl. by rewrite getObj_updObj_eq.
  - intros o Hne. rewrite Hrg. unfold zoneRange. simpl.
    by rewrite getObj_updObj_ne.
Qed.

Lemma sumRanges_nonneg s spaces :
  (∀ o, o ∈ spaces → 0 ≤ mNumZones (getObj s o)) →
  0 ≤ sumRanges (zoneRange s <$> spaces).
Proof.
  induction spaces as [|o spaces IH]; [done|].
  intros H. rewrite fmap_cons, sumRanges_cons.
  assert (0 ≤ mNumZones (getObj s o)) by (apply H; left).
  assert (0 ≤ sumRanges (zoneRange s <$> spaces)); [|simpl; lia].
  apply IH. intros o' Ho'. apply H. by right.
Qed.

(** The walk hands out consecutive ranges in list order and touches no other
    range. *)
Lemma compact_walk spaces w :
  NoDup spaces →
  0 ≤ nextZoneId w →
  (∀ o, o ∈ spaces → 0 ≤ mNumZones (getObj (cw_state w) o)) →
  nextZoneId w + sumRanges (zoneRange (cw_state w) <$> spaces) < U32_modulus →
  let w' := foldl compactSpace w spaces in
  nextZoneId w'
  = nextZoneId w + sumRanges (zoneRange (cw_state w) <$> spaces)
  ∧ tight (nextZoneId w) (zoneRange (cw_state w') <$> spaces) (nextZoneId w')
  ∧ (∀ o, o ∉ spaces → zoneRange (cw_state w') o = zoneRange (cw_state w) o)
  ∧ (∀ o, mNumZones (getObj (cw_state w') o)
          = mNumZones (getObj (cw_state w) o))
  ∧ mRootZone (cw_state w') = mRootZone (cw_state w)
  ∧ mZoneSpaces (cw_state w') = mZoneSpaces (cw_state w)
  ∧ mNumActiveZones (cw_state w') = mNumActiveZones (cw_state w).
Proof.
  revert w. induction spaces as [|space spaces IH]; intros w Hnd Hnext Hnn Hfit.
  { simpl. split_and!; try done. lia. }
  apply NoDup_cons in Hnd as [Hnotin Hnd].
  rewrite fmap_cons, sumRanges_cons in Hfit.
  rewrite (fmap_cons _ space spaces), !sumRanges_cons.
  cbn [foldl zoneRange fst snd] in Hfit |- *.
  destruct (compactSpace_spec w space) as (Hn1 & Hr1 & Hother & Hroot & Hsp & Hact).
  set (w1 := compactSpace w space) in *.
  assert (0 ≤ mNumZones (getObj (cw_state w) space)) as Hn0 by (apply Hnn; left).
  assert (∀ o, mNumZones (getObj (cw_state w1) o)
               = mNumZones (getObj (cw_state w) o)) as Hnum1.
  { intros o. destruct (decide (o = space)) as [->|Hne].
    - by apply (f_equal snd) in Hr1.
    - pose proof (Hother o Hne) as Ho. by apply (f_equal snd) in Ho. }
  assert (zoneRange (cw_state w1) <$> spaces = zoneRange (cw_state w) <$> spaces)
    as Hrs.
  { apply list_fmap_ext. intros _ o Ho%list_elem_of_lookup_2.
    apply Hother. intros ->. done. }
  assert (0 ≤ sumRanges (zoneRange (cw_state w) <$> spaces)) as Hsum0.
  { apply sumRanges_nonneg. intros o Ho. apply Hnn. by right. }
  unfold u32_add in Hn1. rewrite u32_small in Hn1 by lia.
  destruct (IH w1) as (Hn2 & Ht & Hother2 & Hnum2 & Hroot2 & Hsp2 & Hact2);
    [done | lia | | |].
  { intros o Ho. rewrite Hnum1. apply Hnn. by right. }
  { rewrite Hrs, Hn1. lia. }
  cbv zeta in *. set (w2 := foldl compactSpace w1 spaces) in *.
  rewrite Hrs in Hn2.
  split_and!.
  - rewrite Hn2, Hn1. lia.
  - rewrite fmap_cons. cbn [tight].
    rewrite (Hother2 space Hnotin), Hr1. simpl. split_and!; [done | done |].
    by rewrite <- Hn1.
  - intros o Ho. apply not_elem_of_cons in Ho as [Hne Ho].
    rewrite (Hother2 o Ho). by apply Hother.
  - intros o. by rewrite Hnum2, Hnum1.
  - congruence.
  - congruence.
  - congruence.
Qed.

(** The walk copies the list pointers of each zone space to its new
    slots. *)

Lemma compactZone_lists oldStart newStart w n :
  newZoneLists (compactZone oldStart newStart w n)
  = <[Z.to_nat (u32_add newStart n)
      := zoneListAt (cw_state w) (u32_add oldStart n)]> (newZoneLists w)
  ∧ mZoneLists (cw_state (compactZone oldStart newStart w n))
    = mZoneLists (cw_state w).
Proof. unfold compactZone. cbv zeta. by case_match. Qed.

Lemma compactZones_inner_lists oldStart newStart old (len : nat) :
  ∀ a w,
    mZoneLists (cw_state w) = old →
    0 ≤ a → 0 ≤ newStart → 0 ≤ oldStart →
    newStart + a + Z.of_nat len ≤ Z.of_nat (length (newZoneLists w)) →
    newStart + a + Z.of_nat len < U32_modulus →
    oldStart + a + Z.of_nat len < U32_modulus →
    let w' := foldl (compactZone oldStart newStart) w (seqZ a (Z.of_nat len)) in
    mZoneLists (cw_state w') = old
    ∧ length (newZoneLists w') = length (newZoneLists w)
    ∧ (∀ j, a ≤ j < a + Z.of_nat len →
         newZoneLists w' !! Z.to_nat (newStart + j)
         = Some (mjoin (old !! Z.to_nat (oldStart + j))))
    ∧ (∀ i, (i < Z.to_nat (newStart + a))%nat
            ∨ (Z.to_nat (newStart + a + Z.of_nat len) ≤ i)%nat →
         newZoneLists w' !! i = newZoneLists w !! i).
Proof.
  induction len as [|len IH]; intros a w Hold Ha Hnew Hold0 Hfit Hn Ho.
  { rewrite seqZ_nil by lia. simpl. split_and!; try done. lia. }
  rewrite seqZ_cons by lia. simpl.
  destruct (compactZone_lists oldStart newStart w a) as [Hnl Hml].
  set (w1 := compactZone oldStart newStart w a) in *.
  unfold u32_add in Hnl. rewrite !u32_small in Hnl by lia.
  assert (length (newZoneLists w1) = length (newZoneLists w)) as Hlen
    by (by rewrite Hnl, length_insert).
  replace (Z.pred (Z.of_nat (S len))) with (Z.of_nat len) by lia.
  destruct (IH (Z.succ a) w1) as (H1 & H2 & H3 & H4); try lia.
  { by rewrite Hml. }
  cbv zeta in *. split_and!.
  - done.
  - lia.
  - intros j Hj. destruct (decide (j = a)) as [->|Hne].
    + rewrite H4 by lia. rewrite Hnl, list_lookup_insert_eq by lia.
      unfold zoneListAt. by rewrite Hold.
    + apply H3. lia.
  - intros i Hi. rewrite H4 by lia. rewrite Hnl.
    apply list_lookup_insert_ne. lia.
Qed.

Lemma zoneListAt_ext s t z :
  mZoneLists s = mZoneLists t → zoneListAt s z = zoneListAt t z.
Proof. unfold zoneListAt. by intros ->. Qed.

Lemma compact_walk_lists spaces w :
  NoDup spaces →
  0 ≤ nextZoneId w →
  (∀ o, o ∈ spaces →
        0 ≤ mNumZones (getObj (cw_state w) o)
        ∧ 0 ≤ mZoneRangeStart (getObj (cw_state w) o)
        ∧ mZoneRangeStart (getObj (cw_state w) o)
          + mNumZones (getObj (cw_state w) o) < U32_modulus) →
  nextZoneId w + sumRanges (zoneRange (cw_state w) <$> spaces) < U32_modulus →
  nextZoneId w + sumRanges (zoneRange (cw_state w) <$> spaces)
  ≤ Z.of_nat (length (newZoneLists w)) →
  let w' := foldl compactSpace w spaces in
  length (newZoneLists w') = length (newZoneLists w)
  ∧ mZoneLists (cw_state w') = mZoneLists (cw_state w)
  ∧ (∀ o k, o ∈ spaces → 0 ≤ k < mNumZones (getObj (cw_state w) o) →
       newZoneLists w' !! Z.to_nat (mZoneRangeStart (getObj (cw_state w') o) + k)
       = Some (zoneListAt (cw_state w)
                 (mZoneRangeStart (getObj (cw_state w) o) + k)))
  ∧ (∀ i, (i < Z.to_nat (nextZoneId w))%nat →
       newZoneLists w' !! i = newZoneLists w !! i).
Proof.
  revert w. induction spaces as [|space spaces IH];
    intros w Hnd Hnext Hobj Hfit Hroom.
  { simpl. split_and!; try done. intros o k Ho. by apply elem_of_nil in Ho. }
  apply NoDup_cons in Hnd as [Hnotin Hnd].
  rewrite fmap_cons, sumRanges_cons in Hfit, Hroom.
  cbn [foldl zoneRange fst snd] in Hfit, Hroom |- *.
  destruct (Hobj space) as (Hn0 & Hs0 & Hs1); [left|].
  assert (0 ≤ sumRanges (zoneRange (cw_state w) <$> spaces)) as Hsum0.
  { apply sumRanges_nonneg. intros o Ho. apply Hobj. by right. }
  destruct (compactSpace_spec w space)
    as (Hn1 & Hr1 & Hother & _).
  cbv zeta in Hn1, Hr1, Hother.
  unfold u32_add in Hn1. rewrite u32_small in Hn1 by lia.
  (* the lists written for [space] *)
  assert (mZoneLists (cw_state (compactSpace w space)) = mZoneLists (cw_state w)
          ∧ length (newZoneLists (compactSpace w space))
            = length (newZoneLists w)
          ∧ (∀ j, 0 ≤ j < mNumZones (getObj (cw_state w) space) →
               newZoneLists (compactSpace w space)
                 !! Z.to_nat (nextZoneId w + j)
               = Some (zoneListAt (cw_state w)
                         (mZoneRangeStart (getObj (cw_state w) space) + j)))
          ∧ (∀ i, (i < Z.to_nat (nextZoneId w))%nat →
               newZoneLists (compactSpace w space) !! i = newZoneLists w !! i))
    as (Hml1 & Hlen1 & Hset1 & Hkeep1).
  { unfold compactSpace. cbv zeta.
    set (num := mNumZones (getObj (cw_state w) space)) in *.
    set (start := mZoneRangeStart (getObj (cw_state w) space)) in *.
    match goal with
    | |- context [foldl (compactZone _ _) ?w0 _] => set (w0' := w0)
    end.
    destruct (compactZones_inner_lists start (nextZoneId w)
                (mZoneLists (cw_state w)) (Z.to_nat num) 0 w0')
      as (H1 & H2 & H3 & H4); try (rewrite ?Z2Nat.id by lia; simpl; lia).
    { done. }
    rewrite Z2Nat.id in H1, H2, H3, H4 by lia. cbv zeta in *.
    split_and!;
      [ done | done
      | intros j Hj; rewrite H3 by lia; done
      | intros i Hi; rewrite H4 by lia; done ]. }
  set (w1 := compactSpace w space) in *.
  assert (∀ o, o ∈ spaces → getObj (cw_state w1) o = getObj (cw_state w) o
                            ∨ zoneRange (cw_state w1) o = zoneRange (cw_state w) o)
    as _ by (intros; right; apply Hother; intros ->; done).
  assert (∀ o, o ∈ spaces → zoneRange (cw_state w1) o = zoneRange (cw_state w) o)
    as Hsame by (intros o Ho; apply Hother; intros ->; done).
  assert (zoneRange (cw_state w1) <$> spaces = zoneRange (cw_state w) <$> spaces)
    as Hrs.
  { apply list_fmap_ext. intros _ o Ho%list_elem_of_lookup_2. by apply Hsame. }
  assert (∀ o, o ∈ spaces →
               0 ≤ mNumZones (getObj (cw_state w1) o)
               ∧ 0 ≤ mZoneRangeStart (getObj (cw_state w1) o)
               ∧ mZoneRangeStart (getObj (cw_state w1) o)
                 + mNumZones (getObj (cw_state w1) o) < U32_modulus) as Hobj1.
  { intros o Ho. pose proof (Hsame o Ho) as Heq. unfold zoneRange in Heq.
    injection Heq as -> ->. apply Hobj. by right. }
  destruct (IH w1) as (Hlen2 & Hml2 & Hset2 & Hkeep2);
    [done | lia | done | rewrite Hrs; lia | rewrite Hrs; lia |].
  destruct (compact_walk spaces w1) as (_ & _ & Hother2 & _);
    [done | lia | by intros o Ho; apply Hobj1 | rewrite Hrs; lia |].
  cbv zeta in *. set (w2 := foldl compactSpace w1 spaces) in *.
  split_and!.
  - congruence.
  - congruence.
  - intros o k [->|Ho]%elem_of_cons Hk.
    + pose proof (Hother2 space Hnotin) as E. rewrite Hr1 in E.
      unfold zoneRange in E. injection E as -> _.
      rewrite Hkeep2 by lia. by apply Hset1.
    + pose proof (Hsame o Ho) as Heq. unfold zoneRange in Heq.
      injection Heq as Hst Hnum.
      rewrite Hset2; [| done | by rewrite Hnum].
      rewrite Hst. f_equal. by apply zoneListAt_ext.
  - intros i Hi. rewrite Hkeep2 by lia. by apply Hkeep1.
Qed.

(** ** The allocation invariant *)

Lemma alloc_inv_nonneg s o :
  alloc_inv s → o ∈ mZoneSpaces s → 0 ≤ mNumZones (getObj s o).
Proof.
  intros (_ & Hc & _) Ho.
  apply (chain_nonneg _ _ _ (zoneRange s o) Hc).
  by apply list_elem_of_fmap_2.
Qed.

Lemma alloc_inv_active_le s :
  alloc_inv s → 0 ≤ mNumActiveZones s ≤ mNumTotalAllocatedZones s.
Proof.
  intros Hinv. pose proof Hinv as (_ & Hc & _ & ->).
  split; [|by apply chain_sum in Hc].
  apply sumRanges_nonneg. intros o. by apply alloc_inv_nonneg.
Qed.

Lemma compactZones_spec s :
  alloc_inv s →
  let s' := compactZones s in
  mRootZone s' = mRootZone s
  ∧ mZoneSpaces s' = mZoneSpaces s
  ∧ mNumActiveZones s' = mNumActiveZones s
  ∧ mNumTotalAllocatedZones s' = mNumActiveZones s
  ∧ tight 0 (ranges s') (mNumTotalAllocatedZones s')
  ∧ (∀ o, mNumZones (getObj s' o) = mNumZones (getObj s o))
  ∧ (∀ o, o ∉ mZoneSpaces s → zoneRange s' o = zoneRange s o).
Proof.
  intros Hinv s'. pose proof (alloc_inv_active_le s Hinv) as Hle.
  pose proof Hinv as (Hnd & Hc & Hlt & Hact).
  set (w0 := mkCompactWalk s 0
               (replicate (Z.to_nat (mNumActiveZones s)) None)).
  destruct (compact_walk (mZoneSpaces s) w0)
    as (Hn & Ht & Hother & Hnum & Hroot & Hsp & Hact');
    [done | done | by intros o; apply alloc_inv_nonneg | | ].
  { simpl. fold (ranges s). lia. }
  cbv zeta in *. simpl in Hn, Hother, Hnum, Hroot, Hsp, Hact'.
  fold (ranges s) in Hn. rewrite Z.add_0_l, <- Hact in Hn.
  subst s'. unfold compactZones. cbv zeta. fold w0.
  set (w := foldl compactSpace w0 (mZoneSpaces s)) in *.
  split_and!; try done.
  unfold ranges. simpl. rewrite Hsp. exact Ht.
Qed.

(** What the compaction gets right of C1: each zone space's lists are at
    its new slots afterwards ([compactZones_spec] has the new ranges and the
    counts). *)
Lemma compactZones_relocates_lists s o k :
  alloc_inv s →
  o ∈ mZoneSpaces s →
  0 ≤ k < mNumZones (getObj s o) →
  zoneListAt (compactZones s) ((zoneRange (compactZones s) o).1 + k)
  = zoneListAt s ((zoneRange s o).1 + k).
Proof.
  intros Hinv Ho Hk. pose proof (alloc_inv_active_le s Hinv) as Hle.
  pose proof Hinv as (Hnd & Hc & Hlt & Hact).
  set (w0 := mkCompactWalk s 0
               (replicate (Z.to_nat (mNumActiveZones s)) None)).
  destruct (compact_walk_lists (mZoneSpaces s) w0) as (_ & _ & Hset & _).
  - done.
  - done.
  - intros o' Ho'. simpl.
    destruct (chain_bounds _ _ _ (zoneRange s o') Hc) as [Hb1 Hb2];
      [by apply list_elem_of_fmap_2|].
    pose proof (alloc_inv_nonneg s o' Hinv Ho'). simpl in Hb1, Hb2.
    split_and!; [done | done | lia].
  - simpl. fold (ranges s). lia.
  - simpl. fold (ranges s). rewrite length_replicate. lia.
  - cbv zeta in Hset. specialize (Hset o k Ho Hk). simpl in Hset.
    unfold compactZones. cbv zeta. fold w0.
    set (w := foldl compactSpace w0 (mZoneSpaces s)) in *.
    unfold zoneListAt at 1. simpl.
    change (getObj (set_mZoneLists (newZoneLists w)
              (set_mNumTotalAllocatedZones (nextZoneId w) (cw_state w))) o)
      with (getObj (cw_state w) o).
    by rewrite Hset.
Qed.

Lemma compactZones_inv s : alloc_inv s → alloc_inv (compactZones s).
Proof.
  intros Hinv. pose proof (alloc_inv_active_le s Hinv) as Hle.
  destruct (compactZones_spec s Hinv) as (_ & Hsp & Hact & Htot & Ht & _).
  pose proof Hinv as (Hnd & _ & Hlt & _).
  split_and!.
  - by rewrite Hsp.
  - by apply tight_chain.
  - lia.
  - apply tight_sum in Ht. lia.
Qed.

Lemma compactZonesCheck_inv s :
  alloc_inv s →
  let s' := _compactZonesCheck s in
  alloc_inv s'
  ∧ mRootZone s' = mRootZone s
  ∧ mZoneSpaces s' = mZoneSpaces s
  ∧ mNumTotalAllocatedZones s' ≤ mNumTotalAllocatedZones s
  ∧ (∀ o, mNumZones (getObj s' o) = mNumZones (getObj s o))
  ∧ (∀ o, o ∉ mZoneSpaces s → zoneRange s' o = zoneRange s o).
Proof.
  intros Hinv s'. subst s'. unfold _compactZonesCheck.
  case_bool_decide; [split_and!; done || lia|].
  pose proof (alloc_inv_active_le s Hinv) as Hle.
  destruct (compactZones_spec s Hinv) as (? & ? & ? & ? & _ & ? & ?).
  split_and!; try done; [by apply compactZones_inv | lia].
Qed.

(** ** Registration *)

Lemma assignZoneRange_spec object numZones s :
  let s' := assignZoneRange object numZones s in
  mRootZone s' = mRootZone s
  ∧ mZoneSpaces s' = mZoneSpaces s
  ∧ mNumTotalAllocatedZones s'
    = u32_add (mNumTotalAllocatedZones s) numZones
  ∧ mNumActiveZones s' = u32_add (mNumActiveZones s) numZones
  ∧ zoneRange s' object = (mNumTotalAllocatedZones s, numZones)
  ∧ ∀ o, o ≠ object → zoneRange s' o = zoneRange s o.
Proof.
  intros s'. subst s'. unfold assignZoneRange, zoneRange. cbv zeta.
  split_and!; try done.
  - by rewrite !getObj_updObj_eq.
  - intros o Hne. by rewrite !getObj_updObj_ne.
Qed.

Lemma enlistZoneSpace_spec object s :
  let s' := enlistZoneSpace object s in
  mRootZone s' = mRootZone s
  ∧ mZoneSpaces s' = mZoneSpaces s ++ [object]
  ∧ mNumTotalAllocatedZones s' = mNumTotalAllocatedZones s
  ∧ mNumActiveZones s' = mNumActiveZones s
  ∧ ∀ o, zoneRange s' o = zoneRange s o.
Proof.
  intros s'. subst s'. unfold enlistZoneSpace. cbv zeta.
  set (s1 := updObj object _ (set_mZoneSpaces _ s)).
  assert (∀ o, zoneRange s1 o = zoneRange s o) as Hr1.
  { intros o. subst s1. unfold zoneRange. rewrite getObj_updObj.
    by case_decide; subst. }
  destruct (isRootZone (getObj s1 object)); [done|].
  destruct (rf_notifyObjectChanged object
              (updObj object (set_mZoneRefDirty false) s1))
    as (-> & -> & -> & -> & Hr).
  split_and!; try done.
  intros o. rewrite Hr, <- Hr1. unfold zoneRange. rewrite getObj_updObj.
  by case_decide; subst.
Qed.

Lemma registerZones_spec object numZones s :
  alloc_inv s →
  object ∉ mZoneSpaces s →
  0 ≤ numZones →
  mNumTotalAllocatedZones s + numZones < U32_modulus →
  let sc := _compactZonesCheck s in
  let s' := registerZones object numZones s in
  alloc_inv s'
  ∧ mRootZone s' = mRootZone s
  ∧ mZoneSpaces s' = mZoneSpaces s ++ [object]
  ∧ mNumTotalAllocatedZones s' = mNumTotalAllocatedZones sc + numZones
  ∧ zoneRange s' object = (mNumTotalAllocatedZones sc, numZones)
  ∧ ∀ o, o ≠ object → zoneRange s' o = zoneRange sc o.
Proof.
  intros Hinv Hnew Hn Hfit sc s'.
  destruct (compactZonesCheck_inv s Hinv) as (Hinvc & Hrootc & Hspc & Hle & _).
  fold sc in Hinvc, Hrootc, Hspc, Hle.
  pose proof (alloc_inv_active_le sc Hinvc) as Hact.
  pose proof Hinvc as (Hnd & Hc & Hlt & Hsum).
  assert (0 ≤ mNumTotalAllocatedZones sc) as Htot0 by lia.
  subst s'. unfold registerZones. cbv zeta. fold sc.
  destruct (assignZoneRange_spec object numZones sc)
    as (Hr1 & Hs1 & Ht1 & Ha1 & Ho1 & Hx1).
  set (s1 := assignZoneRange object numZones sc) in *.
  destruct (rf_allocZoneLists object (mNumTotalAllocatedZones sc) numZones s1)
    as (Hr2 & Hs2 & Ht2 & Ha2 & Hx2).
  set (s2 := allocZoneLists object (mNumTotalAllocatedZones sc) numZones s1) in *.
  destruct (enlistZoneSpace_spec object s2) as (Hr3 & Hs3 & Ht3 & Ha3 & Hx3).
  set (s3 := enlistZoneSpace object s2) in *.
  unfold u32_add in Ht1, Ha1. rewrite u32_small in Ht1, Ha1 by lia.
  assert (∀ o, o ≠ object → zoneRange s3 o = zoneRange sc o) as Hother.
  { intros o Hne. by rewrite Hx3, Hx2, Hx1. }
  assert (zoneRange s3 object = (mNumTotalAllocatedZones sc, numZones)) as Hobj.
  { by rewrite Hx3, Hx2, Ho1. }
  assert (ranges s3 = ranges sc ++ [(mNumTotalAllocatedZones sc, numZones)])
    as Hranges.
  { unfold ranges. rewrite Hs3, Hs2, Hs1, fmap_app. simpl. rewrite Hobj.
    f_equal. apply list_fmap_ext. intros _ o Ho%list_elem_of_lookup_2.
    apply Hother. intros ->. apply Hnew. by rewrite <- Hspc. }
  split; [|split_and!; congruence || done].
  unfold alloc_inv. split_and!.
  - rewrite Hs3, Hs2, Hs1, Hspc. apply NoDup_app. split_and!.
    + by rewrite <- Hspc.
    + intros o Ho [->|Hin%elem_of_nil]%elem_of_cons; done.
    + apply NoDup_singleton.
  - rewrite Hranges, Ht3, Ht2, Ht1. eapply chain_app; [exact Hc|].
    simpl. lia.
  - lia.
  - rewrite Hranges, sumRanges_app, Ha3, Ha2, Ha1, Hsum.
    rewrite sumRanges_cons. simpl. unfold sumRanges. simpl. lia.
Qed.

(** ** Unregistration *)

Lemma indexOf_elem_of object l i :
  object ∈ l →
  ∃ l1 l2, l = l1 ++ object :: l2 ∧ (object ∉ l1)
           ∧ indexOf object l i = i + Z.of_nat (length l1).
Proof.
  revert i. induction l as [|x l IH]; intros i Hin.
  - by apply elem_of_nil in Hin.
  - simpl. case_bool_decide as Hx.
    + subst x. exists [], l. split_and!; [done | apply not_elem_of_nil | simpl; lia].
    + apply elem_of_cons in Hin as [->|Hin]; [done|].
      destruct (IH (i + 1) Hin) as (l1 & l2 & -> & Hnot & ->).
      exists (x :: l1), l2. split_and!; [done | | simpl; lia].
      apply not_elem_of_cons. split; [congruence | done].
Qed.

Lemma indexOf_not_elem_of object l i :
  0 ≤ i → (indexOf object l i = -1 ↔ object ∉ l).
Proof.
  revert i. induction l as [|x l IH]; intros i Hi; simpl.
  - split; [intros _; apply not_elem_of_nil | done].
  - case_bool_decide as Hx.
    + subst x. split; [lia|]. intros Hnot. exfalso. apply Hnot. left.
    + rewrite IH by lia. rewrite not_elem_of_cons. split; [|tauto].
      intros ?. split; [congruence | done].
Qed.

Lemma delistZoneSpace_spec object index numZones s :
  let s' := delistZoneSpace object index numZones s in
  mRootZone s' = mRootZone s
  ∧ mZoneSpaces s'
    = (if bool_decide (0 ≤ index)
       then delete (Z.to_nat index) (mZoneSpaces s) else mZoneSpaces s)
  ∧ mNumTotalAllocatedZones s' = mNumTotalAllocatedZones s
  ∧ mNumActiveZones s' = u32_sub (mNumActiveZones s) numZones
  ∧ mZoneLists s' = mZoneLists s
  ∧ zoneRange s' object = (InvalidZoneId, 0)
  ∧ ∀ o, o ≠ object → zoneRange s' o = zoneRange s o.
Proof.
  intros s'. subst s'. unfold delistZoneSpace, zoneRange. cbv zeta.
  set (s1 := if bool_decide (0 ≤ index) then _ else _).
  assert (objects s1 = objects s) as Hobjs by (subst s1; by case_bool_decide).
  set (s4 := updObj object (set_mNumZones 0) _).
  split_and!; try (subst s1; by case_bool_decide).
  - rewrite (getObj_objects _ s4) by done. subst s4.
    by rewrite !getObj_updObj_eq.
  - intros o Hne. rewrite (getObj_objects _ s4) by done. subst s4.
    rewrite !getObj_updObj_ne by done. by rewrite (getObj_objects s1 s).
Qed.

Lemma unregisterZones_spec object s :
  alloc_inv s →
  object ∈ mZoneSpaces s →
  let s' := unregisterZones object s in
  alloc_inv s'
  ∧ mRootZone s' = mRootZone s
  ∧ (∃ l1 l2, mZoneSpaces s = l1 ++ object :: l2
              ∧ mZoneSpaces s' = l1 ++ l2)
  ∧ mNumTotalAllocatedZones s' = mNumTotalAllocatedZones s
  ∧ mNumActiveZones s'
    = mNumActiveZones s - mNumZones (getObj s object)
  ∧ mZoneLists s' = mZoneLists s
  ∧ ∀ o, o ≠ object → zoneRange s' o = zoneRange s o.
Proof.
  intros Hinv Hin s'.
  pose proof (alloc_inv_active_le s Hinv) as Hact.
  pose proof (alloc_inv_nonneg s object Hinv Hin) as Hn0.
  pose proof Hinv as (Hnd & Hc & Hlt & Hsum).
  destruct (indexOf_elem_of object (mZoneSpaces s) 0 Hin)
    as (l1 & l2 & Hsp & Hnot1 & Hidx).
  subst s'. unfold unregisterZones. cbv zeta. unfold _getZoneSpaceIndex.
  rewrite Hidx, Z.add_0_l.
  set (start := mZoneRangeStart (getObj s object)).
  set (num := mNumZones (getObj s object)) in *.
  destruct (rf_destroyZoneLists start num s) as [(Hr1 & Hs1 & Ht1 & Ha1 & Hx1) Hl1].
  set (s1 := destroyZoneLists start num s) in *.
  destruct (delistZoneSpace_spec object (Z.of_nat (length l1)) num s1)
    as (Hr2 & Hs2 & Ht2 & Ha2 & Hl2 & _ & Hx2).
  set (s2 := delistZoneSpace object (Z.of_nat (length l1)) num s1) in *.
  rewrite bool_decide_eq_true_2 in Hs2 by lia.
  rewrite Nat2Z.id, Hs1, Hsp, delete_middle in Hs2.
  rewrite Hsp in Hnd. apply NoDup_app in Hnd as (Hnd1 & Hdisj & Hnd2).
  apply NoDup_cons in Hnd2 as [Hnot2 Hnd2].
  assert (∀ o, o ≠ object → zoneRange s2 o = zoneRange s o) as Hother.
  { intros o Hne. by rewrite Hx2, Hx1. }
  assert (ranges s = (zoneRange s <$> l1) ++ zoneRange s object
                       :: (zoneRange s <$> l2)) as Hrs.
  { unfold ranges. by rewrite Hsp, fmap_app, fmap_cons. }
  assert (ranges s2 = (zoneRange s <$> l1) ++ (zoneRange s <$> l2)) as Hrs2.
  { unfold ranges. rewrite Hs2, fmap_app.
    f_equal; apply list_fmap_ext; intros _ o Ho%list_elem_of_lookup_2;
      apply Hother; intros ->; done. }
  assert (sumRanges (ranges s2) = sumRanges (ranges s) - num) as Hsum2.
  { rewrite Hrs, Hrs2, !sumRanges_app, sumRanges_cons. simpl. fold num. lia. }
  assert (chain 0 (ranges s2) (mNumTotalAllocatedZones s)) as Hc2.
  { rewrite Hrs2. apply (chain_delete _ _ (zoneRange s object)).
    by rewrite <- Hrs. }
  assert (0 ≤ sumRanges (ranges s2)) as Hsum0.
  { unfold ranges. apply sumRanges_nonneg. intros o Ho.
    assert (o ≠ object) as Hne.
    { intros ->. rewrite Hs2 in Ho. apply elem_of_app in Ho as [?|?]; done. }
    pose proof (Hother o Hne) as Heq. apply (f_equal snd) in Heq.
    simpl in Heq. rewrite Heq. apply (alloc_inv_nonneg s o Hinv).
    rewrite Hsp. rewrite Hs2 in Ho.
    apply elem_of_app in Ho as [?|?]; apply elem_of_app; [by left|].
    right. by right. }
  assert (mNumActiveZones s2 = mNumActiveZones s - num) as Hact2.
  { rewrite Ha2, Ha1. unfold u32_sub. apply u32_small. lia. }
  split; [|split_and!; congruence || done || by exists l1, l2].
  unfold alloc_inv. split_and!.
  - rewrite Hs2. apply NoDup_app. split_and!; [done | | done].
    intros o Ho1 Ho2. apply (Hdisj o Ho1). by right.
  - by rewrite Ht2, Ht1.
  - lia.
  - lia.
Qed.

(** ** The invariant along sequences of operations *)

Lemma alloc_inv_newManager root heap : alloc_inv (newManager root heap).
Proof.
  unfold alloc_inv, ranges. simpl.
  split_and!; [apply NoDup_nil_2 | lia | done | done].
Qed.

Lemma opAllowed_register object numZones s :
  opAllowed (OpRegisterZones object numZones) s = true →
  (object ∉ mZoneSpaces s) ∧ 0 ≤ numZones
  ∧ mNumTotalAllocatedZones s + numZones < U32_modulus.
Proof.
  simpl. intros [[H1 H2]%andb_prop H3]%andb_prop.
  apply bool_decide_eq_true in H1, H2, H3.
  split_and!; [|done..]. by apply (indexOf_not_elem_of object _ 0).
Qed.

Lemma opAllowed_unregister object s :
  opAllowed (OpUnregisterZones object) s = true → object ∈ mZoneSpaces s.
Proof.
  simpl. intros H%bool_decide_eq_true.
  destruct (decide (object ∈ mZoneSpaces s)) as [|Hnot]; [done|].
  exfalso. apply H. by apply indexOf_not_elem_of.
Qed.

Lemma applyOp_inv op s :
  alloc_inv s → opAllowed op s = true → alloc_inv (applyOp op s).
Proof.
  intros Hinv Hop. destruct op as [object numZones|object|].
  - apply opAllowed_register in Hop as (? & ? & ?).
    by apply registerZones_spec.
  - apply opAllowed_unregister in Hop. by apply unregisterZones_spec.
  - by apply compactZonesCheck_inv.
Qed.

Lemma runOps_inv ops s :
  alloc_inv s → opsAllowed ops s = true → alloc_inv (runOps ops s).
Proof.
  revert s. induction ops as [|op ops IH]; intros s Hinv Hops; [done|].
  simpl in Hops |- *. apply andb_prop in Hops as [Hop Hops].
  apply IH; [by apply applyOp_inv | done].
Qed.

Lemma ranges_lookup s i o :
  mZoneSpaces s !! i = Some o → ranges s !! i = Some (zoneRange s o).
Proof. intros H. unfold ranges. by rewrite list_lookup_fmap, H. Qed.

(** Under the invariant two registered zone spaces have disjoint ranges. *)
Lemma alloc_inv_disjoint s a b :
  alloc_inv s → a ∈ mZoneSpaces s → b ∈ mZoneSpaces s → a ≠ b →
  (zoneRange s a).1 + (zoneRange s a).2 ≤ (zoneRange s b).1
  ∨ (zoneRange s b).1 + (zoneRange s b).2 ≤ (zoneRange s a).1.
Proof.
  intros (_ & Hc & _) [i Hi]%list_elem_of_lookup [j Hj]%list_elem_of_lookup Hne.
  destruct (decide (i < j)%nat) as [Hlt|Hge].
  - left. eapply chain_ordered; eauto using ranges_lookup.
  - right. assert (j < i)%nat as Hlt.
    { destruct (decide (i = j)) as [->|]; [congruence | lia]. }
    eapply chain_ordered; eauto using ranges_lookup.
Qed.

Lemma alloc_inv_bounds s a :
  alloc_inv s → a ∈ mZoneSpaces s →
  0 ≤ (zoneRange s a).1
  ∧ (zoneRange s a).1 + (zoneRange s a).2 ≤ mNumTotalAllocatedZones s.
Proof.
  intros (_ & Hc & _) Ha.
  apply (chain_bounds _ _ _ (zoneRange s a) Hc). by apply list_elem_of_fmap_2.
Qed.

(** C3 (amended).  After any sequence of [registerZones], [unregisterZones]
    and compaction checks on a new manager (each registration of an object
    not yet registered and with the allocated count staying below [2^32],
    each unregistration of a registered one), the ID
    ranges of two distinct registered zone spaces do not overlap and every
    range lies inside [[0, totalAllocated)]; the ranges cover
    [[0, totalAllocated)] when the active count equals the allocated
    count, and a compaction makes the two counts equal. *)
Theorem zone_ranges_disjoint root heap ops :
  opsAllowed ops (newManager root heap) = true →
  let s := runOps ops (newManager root heap) in
  (∀ a b, a ∈ mZoneSpaces s → b ∈ mZoneSpaces s → a ≠ b →
     (zoneRange s a).1 + (zoneRange s a).2 ≤ (zoneRange s b).1
     ∨ (zoneRange s b).1 + (zoneRange s b).2 ≤ (zoneRange s a).1)
  ∧ (∀ a, a ∈ mZoneSpaces s →
       0 ≤ (zoneRange s a).1
       ∧ (zoneRange s a).1 + (zoneRange s a).2 ≤ mNumTotalAllocatedZones s)
  ∧ (mNumActiveZones s = mNumTotalAllocatedZones s →
     ∀ z, 0 ≤ z < mNumTotalAllocatedZones s →
       ∃ a, a ∈ mZoneSpaces s
            ∧ (zoneRange s a).1 ≤ z < (zoneRange s a).1 + (zoneRange s a).2)
  ∧ mNumActiveZones (compactZones s)
    = mNumTotalAllocatedZones (compactZones s).
Proof.
  intros Hops s.
  assert (alloc_inv s) as Hinv
    by (apply runOps_inv; [apply alloc_inv_newManager | done]).
  split_and!; [| | |by destruct (compactZones_spec s Hinv) as (_&_&->&->&_)].
  - intros a b. by apply alloc_inv_disjoint.
  - intros a. by apply alloc_inv_bounds.
  - intros Hfull z Hz. pose proof Hinv as (_ & Hc & _ & Hact).
    assert (tight 0 (ranges s) (mNumTotalAllocatedZones s)) as Ht
      by (apply chain_tight; [done | lia]).
    destruct (tight_cover _ _ _ z Ht Hz) as (r & Hr & Hzr).
    apply list_elem_of_fmap in Hr as (a & -> & Ha). by exists a.
Qed.


(** ** The root zone *)

Lemma root_first_compactZonesCheck root s :
  root_first root s → root_first root (_compactZonesCheck s).
Proof.
  intros (Hinv & Hhead & Hrange).
  destruct (compactZonesCheck_inv s Hinv) as (Hinv' & _ & Hsp & _ & Hnum & _).
  split_and!; [done | by rewrite Hsp |].
  unfold _compactZonesCheck in *. case_bool_decide; [done|].
  destruct (compactZones_spec s Hinv) as (_ & Hsp' & _ & _ & Ht & Hnum' & _).
  unfold ranges in Ht. rewrite Hsp' in Ht.
  destruct (mZoneSpaces s) as [|x rest]; [done|]. injection Hhead as ->.
  simpl in Ht. destruct Ht as (Hstart & _).
  unfold zoneRange in *. rewrite Hnum'. simpl in Hstart.
  injection Hrange as _ ->. by rewrite Hstart.
Qed.

Lemma root_first_applyOp root op s :
  root_first root s → opAllowed op s = true → isUnregisterOf root op = false →
  root_first root (applyOp op s).
Proof.
  intros Hroot Hop Hkeep. pose proof Hroot as (Hinv & Hhead & Hrange).
  destruct op as [object numZones|object|]; simpl.
  - apply opAllowed_register in Hop as (Hnew & ? & ?).
    destruct (registerZones_spec object numZones s)
      as (Hinv' & _ & Hsp & _ & _ & Hother); [done..|].
    destruct (root_first_compactZonesCheck root s Hroot) as (_ & _ & Hrange').
    assert (root ≠ object) as Hne.
    { intros ->. apply Hnew. destruct (mZoneSpaces s); [done|].
      injection Hhead as ->. left. }
    split_and!; [done | | by rewrite Hother].
    rewrite Hsp. by destruct (mZoneSpaces s).
  - apply opAllowed_unregister in Hop.
    simpl in Hkeep. apply bool_decide_eq_false in Hkeep.
    destruct (unregisterZones_spec object s Hinv Hop)
      as (Hinv' & _ & (l1 & l2 & Hsp & Hsp') & _ & _ & _ & Hother).
    split_and!; [done | | by rewrite Hother].
    rewrite Hsp'. rewrite Hsp in Hhead.
    destruct l1 as [|x l1]; simpl in *; [congruence | done].
  - by apply root_first_compactZonesCheck.
Qed.

(** C2 (amended).  [registerZones] puts the root zone on the zone space list
    like every other zone space, and the compaction walk visits it.  When
    the root zone is the first zone space registered on a new manager, with
    one zone, and is never unregistered, then after any sequence of
    registrations, unregistrations and compaction checks of other zone
    spaces it is still the first entry of the list and its range is
    [[0, 1)]: a compaction assigns it the start 0 again. *)
Theorem root_zone_range_pinned root heap ops :
  let s0 := registerZones root 1 (newManager root heap) in
  opsAllowed ops s0 = true →
  forallb (λ op, negb (isUnregisterOf root op)) ops = true →
  let s := runOps ops s0 in
  head (mZoneSpaces s) = Some root
  ∧ zoneRange s root = (0, 1)
  ∧ zoneRange (compactZones s) root = (0, 1).
Proof.
  intros s0 Hops Hkeep s.
  assert (root_first root s0) as H0.
  { destruct (registerZones_spec root 1 (newManager root heap))
      as (Hinv & _ & Hsp & _ & Hrange & _);
      [apply alloc_inv_newManager | apply not_elem_of_nil | lia | done |].
    fold s0 in Hinv, Hsp, Hrange.
    split_and!; [done | by rewrite Hsp | by rewrite Hrange]. }
  assert (root_first root s) as (Hinv & Hhead & Hrange).
  { subst s. clearbody s0. revert s0 H0 Hops.
    induction ops as [|op ops IH]; intros s0 H0 Hops; [done|].
    simpl in Hops, Hkeep |- *.
    apply andb_prop in Hops as [Hop Hops].
    apply andb_prop in Hkeep as [Hk Hkeep].
    apply IH; [done | | done].
    apply root_first_applyOp; [done | done | by destruct (isUnregisterOf root op)]. }
  split_and!; [done | done |].
  destruct (compactZones_spec s Hinv) as (_ & Hsp' & _ & _ & Ht & Hnum' & _).
  unfold ranges in Ht. rewrite Hsp' in Ht.
  destruct (mZoneSpaces s) as [|x rest]; [done|]. injection Hhead as ->.
  simpl in Ht. destruct Ht as (Hstart & _).
  unfold zoneRange in *. rewrite Hnum'. simpl in Hstart.
  injection Hrange as _ ->. by rewrite Hstart.
Qed.

(** ** The zone space list *)

(** X1.  [_getZoneSpaceIndex] returns -1 exactly when the object is not on
    the zone space list; otherwise it returns an index inside the list, the
    entry there is the object, and no earlier entry is.  The index is
    returned as an [S32], which holds it for lists of fewer than [2^31]
    entries. *)
Theorem getZoneSpaceIndex_first_occurrence s object :
  Z.of_nat (length (mZoneSpaces s)) < 2 ^ 31 →
  let i := _getZoneSpaceIndex s object in
  (i = -1 ↔ object ∉ mZoneSpaces s)
  ∧ (i ≠ -1 →
       0 ≤ i < Z.of_nat (length (mZoneSpaces s))
       ∧ mZoneSpaces s !! Z.to_nat i = Some object
       ∧ ∀ j, (j < Z.to_nat i)%nat → mZoneSpaces s !! j ≠ Some object).
Proof.
  intros _ i. subst i. unfold _getZoneSpaceIndex.
  split; [by apply indexOf_not_elem_of|].
  intros Hi.
  assert (object ∈ mZoneSpaces s) as Hin.
  { destruct (decide (object ∈ mZoneSpaces s)) as [|Hn]; [done|].
    by apply (indexOf_not_elem_of object _ 0) in Hn. }
  destruct (indexOf_elem_of object (mZoneSpaces s) 0 Hin)
    as (l1 & l2 & Hl & Hnot & ->).
  rewrite Hl, length_app. simpl. rewrite Z.add_0_l, Nat2Z.id.
  split_and!; [lia | lia | |].
  - by rewrite lookup_app_r, Nat.sub_diag.
  - intros j Hj. rewrite lookup_app_l by done.
    intros Hx. apply Hnot. by eapply list_elem_of_lookup_2.
Qed.

(** ** The pool of zone object lists *)

Lemma getList_updList s l f l' :
  getList (updList l f s) l'
  = if decide (l = l') then f (getList s l) else getList s l'.
Proof.
  unfold getList, updList; simpl. rewrite lookup_insert.
  case_decide; subst; done.
Qed.

(** X3.  A list given back with [_freeZoneList] is the one the next
    [_allocZoneList] hands out: it comes back with the new zone space as its
    manager and without objects, the pool is as it was before the list was
    freed, and no other list, no vector slot and no object changed. *)
Theorem freeZoneList_allocZoneList_round_trip s list space :
  let r := _allocZoneList space (_freeZoneList list s) in
  r.1 = list
  ∧ getList r.2 list = mkZoneObjectList (Some space) []
  ∧ mZoneListPool r.2 = mZoneListPool s
  ∧ (∀ l, l ≠ list → getList r.2 l = getList s l)
  ∧ mZoneLists r.2 = mZoneLists s
  ∧ objects r.2 = objects s.
Proof.
  intros r. subst r. unfold _allocZoneList, _freeZoneList. cbv zeta. simpl.
  rewrite last_snoc. simpl. rewrite removelast_last.
  assert (∀ p t l, getList (set_mZoneListPool p t) l = getList t l) as Hp
    by done.
  split_and!; try done.
  - by rewrite Hp, getList_updList, decide_True, Hp, !getList_updList,
      !decide_True by done.
  - intros l Hne.
    by rewrite Hp, getList_updList, decide_False, Hp, !getList_updList,
      !decide_False by done.
Qed.

(** ** The dirty queues *)

(** X5.  [notifyObjectChanged] queues no object twice: when neither dirty
    queue holds an object twice and every queued object carries the dirty
    flag, the same is true after the call. *)
Theorem notifyObjectChanged_queues_once s object :
  dirty_inv s → dirty_inv (notifyObjectChanged object s).
Proof.
  intros (Ho & Hz & Hflag). unfold notifyObjectChanged.
  destruct (mZoneRefDirty (getObj s object)) eqn:Hd; [done|].
  assert ((object ∉ mDirtyObjects s) ∧ (object ∉ mDirtyZoneSpaces s))
    as [Hno Hnz].
  { split; intros Hin; [specialize (Hflag object (or_introl Hin))
                       | specialize (Hflag object (or_intror Hin))];
      congruence. }
  unfold dirty_inv.
  case_bool_decide as Hmask; [destruct (isZoneSpace (getObj s object))|];
    simpl; split_and!; try done.
  - apply NoDup_app. split_and!; [done | | apply NoDup_singleton].
    intros x Hx ->%list_elem_of_singleton. done.
  - intros o Hq. rewrite getObj_updObj. case_decide; [done|].
    apply Hflag. destruct Hq as [Hq|Hq]; [by left|].
    apply elem_of_app in Hq as [Hq| ->%list_elem_of_singleton]; [by right|done].
  - intros o Hq. rewrite getObj_updObj. case_decide; [done|]. by apply Hflag.
  - apply NoDup_app. split_and!; [done | | apply NoDup_singleton].
    intros x Hx ->%list_elem_of_singleton. done.
  - intros o Hq. rewrite getObj_updObj. case_decide; [done|].
    apply Hflag. destruct Hq as [Hq|Hq]; [|by right].
    apply elem_of_app in Hq as [Hq| ->%list_elem_of_singleton]; [by left|done].
Qed.

(** ** Rezoning writes one object *)

#[local] Instance others_kept_refl object : Reflexive (others_kept object).
Proof. by intros s o. Qed.

#[local] Instance others_kept_trans object : Transitive (others_kept object).
Proof. intros s t u Hst Htu o Hne. by rewrite Htu, Hst. Qed.

Lemma others_updObj object f s : others_kept object s (updObj object f s).
Proof. intros o Hne. by rewrite getObj_updObj_ne. Qed.

Lemma others_objects object s t : objects t = objects s → others_kept object s t.
Proof. intros Ho o _. by apply getObj_objects. Qed.

Lemma others_setObjectZoneList object zoneList s :
  others_kept object s (_setObjectZoneList object zoneList s).
Proof.
  unfold _setObjectZoneList. cbv zeta.
  etrans; [|apply others_updObj].
  repeat case_bool_decide; simpl.
  - etrans; [|apply others_updObj]. by apply others_objects.
  - etrans; [|apply others_updObj]. by apply others_objects.
  - by apply others_objects.
Qed.

Lemma others_zoneInsert object q s :
  others_kept object s (_zoneInsert object q s).
Proof.
  unfold _zoneInsert, commitObjectZones. cbv zeta.
  etrans; [|apply others_updObj].
  match goal with
  | |- others_kept _ _ (foldl _ ?t _) =>
      trans t;
      [|apply others_objects; apply foldl_notifyZoneAdd]
  end.
  etrans; [|case_bool_decide; [apply others_setObjectZoneList|reflexivity]].
  destruct (isOutsideOnly s object); [done|].
  destruct q; [done|]. by apply others_objects.
Qed.

Lemma others_zoneRemove obj fl s : others_kept obj s (_zoneRemove obj fl s).
Proof.
  unfold _zoneRemove. case_bool_decide; [done|]. cbv zeta.
  do 3 (etrans; [|apply others_updObj]).
  apply others_objects. simpl. apply foldl_notifyZoneRemove.
Qed.

Lemma others_rezoneObject object s :
  others_kept object s (_rezoneObject object s).
Proof.
  unfold _rezoneObject. cbv zeta.
  case_bool_decide; [apply others_zoneInsert|].
  destruct (isOutsideOnly s object); [apply others_updObj|].
  match goal with |- context [if ?b then _ else _] => destruct b end.
  - etrans; [|apply others_updObj]. by apply others_objects.
  - etrans; [|apply others_zoneInsert].
    etrans; [|apply others_zoneRemove]. by apply others_objects.
Qed.

Lemma zoneInsert_clean object q s :
  mZoneRefDirty (getObj (_zoneInsert object q s) object) = false.
Proof.
  unfold _zoneInsert. cbv zeta.
  match goal with
  | |- context [commitObjectZones object ?a ?t] =>
      destruct (commitObjectZones_object object a t) as [-> _]
  end.
  done.
Qed.

Lemma rezoneObject_clean object s :
  mZoneRefDirty (getObj (_rezoneObject object s) object) = false.
Proof.
  unfold _rezoneObject. cbv zeta.
  case_bool_decide; [apply zoneInsert_clean|].
  destruct (isOutsideOnly s object); [by rewrite getObj_updObj_eq|].
  match goal with |- context [if ?b then _ else _] => destruct b end.
  - by rewrite getObj_updObj_eq.
  - apply zoneInsert_clean.
Qed.

(** The last loop of the update pass leaves clean every object it takes
    off the queue, and every object that was clean and is not rezoned. *)
Lemma drainDirtyObjects_clean fuel s object :
  (length (mDirtyObjects s) ≤ fuel)%nat →
  object ∈ mDirtyObjects s ∨ mZoneRefDirty (getObj s object) = false →
  mZoneRefDirty (getObj (drainDirtyObjects fuel s) object) = false.
Proof.
  revert s. induction fuel as [|fuel IH]; intros s Hlen Hq; simpl.
  - destruct Hq as [Hq|Hq]; [|done].
    destruct (mDirtyObjects s); [by apply elem_of_nil in Hq|simpl in Hlen; lia].
  - destruct (last (mDirtyObjects s)) as [x|] eqn:Hlast.
    + apply last_Some in Hlast as [q Hqueue].
      set (s1 := set_mDirtyObjects (removelast (mDirtyObjects s)) s).
      set (s2 := if mZoneRefDirty (getObj s1 x)
                 then _rezoneObject x s1 else s1).
      assert (mDirtyObjects s2 = q) as Hs2.
      { assert (zoning_frame s1 s2) as (_&_&_&_&_&_&Hobjs&_) by (subst s2; zf).
        rewrite Hobjs. subst s1. simpl. by rewrite Hqueue, removelast_last. }
      rewrite Hqueue, length_app in Hlen. simpl in Hlen.
      apply IH; [rewrite Hs2; lia|].
      destruct (decide (x = object)) as [->|Hne].
      * right. subst s2.
        destruct (mZoneRefDirty (getObj s1 object)) eqn:Hd;
          [apply rezoneObject_clean | done].
      * assert (getObj s2 object = getObj s object) as Hsame.
        { subst s2. destruct (mZoneRefDirty (getObj s1 x)); [|done].
          by rewrite (others_rezoneObject x s1 object). }
        rewrite Hs2, Hsame. destruct Hq as [Hq|Hq]; [|by right].
        rewrite Hqueue in Hq.
        apply elem_of_app in Hq as [Hq|Hq%list_elem_of_singleton];
          [by left | congruence].
    + destruct Hq as [Hq|Hq]; [|done].
      apply last_None in Hlast. rewrite Hlast in Hq.
      by apply elem_of_nil in Hq.
Qed.

Lemma updateZoningState_clean_queued s object :
  object ∈ mDirtyObjects s →
  mZoneRefDirty (getObj (updateZoningState s) object) = false.
Proof.
  intros Hin. unfold updateZoningState.
  rewrite (bool_decide_eq_false_2 (mDirtyObjects s = [])); simpl.
  2: { intros Hnil. rewrite Hnil in Hin. by apply elem_of_nil in Hin. }
  set (s1 := drainDirtyZoneSpaces (length (mDirtyZoneSpaces s)) s).
  set (s2 := if bool_decide (mDirtyArea s1 ≠ Box3F_Invalid)
             then set_mDirtyArea Box3F_Invalid
                    (_rezoneObjects (mDirtyArea s1) s1)
             else s1).
  apply drainDirtyObjects_clean; [done|]. left.
  assert (mDirtyObjects s2 = mDirtyObjects s) as ->; [|done].
  destruct (drainDirtyZoneSpaces_empty (length (mDirtyZoneSpaces s)) s)
    as [_ Hs1]; [done|]. fold s1 in Hs1.
  subst s2. case_bool_decide; [|done]. simpl.
  destruct (zf_rezoneObjects (mDirtyArea s1) s1) as (_&_&_&_&_&_&Hr&_).
  by rewrite Hr.
Qed.

Lemma updateZoningState_at_rest s :
  mDirtyZoneSpaces (updateZoningState s) = []
  ∧ mDirtyObjects (updateZoningState s) = []
  ∧ mDirtyArea (updateZoningState s) = Box3F_Invalid.
Proof.
  unfold updateZoningState.
  destruct (bool_decide (mDirtyObjects s = []) &&
            bool_decide (mDirtyZoneSpaces s = []) &&
            bool_decide (mDirtyArea s = Box3F_Invalid)) eqn:Hrest.
  - apply andb_prop in Hrest as [Hrest Ha].
    apply andb_prop in Hrest as [Ho Hz].
    by apply bool_decide_eq_true in Ho, Hz, Ha.
  - apply updateZoningState_slow_path.
Qed.

(** X11.  The object that [_rezoneObject] is called on is clean when the
    call returns, on every path, so the assertion that follows the call in
    [updateZoningState] holds; and every object that is on the object dirty
    queue when [updateZoningState] is called is clean when it returns. *)
Theorem updateZoningState_cleans_queued_objects s object :
  object ∈ mDirtyObjects s →
  mZoneRefDirty (getObj (updateZoningState s) object) = false
  ∧ ∀ t o, mZoneRefDirty (getObj (_rezoneObject o t) o) = false.
Proof.
  intros Hin. split; [by apply updateZoningState_clean_queued|].
  intros t o. apply rezoneObject_clean.
Qed.

(** X18.  [updateObject] returns the state it was given when no zone space
    is queued and the object is clean, whatever else is pending (other
    queued objects, a dirty area).  Otherwise it runs the whole update
    pass: both queues are empty and the dirty area is [Box3F::Invalid]
    afterwards.  Either way an object that was on the object dirty queue is
    clean when the call returns. *)
Theorem updateObject_effect s object :
  let s' := updateObject object s in
  (mDirtyZoneSpaces s = [] → mZoneRefDirty (getObj s object) = false →
     s' = s)
  ∧ (mDirtyZoneSpaces s ≠ [] ∨ mZoneRefDirty (getObj s object) = true →
       mDirtyZoneSpaces s' = [] ∧ mDirtyObjects s' = []
       ∧ mDirtyArea s' = Box3F_Invalid)
  ∧ (object ∈ mDirtyObjects s → mZoneRefDirty (getObj s' object) = false).
Proof.
  intros s'. subst s'. unfold updateObject. split_and!.
  - intros -> ->. done.
  - intros Hpending.
    assert (bool_decide (mDirtyZoneSpaces s = [])
            && negb (mZoneRefDirty (getObj s object)) = false) as ->.
    { destruct Hpending as [Hz| ->].
      - by rewrite bool_decide_eq_false_2.
      - apply andb_false_r. }
    apply updateZoningState_at_rest.
  - intros Hin.
    destruct (bool_decide (mDirtyZoneSpaces s = [])
              && negb (mZoneRefDirty (getObj s object))) eqn:Hc.
    + apply andb_prop in Hc as [_ Hc]. by apply negb_true_iff in Hc.
    + by apply updateZoningState_clean_queued.
Qed.

(** X23.  [_rezoneObjects] never writes the root zone: whatever the
    container returns for the area, the root zone object is after the call
    as it was before. *)
Theorem rezoneObjects_keeps_root area s :
  getObj (_rezoneObjects area s) (mRootZone s) = getObj s (mRootZone s).
Proof.
  unfold _rezoneObjects. cbv zeta.
  generalize (findObjectList s area 4294967295). intros l.
  assert (∀ t, mRootZone (foldl rezoneObjectsStep t l) = mRootZone t
               ∧ getObj (foldl rezoneObjectsStep t l) (mRootZone t)
                 = getObj t (mRootZone t)) as H; [|apply H].
  induction l as [|x l IH]; intros t; simpl; [done|].
  destruct (IH (rezoneObjectsStep t x)) as [IH1 IH2].
  assert (mRootZone (rezoneObjectsStep t x) = mRootZone t) as Hroot.
  { assert (zoning_frame t (rezoneObjectsStep t x)) as (Hr&_) by zf.
    exact Hr. }
  rewrite Hroot in IH1, IH2. split; [done|]. rewrite IH2.
  unfold rezoneObjectsStep. case_bool_decide as Hx; [|done].
  by apply others_rezoneObject.
Qed.

(** ** Insertion: the outside-only case and the capacity *)

(** X12.  An object that is outside-only (one active zone in the scene,
    global bounds, or a type restricted to the outdoor zone) gets exactly
    the root zone: [_zoneInsert] leaves the zone list [[RootZoneId]] in the
    table and the zone count 1, clears the dirty flag, does not query the
    container, and notifies the root zone alone, once, of zone 0. *)
Theorem zoneInsert_outside_only s object (q : bool) :
  0 ≤ mZoneListHandle (getObj s object) →
  isOutsideOnly s object = true →
  let s' := _zoneInsert object q s in
  ZoneTable.getValues (mZoneListHandle (getObj s' object)) (mObjectZoneLists s')
  = [RootZoneId]
  ∧ mNumCurrZones (getObj s' object) = 1
  ∧ mZoneRefDirty (getObj s' object) = false
  ∧ mZoneSpacesQueryList s' = mZoneSpacesQueryList s
  ∧ zoneListHeap s'
    = _onZoneAddObject (_setObjectZoneList object [RootZoneId] s)
        (mRootZone s) object [RootZoneId].
Proof.
  intros Hh Hout s'. subst s'. unfold _zoneInsert. cbv zeta. rewrite Hout.
  set (a := collectObjectZones true object s).
  assert (numGlobalZones a = 1) as Hn by reflexivity.
  assert (globalZones a = [RootZoneId]) as Hg by reflexivity.
  assert (mTempObjectZones a = [mkTempZoneRecord (mRootZone s) 1 0]) as Ht
    by reflexivity.
  clearbody a.
  destruct (commitObjectZones_object object a s) as [Hobj Htb].
  rewrite Hn, Hg, (bool_decide_eq_true_2 (1 > 0)) in Hobj, Htb by lia.
  split_and!.
  - rewrite Hobj, Htb. simpl. by apply setObjectZoneList_values.
  - rewrite Hobj. simpl. by rewrite setObjectZoneList_count.
  - by rewrite Hobj.
  - unfold commitObjectZones. rewrite Hn, Hg, Ht. simpl.
    unfold _setObjectZoneList. cbv zeta. by repeat case_bool_decide.
  - unfold commitObjectZones. rewrite Hn, Hg, Ht.
    rewrite (bool_decide_eq_true_2 (1 > 0)) by lia. reflexivity.
Qed.

Lemma insertedZones_bounds reports :
  0 < MaxObjectZones →
  (∀ r : list Z * bool, r ∈ reports → r.1 ≠ [] ∨ r.2 = true) →
  1 ≤ Z.of_nat (length (insertedZones reports)) ≤ MaxObjectZones.
Proof.
  intros HM Hassert. unfold insertedZones.
  set (reported := concat reports.*1).
  rewrite length_app, length_take.
  destruct (forallb snd reports
            && bool_decide (Z.of_nat (length reported) < MaxObjectZones))
    eqn:Hroot.
  - apply andb_prop in Hroot as [_ Hlt%bool_decide_eq_true]. simpl. lia.
  - simpl. split; [|lia].
    destruct reported as [|z reported'] eqn:Hrep; [|simpl; lia].
    exfalso. simpl in Hroot.
    rewrite (bool_decide_eq_true_2 (0 < MaxObjectZones)) in Hroot by done.
    rewrite andb_true_r in Hroot.
    assert (forallb snd reports = true) as Hall; [|congruence].
    apply forallb_snd_true. intros r Hr.
    destruct (Hassert r Hr) as [Hr1|Hr2]; [|done].
    exfalso. apply Hr1.
    assert (r.1 ∈ reports.*1) as Hin by (by apply list_elem_of_fmap_2).
    destruct (r.1) as [|z zs] eqn:Hr0; [done|].
    assert (z ∈ concat reports.*1) as Hz
      by (apply (elem_of_concat _ _ _ Hin); left).
    fold reported in Hz. rewrite Hrep in Hz. by apply elem_of_nil in Hz.
Qed.

(** X13.  After [_zoneInsert] an object is in at least one zone and in no
    more than [MaxObjectZones], and holds a handle into the table: the
    arrays of [MaxObjectZones] entries the function fills are not overrun.
    The hypotheses are the range of the constant and the assertion of
    [_zoneInsert] on what a queried zone space reports (at least one zone,
    or an outside overlap). *)
Theorem zoneInsert_count_bounds s object (q : bool) :
  0 < MaxObjectZones < U32_modulus →
  let s0 := if q then s
            else _queryZoneSpaces (mWorldBox (getObj s object)) s in
  (∀ r : list Z * bool,
     r ∈ objectReports s0 object (mZoneSpacesQueryList s0) →
     r.1 ≠ [] ∨ r.2 = true) →
  let s' := _zoneInsert object q s in
  1 ≤ mNumCurrZones (getObj s' object) ≤ MaxObjectZones
  ∧ mZoneListHandle (getObj s' object) ≠ 0.
Proof.
  intros HM s0 Hassert s'. subst s'. unfold _zoneInsert. cbv zeta.
  assert (∀ a t, 1 ≤ numGlobalZones a ≤ MaxObjectZones →
            numGlobalZones a = Z.of_nat (length (globalZones a)) →
            1 ≤ mNumCurrZones (getObj (commitObjectZones object a t) object)
              ≤ MaxObjectZones
            ∧ mZoneListHandle (getObj (commitObjectZones object a t) object)
              ≠ 0) as Hcommit.
  { intros a t Hn Hlen.
    destruct (commitObjectZones_object object a t) as [-> _].
    rewrite bool_decide_eq_true_2 by lia. simpl.
    rewrite setObjectZoneList_count. split; [lia|].
    intros H0%setObjectZoneList_handle_0. rewrite H0 in Hlen. simpl in Hlen.
    lia. }
  destruct (isOutsideOnly s object) eqn:Hout.
  - apply Hcommit.
    + change (numGlobalZones (collectObjectZones true object s)) with 1. lia.
    + reflexivity.
  - fold s0.
    destruct (collectObjectZones_zones object s0) as [Hg Hn]; [lia|].
    pose proof (insertedZones_bounds _ (proj1 HM) Hassert) as Hb.
    apply Hcommit.
    + rewrite Hn. exact Hb.
    + by rewrite Hn, Hg.
Qed.

(** ** More on the compaction *)

#[local] Instance pool_frame_refl : Reflexive pool_frame.
Proof. by intros s. Qed.

#[local] Instance pool_frame_trans : Transitive pool_frame.
Proof.
  intros s t u (H1&H2&H3&H4&H5) (K1&K2&K3&K4&K5).
  unfold pool_frame. split_and!; congruence.
Qed.

Lemma pool_frame_compactZone oldStart newStart w n :
  pool_frame (cw_state w) (cw_state (compactZone oldStart newStart w n)).
Proof. unfold compactZone. cbv zeta. by case_match. Qed.

Lemma pool_frame_compactSpace w space :
  pool_frame (cw_state w) (cw_state (compactSpace w space)).
Proof.
  unfold compactSpace. cbv zeta.
  match goal with
  | |- pool_frame _ (cw_state (foldl _ ?w0 ?l)) =>
      trans (cw_state w0); [done|]; generalize w0; generalize l
  end.
  intros l. induction l as [|n l IH]; intros w0; simpl; [done|].
  etrans; [apply pool_frame_compactZone | apply IH].
Qed.

Lemma pool_frame_compactZones s : pool_frame s (compactZones s).
Proof.
  unfold compactZones. cbv zeta.
  match goal with
  | |- context [foldl compactSpace ?w0 ?l] =>
      assert (pool_frame s (cw_state (foldl compactSpace w0 l))) as H
  end; [|exact H].
  match goal with
  | |- pool_frame s (cw_state (foldl _ ?w0 ?l)) =>
      change s with (cw_state w0) at 1; generalize w0; generalize l
  end.
  intros l. induction l as [|o l IH]; intros w0; simpl; [done|].
  etrans; [apply pool_frame_compactSpace | apply IH].
Qed.

Lemma compactZones_lists_length s :
  alloc_inv s →
  length (mZoneLists (compactZones s)) = Z.to_nat (mNumActiveZones s).
Proof.
  intros Hinv. pose proof (alloc_inv_active_le s Hinv) as Hle.
  pose proof Hinv as (Hnd & Hc & Hlt & Hact).
  set (w0 := mkCompactWalk s 0
               (replicate (Z.to_nat (mNumActiveZones s)) None)).
  destruct (compact_walk_lists (mZoneSpaces s) w0) as (Hlen & _).
  - done.
  - done.
  - intros o' Ho'. simpl.
    destruct (chain_bounds _ _ _ (zoneRange s o') Hc) as [Hb1 Hb2];
      [by apply list_elem_of_fmap_2|].
    pose proof (alloc_inv_nonneg s o' Hinv Ho'). simpl in Hb1, Hb2.
    split_and!; [done | done | lia].
  - simpl. fold (ranges s). lia.
  - simpl. fold (ranges s). rewrite length_replicate. lia.
  - cbv zeta in Hlen. unfold compactZones. cbv zeta. fold w0. simpl.
    rewrite Hlen. simpl. by rewrite length_replicate.
Qed.

(** X8.  A compaction check that follows a compaction check changes
    nothing, as long as a zone is active (the root zone is): after a
    compaction every allocated ID is active, and the check returns at
    once. *)
Theorem compactZonesCheck_idempotent s :
  alloc_inv s →
  0 < mNumActiveZones s →
  _compactZonesCheck (_compactZonesCheck s) = _compactZonesCheck s.
Proof.
  intros Hinv Hpos. unfold _compactZonesCheck at 2.
  case_bool_decide as Hc.
  - unfold _compactZonesCheck. by rewrite bool_decide_eq_true_2.
  - destruct (compactZones_spec s Hinv) as (_ & _ & Hact & Htot & _).
    unfold _compactZonesCheck.
    rewrite (bool_decide_eq_false_2 _ Hc).
    rewrite (bool_decide_eq_true_2
               (mNumActiveZones (compactZones s)
                > mNumTotalAllocatedZones (compactZones s) / 2)); [done|].
    rewrite Hact, Htot.
    pose proof (Z.div_lt (mNumActiveZones s) 2). lia.
Qed.

(** X9.  What a compaction does to the ID space.  When at most half of the
    allocated IDs are active, the check renumbers: the zone spaces stay
    registered in the same order with the same zone counts, their ranges
    follow one another from 0 without a gap, the allocated count becomes
    the active count, the vector has one slot per active zone, and the
    list of each zone of each zone space is found at the zone's new ID.
    The zone object lists themselves, the pool and the dirty queues are
    not written. *)
Theorem compaction_makes_ids_dense s :
  alloc_inv s →
  2 * mNumActiveZones s ≤ mNumTotalAllocatedZones s →
  let s' := _compactZonesCheck s in
  mZoneSpaces s' = mZoneSpaces s
  ∧ (∀ o, mNumZones (getObj s' o) = mNumZones (getObj s o))
  ∧ tight 0 (ranges s') (mNumTotalAllocatedZones s')
  ∧ mNumTotalAllocatedZones s' = mNumActiveZones s
  ∧ mNumActiveZones s' = mNumActiveZones s
  ∧ length (mZoneLists s') = Z.to_nat (mNumActiveZones s)
  ∧ (∀ o k, o ∈ mZoneSpaces s → 0 ≤ k < mNumZones (getObj s o) →
       zoneListAt s' (mZoneRangeStart (getObj s' o) + k)
       = zoneListAt s (mZoneRangeStart (getObj s o) + k))
  ∧ pool_frame s s'.
Proof.
  intros Hinv Hhalf s'. subst s'. unfold _compactZonesCheck.
  rewrite bool_decide_eq_false_2.
  2: { assert (mNumActiveZones s ≤ mNumTotalAllocatedZones s / 2)
         by (apply Z.div_le_lower_bound; lia).
       lia. }
  destruct (compactZones_spec s Hinv) as (_ & Hsp & Hact & Htot & Ht & Hn & _).
  split_and!; try done.
  - by apply compactZones_lists_length.
  - intros o k Ho Hk. by apply (compactZones_relocates_lists s o k).
  - apply pool_frame_compactZones.
Qed.

(** ** The allocation state along the public calls *)

#[local] Instance lists_frame_refl : Reflexive lists_frame.
Proof. by intros s. Qed.

#[local] Instance lists_frame_trans : Transitive lists_frame.
Proof.
  intros s t u (H1&H2&H3) (K1&K2&K3).
  split_and!; [by etrans | congruence | congruence].
Qed.

Lemma zoning_lists_frame s s' : zoning_frame s s' → lists_frame s s'.
Proof.
  intros Hzf. split; [by apply zoning_ranges_frame|].
  destruct Hzf as (_&_&_&_&Hl&Hp&_). done.
Qed.

Lemma alloc_inv_ranges_frame s s' :
  ranges_frame s s' → alloc_inv s → alloc_inv s'.
Proof.
  intros Hrf (Hnd & Hc & Hlt & Hact).
  pose proof (ranges_frame_ranges _ _ Hrf) as Hrs.
  destruct Hrf as (_ & Hsp & Htot & Ha & _).
  unfold alloc_inv. rewrite Hrs, Hsp, Htot, Ha. done.
Qed.

(** The update pass is made of writes to the queues and the dirty area, of
    [_zoneRemove], [_clearZoneList] and [_rezoneObject]: a relation all of
    these respect holds across the pass. *)
Lemma updateZoningState_rel (R : relation Manager)
  `{!Reflexive R} `{!Transitive R} :
  (∀ s q, R s (set_mDirtyZoneSpaces q s)) →
  (∀ s q, R s (set_mDirtyObjects q s)) →
  (∀ s a, R s (set_mDirtyArea a s)) →
  (∀ s o fl, R s (_zoneRemove o fl s)) →
  (∀ s z, R s (_clearZoneList z s)) →
  (∀ s o, R s (_rezoneObject o s)) →
  ∀ s, R s (updateZoningState s).
Proof.
  intros Hzs Hobjs Harea Hrem Hclear Hrez.
  assert (∀ s z, R s (tearDownZoneSpace z s)) as Htear.
  { intros s z. unfold tearDownZoneSpace. cbv zeta.
    etrans; [|apply Harea].
    etrans; [apply (Hrem s z true)|].
    apply (foldl_rel R). intros t n. apply Hclear. }
  assert (∀ fuel s, R s (drainDirtyZoneSpaces fuel s)) as Hdz.
  { induction fuel as [|fuel IH]; intros s; simpl; [reflexivity|].
    destruct (last (mDirtyZoneSpaces s)); [|reflexivity].
    etrans; [|apply IH]. etrans; [|apply Htear]. apply Hzs. }
  assert (∀ fuel s, R s (drainDirtyObjects fuel s)) as Hdo.
  { induction fuel as [|fuel IH]; intros s; simpl; [reflexivity|].
    destruct (last (mDirtyObjects s)); [|reflexivity].
    etrans; [|apply IH].
    etrans; [apply (Hobjs s (removelast (mDirtyObjects s)))|].
    destruct (mZoneRefDirty _); [apply Hrez | reflexivity]. }
  assert (∀ s a, R s (_rezoneObjects a s)) as Hrezs.
  { intros s a. unfold _rezoneObjects. cbv zeta. apply (foldl_rel R).
    intros t o. unfold rezoneObjectsStep.
    case_bool_decide; [apply Hrez | reflexivity]. }
  intros s. unfold updateZoningState.
  destruct (_ && _); [reflexivity|].
  etrans; [|apply Hdo].
  etrans; [apply (Hdz (length (mDirtyZoneSpaces s)) s)|].
  case_bool_decide; [|reflexivity].
  etrans; [|apply Harea]. apply Hrezs.
Qed.

Lemma lf_updateZoningState s : lists_frame s (updateZoningState s).
Proof.
  apply (updateZoningState_rel lists_frame); try done;
    intros; apply zoning_lists_frame; zf.
Qed.

Lemma lf_notifyObjectChanged o s : lists_frame s (notifyObjectChanged o s).
Proof.
  split; [apply rf_notifyObjectChanged|].
  unfold notifyObjectChanged. destruct (mZoneRefDirty _); [done|].
  repeat case_bool_decide; repeat case_match; done.
Qed.

(** The test of [unregisterObject] reads what [_zoneRemove] does not
    write. *)
Lemma unregisterObject_unfold object s :
  let s1 := _zoneRemove object true
              (set_mDirtyObjects (Vector_remove object (mDirtyObjects s)) s) in
  lists_frame s s1
  ∧ unregisterObject object s
    = if bool_decide (Z.land (mTypeMask (getObj s object)) ZoneObjectType ≠ 0)
         && isZoneSpace (getObj s object)
      then set_mDirtyZoneSpaces
             (Vector_remove object
                (mDirtyZoneSpaces (unregisterZones object s1)))
             (unregisterZones object s1)
      else s1.
Proof.
  intros s1. subst s1.
  set (s0 := set_mDirtyObjects (Vector_remove object (mDirtyObjects s)) s).
  set (s1 := _zoneRemove object true s0).
  assert (zoning_frame s0 s1) as Hzf by apply zf_zoneRemove.
  split.
  - trans s0; [done | by apply zoning_lists_frame].
  - unfold unregisterObject. cbv zeta. fold s0. fold s1.
    destruct Hzf as (_&_&_&_&_&_&_&_&_&Hstat).
    destruct (Hstat object) as (Hm & _ & _ & Hz & _).
    change (getObj s0 object) with (getObj s object) in Hm, Hz.
    by rewrite Hm, Hz.
Qed.

Lemma allocZoneLists_length object start n s :
  length (mZoneLists (allocZoneLists object start n s))
  = (length (mZoneLists s) + Z.to_nat n)%nat.
Proof.
  unfold allocZoneLists. cbv zeta.
  match goal with
  | |- context [foldl _ ?s0 ?l] =>
      trans (length (mZoneLists s0));
      [generalize l; generalize s0
      | simpl; by rewrite length_app, length_replicate]
  end.
  intros t l. revert t. induction l as [|i l IH]; intros t; simpl; [done|].
  rewrite IH. unfold allocZoneListAt, _allocZoneList.
  destruct (last (mZoneListPool t)); simpl; by rewrite length_insert.
Qed.

Lemma enlistZoneSpace_lists object s :
  mZoneLists (enlistZoneSpace object s) = mZoneLists s
  ∧ mZoneListPool (enlistZoneSpace object s) = mZoneListPool s
  ∧ zoneListHeap (enlistZoneSpace object s) = zoneListHeap s.
Proof.
  unfold enlistZoneSpace. cbv zeta. destruct (isRootZone _); [done|].
  unfold notifyObjectChanged. destruct (mZoneRefDirty _); [done|].
  repeat case_bool_decide; repeat case_match; done.
Qed.

Lemma compactZonesCheck_vector s :
  alloc_inv s → vector_inv s → vector_inv (_compactZonesCheck s).
Proof.
  intros Hinv Hv. unfold _compactZonesCheck. case_bool_decide; [done|].
  unfold vector_inv. rewrite compactZones_lists_length by done.
  destruct (compactZones_spec s Hinv) as (_ & _ & _ & -> & _). done.
Qed.

Lemma registerZones_vector object numZones s :
  alloc_inv s → vector_inv s →
  object ∉ mZoneSpaces s →
  0 ≤ numZones →
  mNumTotalAllocatedZones s + numZones < U32_modulus →
  vector_inv (registerZones object numZones s).
Proof.
  intros Hinv Hv Hnew Hn Hfit.
  destruct (registerZones_spec object numZones s Hinv Hnew Hn Hfit)
    as (_ & _ & _ & Htot & _).
  cbv zeta in Htot. unfold vector_inv. rewrite Htot.
  pose proof (compactZonesCheck_vector s Hinv Hv) as Hvc.
  destruct (compactZonesCheck_inv s Hinv) as (Hinvc & _).
  pose proof (alloc_inv_active_le _ Hinvc) as Hle.
  unfold registerZones. cbv zeta.
  destruct (enlistZoneSpace_lists object
              (allocZoneLists object
                 (mNumTotalAllocatedZones (_compactZonesCheck s)) numZones
                 (assignZoneRange object numZones (_compactZonesCheck s))))
    as (-> & _).
  rewrite allocZoneLists_length.
  change (mZoneLists (assignZoneRange object numZones (_compactZonesCheck s)))
    with (mZoneLists (_compactZonesCheck s)).
  rewrite Hvc. destruct Hinvc as (_ & Hc & _).
  assert (0 ≤ mNumTotalAllocatedZones (_compactZonesCheck s)).
  { pose proof (chain_sum _ _ _ Hc).
    assert (0 ≤ sumRanges (ranges (_compactZonesCheck s))); [|lia].
    apply sumRanges_nonneg. intros o.
    apply alloc_inv_nonneg. by destruct (compactZonesCheck_inv s Hinv). }
  lia.
Qed.

Lemma applyCall_inv c s :
  alloc_inv s ∧ vector_inv s →
  callAllowed c s = true →
  alloc_inv (applyCall c s) ∧ vector_inv (applyCall c s).
Proof.
  intros [Hinv Hv] Hc.
  assert (∀ s', lists_frame s s' → alloc_inv s' ∧ vector_inv s') as Hframe.
  { intros s' (Hrf & Hl & _). split; [by eapply alloc_inv_ranges_frame|].
    unfold vector_inv. rewrite Hl. destruct Hrf as (_&_&->&_). done. }
  assert (∀ t, alloc_inv t ∧ vector_inv t → ∀ o, o ∈ mZoneSpaces t →
            alloc_inv (unregisterZones o t) ∧ vector_inv (unregisterZones o t))
    as Hunreg.
  { intros t [Hi Hvt] o Ho.
    destruct (unregisterZones_spec o t Hi Ho) as (Hi' & _ & _ & Htot & _ & Hl & _).
    split; [done|]. unfold vector_inv. by rewrite Hl, Htot. }
  destruct c as [object numZones|object|object|object|object|object| |p|area];
    simpl in Hc |- *.
  - apply opAllowed_register in Hc as (? & ? & ?).
    split; [by apply registerZones_spec | by apply registerZones_vector].
  - apply opAllowed_unregister in Hc. by apply Hunreg.
  - apply Hframe, lf_notifyObjectChanged.
  - destruct (unregisterObject_unfold object s) as [Hlf ->].
    destruct (bool_decide _ && isZoneSpace _) eqn:Hcond; [|by apply Hframe].
    simpl in Hc. apply bool_decide_eq_true in Hc.
    assert (object ∈ mZoneSpaces s) as Hin.
    { destruct (decide (object ∈ mZoneSpaces s)) as [|Hn]; [done|].
      by apply (indexOf_not_elem_of object _ 0) in Hn. }
    match goal with
    | |- alloc_inv (set_mDirtyZoneSpaces ?q ?t) ∧ _ =>
        assert (alloc_inv t ∧ vector_inv t) as [Hi Hvt]; [|done]
    end.
    apply Hunreg; [by apply Hframe|].
    destruct Hlf as ((_ & -> & _) & _). done.
  - apply Hframe. unfold updateObject.
    destruct (_ && _); [reflexivity | apply lf_updateZoningState].
  - apply Hframe, lf_notifyObjectChanged.
  - apply Hframe, lf_updateZoningState.
  - apply Hframe, zoning_lists_frame. unfold findZone.
    case_bool_decide; simpl; [reflexivity|].
    destruct (findZoneLoop _ _ _) as [[? ?]|]; simpl; zf.
  - apply Hframe, zoning_lists_frame. unfold findZones. cbv zeta.
    destruct (_ || _); simpl; zf.
Qed.

Lemma runCalls_inv calls s :
  alloc_inv s ∧ vector_inv s →
  callsAllowed calls s = true →
  alloc_inv (runCalls calls s) ∧ vector_inv (runCalls calls s).
Proof.
  revert s. induction calls as [|c calls IH]; intros s Hinv Hcs; [done|].
  simpl in Hcs |- *. apply andb_prop in Hcs as [Hc Hcs].
  apply IH; [by apply applyCall_inv | done].
Qed.

(** X24.  Along any sequence of calls of the public functions that respects
    the assertions on registration, starting from a new manager, the
    allocation invariant holds (the registered zone spaces are distinct,
    their ranges follow one another inside [[0, totalAllocated)], the
    active count is the sum of their zone counts) and the zone list vector
    has exactly one slot per allocated ID, so the ID of every zone of a
    registered zone space indexes inside the vector. *)
Theorem api_calls_keep_allocation root heap calls :
  callsAllowed calls (newManager root heap) = true →
  let s := runCalls calls (newManager root heap) in
  alloc_inv s
  ∧ length (mZoneLists s) = Z.to_nat (mNumTotalAllocatedZones s)
  ∧ ∀ o k, o ∈ mZoneSpaces s → 0 ≤ k < mNumZones (getObj s o) →
      0 ≤ mZoneRangeStart (getObj s o) + k
      ∧ (Z.to_nat (mZoneRangeStart (getObj s o) + k) < length (mZoneLists s))%nat.
Proof.
  intros Hcs s.
  destruct (runCalls_inv calls (newManager root heap)) as [Hinv Hv];
    [split; [apply alloc_inv_newManager | done] | done |].
  fold s in Hinv, Hv. split_and!; [done | done |].
  intros o k Ho Hk. rewrite Hv.
  destruct (alloc_inv_bounds s o Hinv Ho) as [Hb1 Hb2].
  unfold zoneRange in Hb1, Hb2. simpl in Hb1, Hb2. lia.
Qed.

(** ** The owners of the zone object lists *)

#[local] Instance owners_kept_refl : Reflexive owners_kept.
Proof. by intros s l. Qed.

#[local] Instance owners_kept_trans : Transitive owners_kept.
Proof. intros s t u Hst Htu l. by rewrite Htu, Hst. Qed.

Lemma ok_heap s t : zoneListHeap t = zoneListHeap s → owners_kept s t.
Proof. intros Hh l. unfold getList. by rewrite Hh. Qed.

Lemma allocZoneList_spec space s :
  NoDup (mZoneListPool s) →
  (∀ l, l ∈ mZoneListPool s → mManager (getList s l) = None) →
  let r := _allocZoneList space s in
  mManager (getList s r.1) = None
  ∧ mManager (getList r.2 r.1) = Some space
  ∧ (∀ l, l ≠ r.1 → getList r.2 l = getList s l)
  ∧ NoDup (mZoneListPool r.2)
  ∧ (∀ l, l ∈ mZoneListPool r.2 → l ∈ mZoneListPool s ∧ l ≠ r.1)
  ∧ mZoneLists r.2 = mZoneLists s.
Proof.
  intros Hnd Hnone r. subst r. unfold _allocZoneList.
  destruct (last (mZoneListPool s)) as [ret|] eqn:Hlast.
  - apply last_Some in Hlast as [q Hq]. cbv zeta. simpl.
    rewrite Hq, removelast_last. rewrite Hq in Hnd.
    apply NoDup_app in Hnd as (Hndq & Hdisj & _).
    assert (∀ p t l, getList (set_mZoneListPool p t) l = getList t l) as Hp
      by done.
    split_and!.
    + apply Hnone. rewrite Hq. apply elem_of_app. right. left.
    + by rewrite Hp, getList_updList, decide_True.
    + intros l Hne. by rewrite Hp, getList_updList, decide_False.
    + done.
    + intros l Hl. split; [apply elem_of_app; by left|].
      intros ->. apply (Hdisj ret Hl). left.
    + done.
  - apply last_None in Hlast. simpl. rewrite Hlast.
    set (ret := fresh (dom (zoneListHeap s))).
    assert (zoneListHeap s !! ret = None) as Hfresh
      by (apply not_elem_of_dom, is_fresh).
    split_and!.
    + unfold getList. by rewrite Hfresh.
    + unfold getList. simpl. by rewrite lookup_insert_eq.
    + intros l Hne. unfold getList. simpl. by rewrite lookup_insert_ne.
    + apply NoDup_nil_2.
    + intros l Hl. by apply elem_of_nil in Hl.
    + done.
Qed.

(** The loop of [registerZones] over the slots [[a, a + len)]: each slot
    gets a list of its own that had no manager, with [object] as manager;
    lists that had a manager are not touched. *)
Lemma allocZoneLists_loop object (len : nat) :
  ∀ a s,
    0 ≤ a →
    (Z.to_nat a + len ≤ length (mZoneLists s))%nat →
    NoDup (mZoneListPool s) →
    (∀ l, l ∈ mZoneListPool s → mManager (getList s l) = None) →
    let s' := foldl (allocZoneListAt object) s (seqZ a (Z.of_nat len)) in
    (∀ i, (i < Z.to_nat a)%nat → mZoneLists s' !! i = mZoneLists s !! i)
    ∧ NoDup (mZoneListPool s')
    ∧ (∀ l, l ∈ mZoneListPool s' → mManager (getList s' l) = None)
    ∧ (∀ l, mManager (getList s l) ≠ None → getList s' l = getList s l)
    ∧ (∀ j, a ≤ j < a + Z.of_nat len →
         ∃ l, zoneListAt s' j = Some l
              ∧ mManager (getList s' l) = Some object
              ∧ mManager (getList s l) = None)
    ∧ (∀ j j', a ≤ j < a + Z.of_nat len → a ≤ j' < a + Z.of_nat len →
         zoneListAt s' j = zoneListAt s' j' → j = j').
Proof.
  induction len as [|len IH]; intros a s Ha Hfit Hnd Hnone.
  { rewrite seqZ_nil by lia. simpl. split_and!; try done; intros; lia. }
  rewrite seqZ_cons by lia. simpl.
  replace (Z.pred (Z.of_nat (S len))) with (Z.of_nat len) by lia.
  destruct (allocZoneList_spec object s Hnd Hnone)
    as (Hl0 & Hl1 & Hother & Hnd1 & Hpool1 & Hvec1).
  set (s1 := allocZoneListAt object s a).
  assert (∃ l0, mManager (getList s l0) = None
                ∧ mManager (getList s1 l0) = Some object
                ∧ (∀ l, l ≠ l0 → getList s1 l = getList s l)
                ∧ NoDup (mZoneListPool s1)
                ∧ (∀ l, l ∈ mZoneListPool s1 → l ∈ mZoneListPool s ∧ l ≠ l0)
                ∧ mZoneLists s1 = <[Z.to_nat a := Some l0]> (mZoneLists s))
    as (l0 & Hs & Hs1 & Hoth & Hnds1 & Hps1 & Hvs1).
  { subst s1. unfold allocZoneListAt.
    destruct (_allocZoneList object s) as [l0 t]. simpl in *.
    exists l0. split_and!; try done. by rewrite Hvec1. }
  clearbody s1. clear Hl0 Hl1 Hother Hnd1 Hpool1 Hvec1.
  destruct (IH (Z.succ a) s1) as (H1 & H2 & H3 & H4 & H5 & H6).
  - lia.
  - rewrite Hvs1, length_insert. lia.
  - done.
  - intros l Hl. destruct (Hps1 l Hl) as [Hin Hne].
    rewrite Hoth by done. by apply Hnone.
  - cbv zeta in *.
    set (s' := foldl (allocZoneListAt object) s1 (seqZ (Z.succ a) (Z.of_nat len)))
      in *.
    assert (zoneListAt s' a = Some l0) as Hslot.
    { unfold zoneListAt. rewrite H1 by lia.
      rewrite Hvs1, list_lookup_insert_eq by lia. done. }
    assert (getList s' l0 = getList s1 l0) as Hl0
      by (apply H4; by rewrite Hs1).
    split_and!.
    + intros i Hi. rewrite H1 by lia. rewrite Hvs1.
      apply list_lookup_insert_ne. lia.
    + done.
    + done.
    + intros l Hl. assert (l ≠ l0) as Hne by (intros ->; done).
      rewrite H4; [by apply Hoth|]. by rewrite Hoth.
    + intros j Hj. destruct (decide (j = a)) as [->|Hne].
      * exists l0. by rewrite Hl0.
      * destruct (H5 j) as (l & Hz & Hm & Hm1); [lia|].
        exists l. split_and!; [done | done |].
        rewrite <- Hoth; [done|]. intros ->. congruence.
    + intros j j' Hj Hj' Heq.
      destruct (decide (j = a)) as [->|Hne], (decide (j' = a)) as [->|Hne'].
      * done.
      * exfalso. destruct (H5 j') as (l & Hz & Hm & Hm1); [lia|].
        rewrite Hslot, Hz in Heq. injection Heq as <-. congruence.
      * exfalso. destruct (H5 j) as (l & Hz & Hm & Hm1); [lia|].
        rewrite Hslot, Hz in Heq. injection Heq as ->. congruence.
      * apply H6; [lia | lia | done].
Qed.

Lemma owners_inv_frame s s' :
  lists_frame s s' → owners_kept s s' → owners_inv s → owners_inv s'.
Proof.
  intros ((_ & Hsp & _ & _ & Hr) & Hv & Hp) Hk (Hnd & Hnone & Hlive & Hinj).
  assert (∀ o k, zoneSlot s' o k = zoneSlot s o k) as Hslot.
  { intros o k. unfold zoneSlot, zoneListAt. rewrite Hv.
    pose proof (Hr o) as E. unfold zoneRange in E. by injection E as -> _. }
  assert (∀ o, mNumZones (getObj s' o) = mNumZones (getObj s o)) as Hn.
  { intros o. pose proof (Hr o) as E. unfold zoneRange in E.
    by injection E as _ ->. }
  unfold owners_inv. rewrite Hp, Hsp. split_and!.
  - done.
  - intros l Hl. rewrite Hk. by apply Hnone.
  - intros o k Ho Hkr. rewrite Hn in Hkr.
    destruct (Hlive o k Ho Hkr) as (l & Hz & Hm).
    exists l. by rewrite Hslot, Hk.
  - intros o k k' Ho Hkr Hkr'. rewrite Hn in Hkr, Hkr'. rewrite !Hslot.
    by apply Hinj.
Qed.

Lemma compactZonesCheck_owners s :
  alloc_inv s → owners_inv s → owners_inv (_compactZonesCheck s).
Proof.
  intros Hinv (Hnd & Hnone & Hlive & Hinj).
  unfold _compactZonesCheck. case_bool_decide; [done|].
  destruct (compactZones_spec s Hinv) as (_ & Hsp & _ & _ & _ & Hn & _).
  destruct (pool_frame_compactZones s) as (Hh & Hp & _).
  assert (∀ l, getList (compactZones s) l = getList s l) as Hg
    by (intros l; unfold getList; by rewrite Hh).
  assert (∀ o k, o ∈ mZoneSpaces s → 0 ≤ k < mNumZones (getObj s o) →
            zoneSlot (compactZones s) o k = zoneSlot s o k) as Hslot.
  { intros o k Ho Hk. by apply (compactZones_relocates_lists s o k). }
  unfold owners_inv. rewrite Hp, Hsp. split_and!.
  - done.
  - intros l Hl. rewrite Hg. by apply Hnone.
  - intros o k Ho Hk. rewrite Hn in Hk.
    destruct (Hlive o k Ho Hk) as (l & Hz & Hm).
    exists l. by rewrite Hslot, Hg.
  - intros o k k' Ho Hk Hk'. rewrite Hn in Hk, Hk'.
    rewrite !Hslot by done. by apply Hinj.
Qed.

Lemma registerZones_owners object numZones s :
  alloc_inv s → vector_inv s → owners_inv s →
  object ∉ mZoneSpaces s →
  0 ≤ numZones →
  mNumTotalAllocatedZones s + numZones < U32_modulus →
  owners_inv (registerZones object numZones s).
Proof.
  intros Hinv Hv Hown Hnew Hn Hfit.
  destruct (registerZones_spec object numZones s Hinv Hnew Hn Hfit)
    as (_ & _ & Hsp & _ & Hobj & Hother).
  cbv zeta in Hsp, Hobj, Hother.
  pose proof (compactZonesCheck_vector s Hinv Hv) as Hvc.
  pose proof (compactZonesCheck_owners s Hinv Hown)
    as (Hnd & Hnone & Hlive & Hinj).
  destruct (compactZonesCheck_inv s Hinv) as (Hinvc & _ & Hspc & Hle & _).
  set (sc := _compactZonesCheck s) in *.
  assert (0 ≤ mNumTotalAllocatedZones sc) as Htot0.
  { pose proof Hinvc as (_ & Hc & _). pose proof (chain_sum _ _ _ Hc).
    assert (0 ≤ sumRanges (ranges sc)); [|lia].
    apply sumRanges_nonneg. intros o. by apply alloc_inv_nonneg. }
  set (s3 := registerZones object numZones s) in *.
  set (s1 := assignZoneRange object numZones sc).
  set (s1' := set_mZoneLists
                (mZoneLists s1 ++ replicate (Z.to_nat numZones) None) s1).
  set (s2 := foldl (allocZoneListAt object) s1'
               (seqZ (mNumTotalAllocatedZones sc)
                  (Z.of_nat (Z.to_nat numZones)))).
  assert (s3 = enlistZoneSpace object s2) as Hs3.
  { assert (mNumTotalAllocatedZones s1' - mNumTotalAllocatedZones sc
            = Z.of_nat (Z.to_nat numZones)) as Hcnt.
    { change (mNumTotalAllocatedZones s1')
        with (mNumTotalAllocatedZones s1).
      destruct (assignZoneRange_spec object numZones sc) as (_ & _ & Ht & _).
      fold s1 in Ht. rewrite Ht. unfold u32_add.
      rewrite u32_small by lia. lia. }
    subst s3 s2. unfold registerZones, allocZoneLists. cbv zeta.
    fold sc. fold s1. fold s1'. by rewrite Hcnt. }
  destruct (enlistZoneSpace_lists object s2) as (Hv3 & Hp3 & Hh3).
  rewrite <- Hs3 in Hv3, Hp3, Hh3.
  assert (∀ l, getList s3 l = getList s2 l) as Hg3
    by (intros l; unfold getList; by rewrite Hh3).
  destruct (allocZoneLists_loop object (Z.to_nat numZones)
              (mNumTotalAllocatedZones sc) s1')
    as (H1 & H2 & H3 & H4 & H5 & H6).
  - done.
  - subst s1' s1. simpl. rewrite length_app, length_replicate.
    unfold vector_inv in Hvc. lia.
  - done.
  - done.
  - cbv zeta in H1, H2, H3, H4, H5, H6. fold s2 in H1, H2, H3, H4, H5, H6.
    rewrite Z2Nat.id in H5, H6 by lia.
    assert (∀ l, getList s1' l = getList sc l) as Hg1 by done.
    assert (∀ o k, o ∈ mZoneSpaces sc → 0 ≤ k < mNumZones (getObj sc o) →
              zoneSlot s3 o k = zoneSlot sc o k) as Hold.
    { intros o k Ho Hk.
      assert (o ≠ object) as Hne by (intros ->; apply Hnew; by rewrite <- Hspc).
      pose proof (Hother o Hne) as E. unfold zoneRange in E.
      injection E as Est _.
      destruct (alloc_inv_bounds sc o Hinvc Ho) as [Hb1 Hb2].
      unfold zoneRange in Hb1, Hb2. simpl in Hb1, Hb2.
      unfold zoneSlot, zoneListAt. rewrite Est, Hv3.
      rewrite H1 by lia. subst s1' s1. simpl.
      rewrite lookup_app_l; [done|]. unfold vector_inv in Hvc. lia. }
    assert (∀ o, o ∈ mZoneSpaces sc →
              mNumZones (getObj s3 o) = mNumZones (getObj sc o)) as Hnum.
    { intros o Ho.
      assert (o ≠ object) as Hne by (intros ->; apply Hnew; by rewrite <- Hspc).
      pose proof (Hother o Hne) as E. unfold zoneRange in E.
      by injection E as _ ->. }
    unfold zoneRange in Hobj. injection Hobj as Hst Hnm.
    unfold owners_inv. rewrite Hp3, Hsp, <- Hspc. split_and!.
    + done.
    + intros l Hl. rewrite Hg3. by apply H3.
    + intros o k [Ho| ->%list_elem_of_singleton]%elem_of_app Hk.
      * rewrite Hnum in Hk by done.
        destruct (Hlive o k Ho Hk) as (l & Hz & Hm).
        exists l. rewrite Hold by done. split; [done|].
        rewrite Hg3, H4; rewrite Hg1; [done | by rewrite Hm].
      * rewrite Hnm in Hk.
        destruct (H5 (mNumTotalAllocatedZones sc + k)) as (l & Hz & Hm & _);
          [lia|].
        exists l. unfold zoneSlot. rewrite Hst.
        unfold zoneListAt in Hz |- *. by rewrite Hv3, Hg3.
    + intros o k k' [Ho| ->%list_elem_of_singleton]%elem_of_app Hk Hk'.
      * rewrite Hnum in Hk, Hk' by done. rewrite !Hold by done.
        by apply Hinj.
      * rewrite Hnm in Hk, Hk'. unfold zoneSlot. rewrite Hst.
        intros Heq.
        assert (mNumTotalAllocatedZones sc + k
                = mNumTotalAllocatedZones sc + k'); [|lia].
        apply H6; [lia | lia |]. unfold zoneListAt in Heq |- *.
        by rewrite <- Hv3.
Qed.

Section Owners.

Hypothesis onZoneAddObject_keepsOwners :
  ∀ s space object zones,
    keepsOwners s (_onZoneAddObject s space object zones).

Hypothesis onZoneRemoveObject_keepsOwners :
  ∀ s owner object, keepsOwners s (_onZoneRemoveObject s owner object).

Lemma ok_clearZoneList zoneId s : owners_kept s (_clearZoneList zoneId s).
Proof.
  unfold _clearZoneList. destruct (zoneListAt s zoneId); [|done]. cbv zeta.
  apply (foldl_rel owners_kept). intros t object.
  unfold clearZoneListStep. cbv zeta.
  match goal with
  | |- owners_kept t (set_zoneListHeap (_onZoneRemoveObject ?u _ _) _) =>
      trans u; [apply ok_heap; by case_bool_decide|]
  end.
  intros l0. apply onZoneRemoveObject_keepsOwners.
Qed.

Lemma ok_zoneRemove obj fl s : owners_kept s (_zoneRemove obj fl s).
Proof.
  unfold _zoneRemove. case_bool_decide; [done|]. cbv zeta.
  match goal with
  | |- owners_kept s (updObj _ _ (updObj _ _ (updObj _ _
         (set_mObjectZoneLists _ ?t)))) =>
      trans t; [|by apply ok_heap]
  end.
  apply (foldl_rel owners_kept). intros t zone l.
  apply onZoneRemoveObject_keepsOwners.
Qed.

Lemma ok_setObjectZoneList object zoneList s :
  owners_kept s (_setObjectZoneList object zoneList s).
Proof.
  apply ok_heap. unfold _setObjectZoneList. cbv zeta.
  by repeat case_bool_decide.
Qed.

Lemma ok_zoneInsert object q s : owners_kept s (_zoneInsert object q s).
Proof.
  unfold _zoneInsert, commitObjectZones. cbv zeta.
  match goal with
  | |- owners_kept s (updObj _ _ ?t) => trans t; [|by apply ok_heap]
  end.
  match goal with
  | |- owners_kept s (foldl _ ?t _) => trans t
  end.
  - etrans; [|case_bool_decide; [apply ok_setObjectZoneList|reflexivity]].
    apply ok_heap. destruct (isOutsideOnly s object); [done|]. by destruct q.
  - apply (foldl_rel owners_kept). intros t record.
    unfold notifyZoneAdd. case_bool_decide; [|done].
    intros l. apply onZoneAddObject_keepsOwners.
Qed.

Lemma ok_rezoneObject object s : owners_kept s (_rezoneObject object s).
Proof.
  unfold _rezoneObject. cbv zeta.
  case_bool_decide; [apply ok_zoneInsert|].
  destruct (isOutsideOnly s object); [by apply ok_heap|].
  match goal with |- context [if ?b then _ else _] => destruct b end.
  - by apply ok_heap.
  - etrans; [|apply ok_zoneInsert]. etrans; [|apply ok_zoneRemove].
    by apply ok_heap.
Qed.

Lemma ok_updateZoningState s : owners_kept s (updateZoningState s).
Proof.
  apply (updateZoningState_rel owners_kept);
    [by intros; apply ok_heap | by intros; apply ok_heap
    | by intros; apply ok_heap | intros; apply ok_zoneRemove
    | intros; apply ok_clearZoneList | intros; apply ok_rezoneObject].
Qed.

End Owners.

End Manager.

(** * Scenes

    One small scene on which the operations run: a root zone, three zone
    spaces, four plain objects, and stand-ins for the geometry and for the
    code of the other translation units. *)

Module Scenarios.

(** A box is either [Box3F::Invalid] ([false]) or valid; merging a valid
    box into the dirty area makes it valid. *)
Definition Box : Type := bool.
Definition Invalid : Box := false.
Definition intersect (a b : Box) : Box := a || b.

Definition maxObjectZones : Z := 128.
Definition zoneObjectType : Z := 1024.
Definition outdoorMask : Z := 2048.

Definition isRoot (ob : @SceneObject Box) : bool :=
  bool_decide (mZoneRangeStart ob = RootZoneId).

Definition root : ObjId := 0%nat.
Definition spaceA : ObjId := 1%nat.
Definition spaceB : ObjId := 2%nat.
Definition spaceC : ObjId := 3%nat.
Definition objX : ObjId := 10%nat.
Definition objY : ObjId := 11%nat.
Definition objZ : ObjId := 12%nat.
Definition objW : ObjId := 13%nat.

Definition zoneSpaceObject : @SceneObject Box :=
  mkSceneObject 0 0 false 0 false true true InvalidZoneId 0.

Definition plainObject : @SceneObject Box :=
  mkSceneObject 0 0 false 1 false true false InvalidZoneId 0.

Definition heap : gmap ObjId (@SceneObject Box) :=
  list_to_map
    [(root, zoneSpaceObject); (spaceA, zoneSpaceObject);
     (spaceB, zoneSpaceObject); (spaceC, zoneSpaceObject);
     (objX, plainObject); (objY, plainObject); (objZ, plainObject);
     (objW, plainObject)].

(** The container holds every object but the root zone and answers a query
    with those whose type mask meets the query mask. *)
Definition container (s : @Manager Box) (area : Box) (mask : Z)
  : list ObjId :=
  filter (λ o, Z.land (mTypeMask (getObj Invalid s o)) mask ≠ 0
               ∧ o ≠ mRootZone s)
    [root; spaceA; spaceB; spaceC; objX; objY; objZ; objW].

Definition startOf (s : @Manager Box) (o : ObjId) : Z :=
  mZoneRangeStart (getObj Invalid s o).

Definition zonesOf (s : @Manager Box) (o : ObjId) : list Z :=
  seqZ (startOf s o) (mNumZones (getObj Invalid s o)).

(** Where the plain objects lie: [objX] inside the zone of [spaceB];
    [objY] across the first zone of [spaceA] (reaching outside of it) and
    the zone of [spaceB]; [objZ] across all zones of [spaceA] and outside;
    [objW] across all zones of [spaceA] and the zone of [spaceB]. *)
Definition overlap (s : @Manager Box) (space object : ObjId)
  : list Z * bool :=
  if bool_decide (space = spaceB ∧ object = objX)
  then ([startOf s spaceB], false)
  else if bool_decide (space = spaceA ∧ object = objY)
  then ([startOf s spaceA], true)
  else if bool_decide (space = spaceB ∧ object = objY)
  then ([startOf s spaceB], false)
  else if bool_decide (space = spaceA ∧ (object = objZ ∨ object = objW))
  then (zonesOf s spaceA, true)
  else if bool_decide (space = spaceB ∧ object = objW)
  then ([startOf s spaceB], false)
  else ([], true).

Definition overlapBox (s : @Manager Box) (space : ObjId) (area : Box)
  : list Z * bool :=
  if bool_decide (space = spaceA) then ([startOf s spaceA], false)
  else if bool_decide (space = spaceB) then ([startOf s spaceB], true)
  else ([], false).

Definition pointZone (s : @Manager Box) (space : ObjId) (p : unit) : Z :=
  if bool_decide (space = spaceB) then startOf s spaceB else InvalidZoneId.

(** Modelled from the spec: [SceneZoneSpace::_onZoneAddObject] is not in
    the sources; by the spec the object is in the object list of each zone
    it was added to once the insertion is over. *)
Definition onAdd (s : @Manager Box) (space object : ObjId)
  (zoneIDs : list Z) : gmap ListId ZoneObjectList :=
  foldl (λ h z,
           match zoneListAt s z with
           | Some l =>
               let zl := default emptyZoneObjectList (h !! l) in
               <[l := mkZoneObjectList (mManager zl) (mObjects zl ++ [object])]> h
           | None => h
           end)
        (zoneListHeap s) zoneIDs.

(** Modelled from the spec: [SceneZoneSpace::_onZoneRemoveObject] is not in
    the sources; by the spec an object that left is in no object list of
    the owner any more. *)
Definition onRemove (s : @Manager Box) (owner : option ObjId)
  (object : ObjId) : gmap ListId ZoneObjectList :=
  match owner with
  | None => zoneListHeap s
  | Some _ =>
      (λ zl, if bool_decide (mManager zl = owner)
             then mkZoneObjectList (mManager zl)
                    (filter (λ o, o ≠ object) (mObjects zl))
             else zl) <$> zoneListHeap s
  end.

Abbreviation registerZones' := (registerZones Invalid zoneObjectType isRoot).
Abbreviation unregisterZones' :=
  (unregisterZones Invalid intersect zoneObjectType onRemove).
Abbreviation registerObject' := (registerObject Invalid zoneObjectType).
Abbreviation zoneInsert' :=
  (_zoneInsert Invalid maxObjectZones zoneObjectType outdoorMask container
     overlap onAdd).
Abbreviation zoneRemove' := (_zoneRemove Invalid onRemove).
Abbreviation updateZoningState' :=
  (updateZoningState Invalid intersect maxObjectZones zoneObjectType
     outdoorMask container overlap onAdd onRemove).
Abbreviation runOps' :=
  (runOps Invalid intersect zoneObjectType isRoot onRemove).
Abbreviation opsAllowed' :=
  (opsAllowed Invalid intersect zoneObjectType isRoot onRemove).
Abbreviation findZones' :=
  (findZones Invalid zoneObjectType container overlapBox).
Abbreviation zoneRange' := (zoneRange Invalid).
Abbreviation getObj' := (getObj Invalid).

(** The root zone and two zone spaces, of three zones and of one. *)
Definition newScene : @Manager Box := newManager Invalid root heap.
Definition sceneRoot : @Manager Box := registerZones' root 1 newScene.
Definition sceneA : @Manager Box := registerZones' spaceA 3 sceneRoot.
Definition sceneAB : @Manager Box := registerZones' spaceB 1 sceneA.

(** All objects zoned. *)
Definition sceneZoned : @Manager Box :=
  updateZoningState' (registerObject' objX sceneAB).

(** [spaceA] gone: two active zones out of five allocated. *)
Definition sceneHoles : @Manager Box := unregisterZones' spaceA sceneZoned.

(** ** Compaction and the table (C1) *)

(** In [sceneHoles] the zone of [spaceB] has ID 4, [objX] is in its object
    list and holds the zone list [[4]] in the table; the assertions of
    [verifyState] hold. *)
Example sceneHoles_before :
  verifyState Invalid zoneObjectType sceneHoles = true
  ∧ mNumActiveZones sceneHoles = 2
  ∧ mNumTotalAllocatedZones sceneHoles = 5
  ∧ zoneRange' sceneHoles spaceB = (4, 1)
  ∧ zoneListAt sceneHoles 4 = Some 4%nat
  ∧ mObjects (getList sceneHoles 4%nat) = [objX; objY; objW]
  ∧ ZoneTable.getValues (mZoneListHandle (getObj' sceneHoles objX))
      (mObjectZoneLists sceneHoles) = [4].
Proof. vm_compute. split_and!; reflexivity. Qed.

(** C1, at the state [sceneHoles].  The compaction check fires (2 active of
    5 allocated).  The walk gives [spaceB] the range [[1, 2)] and moves its
    object list to slot 1, and the allocated count becomes the active
    count, 2.  The table is not rewritten: the walk reads the objects from
    slot 1 of the old vector (the freed, empty list of a zone of [spaceA])
    and not from the list it moved, so [objX] still holds zone ID 4, an ID
    that is no longer allocated, and does not hold zone ID 1; the assertion
    of [verifyState] on the objects of zone 1 fails on the result. *)
Theorem compaction_keeps_old_zone_id :
  let s := _compactZonesCheck Invalid sceneHoles in
  mNumTotalAllocatedZones s = 2
  ∧ mNumActiveZones s = 2
  ∧ zoneRange' s spaceB = (1, 1)
  ∧ zoneListAt s 1 = Some 4%nat
  ∧ objX ∈ mObjects (getList s 4%nat)
  ∧ ZoneTable.getValues (mZoneListHandle (getObj' s objX))
      (mObjectZoneLists s) = [4]
  ∧ ZoneTable.containsBinItem (mZoneListHandle (getObj' s objX)) 1
      (mObjectZoneLists s) = false
  ∧ verifyZone Invalid s spaceB 1 = false
  ∧ verifyState Invalid zoneObjectType s = false.
Proof.
  vm_compute. split_and!; try reflexivity. apply list_elem_of_here.
Qed.

(** ** The root zone (C2) *)

(** C2 as the spec words it has the root zone off the zone space list and
    thereby out of the compaction walk.  After its registration the root
    zone is the entry of the list; and when it is registered second, behind
    a zone space that is then unregistered, the compaction walk moves its
    range from [[1, 2)] to [[0, 1)]. *)
Lemma root_zone_is_on_the_walked_list :
  mZoneSpaces sceneRoot = [root]
  ∧ (let ops := [OpRegisterZones spaceA 1; OpRegisterZones root 1;
                 OpUnregisterZones spaceA] in
     let s := runOps' ops newScene in
     opsAllowed' ops newScene = true
     ∧ mZoneSpaces s = [root]
     ∧ zoneRange' s root = (1, 1)
     ∧ zoneRange' (_compactZonesCheck Invalid s) root = (0, 1)).
Proof. vm_compute. split_and!; reflexivity. Qed.

Lemma root_zone_range_pinned_witness :
  let ops := [OpRegisterZones spaceA 3; OpRegisterZones spaceB 1;
              OpUnregisterZones spaceA; OpRegisterZones spaceC 1] in
  let s := runOps' ops sceneRoot in
  head (mZoneSpaces s) = Some root
  ∧ zoneRange' s root = (0, 1)
  ∧ zoneRange' (compactZones Invalid s) root = (0, 1).
Proof.
  apply (root_zone_range_pinned Invalid intersect zoneObjectType isRoot
           onRemove root heap);
    vm_compute; reflexivity.
Defined.

(** ** Ranges (C3) *)

(** C3 as the spec words it has the ranges cover [[0, totalAllocated)] after any
    sequence.  After [spaceA] is unregistered, ID 1 is below the allocated
    count and in the range of no registered zone space. *)
Lemma unregistered_ids_stay_unowned :
  let ops := [OpRegisterZones root 1; OpRegisterZones spaceA 3;
              OpRegisterZones spaceB 1; OpUnregisterZones spaceA] in
  let s := runOps' ops newScene in
  opsAllowed' ops newScene = true
  ∧ mNumTotalAllocatedZones s = 5
  ∧ filter (λ o, (zoneRange' s o).1 ≤ 1
                 < (zoneRange' s o).1 + (zoneRange' s o).2)
      (mZoneSpaces s) = [].
Proof. vm_compute. split_and!; reflexivity. Qed.

Lemma zone_ranges_disjoint_witness :
  let ops := [OpRegisterZones root 1; OpRegisterZones spaceA 3;
              OpRegisterZones spaceB 1; OpUnregisterZones spaceA;
              OpRegisterZones spaceC 2] in
  let s := runOps' ops newScene in
  ((zoneRange' s spaceB).1 + (zoneRange' s spaceB).2 ≤ (zoneRange' s spaceC).1
   ∨ (zoneRange' s spaceC).1 + (zoneRange' s spaceC).2 ≤ (zoneRange' s spaceB).1)
  ∧ (zoneRange' s spaceC).1 + (zoneRange' s spaceC).2
    ≤ mNumTotalAllocatedZones s.
Proof.
  intros ops s.
  destruct (zone_ranges_disjoint Invalid intersect zoneObjectType isRoot
              onRemove root heap ops) as (Hdisj & Hbounds & _ & _).
  { vm_compute. reflexivity. }
  change (runOps' ops (newManager Invalid root heap)) with s in Hdisj, Hbounds.
  assert (mZoneSpaces s = [root; spaceB; spaceC]) as Hsp
    by (vm_compute; reflexivity).
  split.
  - apply Hdisj; [rewrite Hsp; apply list_elem_of_In; simpl; tauto ..
                 | discriminate].
  - apply Hbounds. rewrite Hsp. apply list_elem_of_In. simpl. tauto.
Defined.

(** ** Unregistration does not compact (C5) *)


(** ** Insertion (C4) *)

(** [objY] lies across [spaceA], which reports an outside overlap, and
    [spaceB], which does not: it gets the zones of both and not the root
    zone. *)
Lemma zoneInsert_outside_rule_witness :
  let s' := zoneInsert' objY false sceneAB in
  ZoneTable.getValues (mZoneListHandle (getObj' s' objY)) (mObjectZoneLists s')
  = [1; 4]
  ∧ mNumCurrZones (getObj' s' objY) = 2.
Proof.
  intros s'.
  destruct (zoneInsert_outside_rule Invalid maxObjectZones zoneObjectType
              outdoorMask container overlap onAdd sceneAB objY false)
    as (Hfinal & Hcount & _ & Htwo).
  - vm_compute. split; reflexivity.
  - vm_compute. discriminate.
  - vm_compute. reflexivity.
  - intros r Hr.
    match type of Hr with
    | _ ∈ ?l =>
        assert (l = [([1], true); ([4], false)]) as Hrep
          by (vm_compute; reflexivity);
        rewrite Hrep in Hr
    end.
    apply list_elem_of_In in Hr.
    destruct Hr as [<-|[<-|[]]]; left; discriminate.
  - fold s' in Hfinal, Hcount, Htwo. split.
    + rewrite Htwo; [vm_compute; reflexivity | | vm_compute; discriminate].
      exists ([4], false). split; [|reflexivity].
      apply list_elem_of_In. vm_compute. right. left. reflexivity.
    + rewrite Hcount, Hfinal. vm_compute. reflexivity.
Defined.

(** A scene whose zone space [spaceA] has as many zones as an object can
    hold. *)
Definition sceneWide : @Manager Box :=
  registerZones' spaceB 1 (registerZones' spaceA 128 sceneRoot).

(** C4 as the spec words it has the root zone in the membership whenever every
    overlapping zone space reports an outside overlap, and the zones of both
    zone spaces in it when one of two reports none.  [objZ] lies across the
    128 zones of [spaceA] and outside, and all reports carry the outside
    flag: it gets the 128 zones and not the root zone.  [objW] lies across
    those zones and the zone of [spaceB] (ID 129): it gets the 128 zones of
    [spaceA] and not the zone of [spaceB]. *)
Lemma full_capacity_leaves_root_zone_out :
  let q := _queryZoneSpaces zoneObjectType container true sceneWide in
  isOutsideOnly Invalid outdoorMask sceneWide objZ = false
  ∧ objectReports Invalid overlap q objZ (mZoneSpacesQueryList q)
    = [(seqZ 1 128, true); ([], true)]
  ∧ (let s' := zoneInsert' objZ false sceneWide in
     ZoneTable.getValues (mZoneListHandle (getObj' s' objZ))
       (mObjectZoneLists s') = seqZ 1 128
     ∧ ZoneTable.containsBinItem (mZoneListHandle (getObj' s' objZ))
         RootZoneId (mObjectZoneLists s') = false)
  ∧ objectReports Invalid overlap q objW (mZoneSpacesQueryList q)
    = [(seqZ 1 128, true); ([129], false)]
  ∧ (let s' := zoneInsert' objW false sceneWide in
     ZoneTable.containsBinItem (mZoneListHandle (getObj' s' objW)) 129
       (mObjectZoneLists s') = false).
Proof. vm_compute. split_and!; reflexivity. Qed.

(** ** Area queries (C6) *)

Lemma findZones_aggregates_witness :
  (findZones' true [7] sceneAB).2 = (3, [7; 1; 4; 0]).
Proof.
  rewrite (findZones_aggregates Invalid zoneObjectType container overlapBox
             true [7] sceneAB);
    vm_compute; reflexivity.
Defined.

(** ** Round trip (C9) *)

Lemma zoneInsert_zoneRemove_round_trip_witness :
  let s1 := zoneInsert' objX false sceneAB in
  let s2 := zoneRemove' objX true s1 in
  mZoneListHandle (getObj' s1 objX) = 1
  ∧ mNumCurrZones (getObj' s1 objX) = 1
  ∧ mNumCurrZones (getObj' s2 objX) = 0
  ∧ mZoneListHandle (getObj' s2 objX) = 0
  ∧ ZoneTable.lookup 1 (mObjectZoneLists s2) = None.
Proof.
  intros s1 s2.
  destruct (zoneInsert_zoneRemove_round_trip Invalid maxObjectZones
              zoneObjectType outdoorMask container overlap onAdd onRemove
              sceneAB objX false true)
    as (Hcount & Hhandle & Hfreed & _).
  { vm_compute. reflexivity. }
  fold s1 s2 in Hcount, Hhandle, Hfreed.
  assert (mZoneListHandle (getObj' s1 objX) = 1) as Hh
    by (vm_compute; reflexivity).
  rewrite Hh in Hfreed.
  split_and!;
    [exact Hh | vm_compute; reflexivity | exact Hcount | exact Hhandle
    | exact Hfreed].
Defined.

(** ** Registering an object (C10) *)

(** C10 as the spec words it has every call append the object to the dirty
    queue.  Registering [objX] a second time before an update pass leaves
    the queue as it is: the object is flagged dirty already. *)
Lemma registerObject_twice_appends_once :
  let s := registerObject' objX sceneAB in
  Z.land (mTypeMask (getObj' s objX)) zoneObjectType = 0
  ∧ mDirtyObjects s = [objX]
  ∧ mDirtyObjects (registerObject' objX s) = [objX]
  ∧ mDirtyObjects (registerObject' objX s) ≠ mDirtyObjects s ++ [objX].
Proof. vm_compute. split_and!; try reflexivity. discriminate. Qed.

Lemma registerObject_effect_witness :
  let s' := registerObject' objX sceneAB in
  mDirtyObjects s' = [objX]
  ∧ mZoneRefDirty (getObj' s' objX) = true
  ∧ mZoneListHandle (getObj' s' objX) = 0
  ∧ mObjectZoneLists s' = mObjectZoneLists sceneAB
  ∧ zoneListHeap s' = zoneListHeap sceneAB.
Proof.
  intros s'.
  destruct (registerObject_effect Invalid zoneObjectType sceneAB objX)
    as (Hfresh & _ & Hhandle & _ & Htable & Hheap & _).
  { vm_compute. reflexivity. }
  fold s' in Hfresh, Hhandle, Htable, Hheap.
  destruct Hfresh as [Hqueue Hdirty]; [vm_compute; reflexivity|].
  split_and!.
  - rewrite Hqueue. vm_compute. reflexivity.
  - exact Hdirty.
  - rewrite Hhandle. vm_compute. reflexivity.
  - exact Htable.
  - exact Hheap.
Defined.

End Scenarios.
